(** * Talent Match Intelligence: the SQL scoring engine of [src/app.py]

    [build_match_sql] assembles one PostgreSQL query, a chain of common
    table expressions (CTEs) ending in a ranked SELECT.  This development
    embeds that query shallowly: every CTE is a Rocq function of the same
    name over lists of rows, evaluated in the order the query lists them.

    Modelling conventions
    - a table is a list of rows in physical order; a row is a record;
    - identifier columns (employee_id, pillar_code, scale_code, tv_name,
      tgv_name, year) are keys and never NULL; measure columns (scores,
      ratings, weights, categorical attributes) are nullable and carried
      as [option];
    - SQL numbers are exact rationals ([Qc]).  PostgreSQL computes the
      baselines ([PERCENTILE_CONT] returns double precision) and with
      them the rates and scores in binary floating point: the model
      applies the same operations to the same values without rounding,
      and the properties below are stated through what is computed from
      which rows and how results compare, not through identities that
      only exact arithmetic has;
    - SQL three-valued logic is [option bool]; a WHERE or JOIN condition
      keeps a row only when it evaluates to TRUE;
    - ORDER BY fixes the order of rows with different scores only; the
      function [order_by_final_match_rate_desc] keeps rows with equal
      scores as the join delivers them, one of the orders PostgreSQL may
      choose, and [order_by_limit_allows] describes all of them;
    - a statement aborts as a whole: on a division by zero, on an
      integer constant outside the range of [int], and on a text that
      cannot be read ([Sql.failure]). *)

From Stdlib Require Import List Bool Arith ZArith QArith Qround Qcanon Lia.
From Stdlib Require Import Ascii String DecimalString DecimalPos DecimalZ.
From Stdlib Require Import Permutation Sorted.
Import ListNotations.

Set Implicit Arguments.

Close Scope Qc_scope.
Close Scope Q_scope.
Local Open Scope string_scope.
Local Open Scope list_scope.

(* ------------------------------------------------------------------ *)
(** ** SQL values *)

Module Sql.

(** A nullable number. *)
Definition num := option Qc.

(** Three-valued truth value. *)
Definition tbool := option bool.

Definition qz (z : Z) : Qc := Q2Qc (inject_Z z).

Definition is_true (b : tbool) : bool :=
  match b with Some true => true | _ => false end.

Definition and3 (a b : tbool) : tbool :=
  match a, b with
  | Some false, _ | _, Some false => Some false
  | Some true, Some true => Some true
  | _, _ => None
  end.

Definition or3 (a b : tbool) : tbool :=
  match a, b with
  | Some true, _ | _, Some true => Some true
  | Some false, Some false => Some false
  | _, _ => None
  end.

Definition is_not_null {A} (a : option A) : tbool :=
  Some (match a with Some _ => true | None => false end).

Definition eq_int (a b : option Z) : tbool :=
  match a, b with Some x, Some y => Some (Z.eqb x y) | _, _ => None end.

Definition ge_int (a b : option Z) : tbool :=
  match a, b with Some x, Some y => Some (Z.leb y x) | _, _ => None end.

Definition eq_text (a b : option string) : tbool :=
  match a, b with Some x, Some y => Some (String.eqb x y) | _, _ => None end.

Definition Qc_eqb (a b : Qc) : bool :=
  if Qc_eq_dec a b then true else false.

(** [NULLIF(a, b)]: NULL when [a = b], otherwise [a]. *)
Definition nullif (a : num) (b : Qc) : num :=
  match a with
  | Some x => if Qc_eqb x b then None else Some x
  | None => None
  end.

Definition mul (a b : num) : num :=
  match a, b with Some x, Some y => Some (x * y)%Qc | _, _ => None end.

Definition sub (a b : num) : num :=
  match a, b with Some x, Some y => Some (x - y)%Qc | _, _ => None end.

(** Why PostgreSQL gives no result for a statement.
    - [division_by_zero]: the division operator met a zero divisor;
    - [integer_out_of_range]: a constant does not fit the [int] it is
      cast to;
    - [unreadable_statement]: the text is not the statement
      [build_match_sql] meant to write, with a list of string constants
      for [manual_hp]; PostgreSQL then raises a syntax error or evaluates
      some other statement, and the model follows it no further. *)
Inductive failure : Type :=
| division_by_zero
| integer_out_of_range
| unreadable_statement.

(** Outcome of evaluating the statement. *)
Inductive result (A : Type) : Type :=
| Ok (a : A)
| Failed (e : failure).
Arguments Ok {A} a.
Arguments Failed {A} e.

Abbreviation DivisionByZero := (Failed division_by_zero).
Abbreviation IntegerOutOfRange := (Failed integer_out_of_range).
Abbreviation Unreadable := (Failed unreadable_statement).

Definition bind {A B} (r : result A) (k : A -> result B) : result B :=
  match r with Ok a => k a | Failed e => Failed e end.

Definition ret {A} (a : A) : result A := Ok a.

(** The division operator is strict: a NULL operand gives NULL without
    looking at the other one; a zero divisor with a non-NULL dividend
    raises. *)
Definition div (a b : num) : result num :=
  match a, b with
  | Some x, Some y => if Qc_eqb y 0 then DivisionByZero else Ok (Some (x / y)%Qc)
  | _, _ => Ok None
  end.

Fixpoint mapM {A B} (f : A -> result B) (l : list A) : result (list B) :=
  match l with
  | [] => Ok []
  | x :: t => bind (f x) (fun y => bind (mapM f t) (fun ys => Ok (y :: ys)))
  end.

(** [SUM]: NULL inputs are skipped; the sum of no non-NULL input is NULL. *)
Definition defined (l : list num) : list Qc :=
  flat_map (fun o => match o with Some x => [x] | None => [] end) l.

Definition total (l : list Qc) : Qc := fold_right Qcplus 0%Qc l.

Definition sum (l : list num) : num :=
  match defined l with
  | [] => None
  | xs => Some (total xs)
  end.

(** [SELECT DISTINCT], [UNION] and the keys of a [GROUP BY]: first
    occurrences, in order. *)
Fixpoint distinct_by {A} (eqb : A -> A -> bool) (l : list A) : list A :=
  match l with
  | [] => []
  | x :: t => x :: filter (fun y => negb (eqb x y)) (distinct_by eqb t)
  end.

Definition distinct (l : list string) : list string := distinct_by String.eqb l.

Definition union (a b : list string) : list string := distinct (a ++ b).

Definition mem (x : string) (l : list string) : bool := existsb (String.eqb x) l.

Definition exists_rows {A} (l : list A) : bool :=
  match l with [] => false | _ => true end.

End Sql.

Notation "x <- c ;; k" := (Sql.bind c (fun x => k))
  (at level 61, c at next level, right associativity).

(* ------------------------------------------------------------------ *)
(** ** The stored tables *)

Record employee := {
  e_employee_id : string;
  e_fullname : string;
  e_position_id : option Z }.

(** [performance_yearly] holds one rating per employee and year.  The
    queries read [employee_id] and [rating] only. *)
Record performance := {
  py_employee_id : string;
  py_year : Z;
  py_rating : option Z }.

Record competency := {
  c_employee_id : string;
  c_pillar_code : string;
  c_year : Z;
  c_score : Sql.num }.

Record profile := {
  p_employee_id : string;
  p_iq : Sql.num;
  p_gtq : Sql.num;
  p_tiki : Sql.num;
  p_faxtor : Sql.num;
  p_pauli : Sql.num;
  p_mbti : option string;
  p_disc : option string }.

Record papi_score := {
  ps_employee_id : string;
  ps_scale_code : string;
  ps_score : Sql.num }.

Record tv_mapping := {
  m_tv_name : string;
  m_tgv_name : string;
  m_tv_weight : Sql.num }.

Record group_weight := {
  g_tgv_name : string;
  g_tgv_weight : Sql.num }.

Record database := {
  employees : list employee;
  performance_yearly : list performance;
  competencies_yearly : list competency;
  profiles_psych : list profile;
  papi_scores : list papi_score;
  talent_variables_mapping : list tv_mapping;
  talent_group_weights : list group_weight }.

(** The single row of the [params] CTE: the three columns as the query
    sees them, after the casts [::text[]], [::int] and [::int].
    [Text.read_params] reads the row from the text of the statement and
    refuses an integer that does not fit an [int]. *)
Record params := {
  manual_hp : list string;
  role_position_id : option Z;
  min_hp_rating : Z }.

(* ------------------------------------------------------------------ *)
(** ** Cohort resolution: [manual_set] .. [final_bench] *)

Section Cohort.
Variable db : database.
Variable p : params.

Definition manual_set : list string := manual_hp p.

Definition role_set : list string :=
  Sql.distinct
    (flat_map (fun e =>
       flat_map (fun py =>
         if String.eqb (e_employee_id e) (py_employee_id py)
            && Sql.is_true
                 (Sql.and3
                    (Sql.and3 (Sql.ge_int (py_rating py) (Some (min_hp_rating p)))
                              (Sql.is_not_null (role_position_id p)))
                    (Sql.eq_int (e_position_id e) (role_position_id p)))
         then [e_employee_id e] else [])
         (performance_yearly db))
       (employees db)).

Definition benchmark_set : list string := Sql.union manual_set role_set.

Definition fallback_benchmark : list string :=
  flat_map (fun py =>
    if Sql.is_true (Sql.ge_int (py_rating py) (Some (min_hp_rating p)))
    then [py_employee_id py] else [])
    (performance_yearly db).

Definition final_bench : list string :=
  Sql.union
    (Sql.distinct benchmark_set)
    (Sql.distinct
       (filter (fun _ => negb (Sql.exists_rows benchmark_set)) fallback_benchmark)).

End Cohort.

(* ------------------------------------------------------------------ *)
(** ** Ordered-set aggregates and text functions of the engine *)

Module Agg.

Definition Qc_leb (x y : Qc) : bool := Qle_bool x y.

(** Stable insertion sort: an element goes in front of the first element
    it is not greater than. *)
Fixpoint insert {A} (leb : A -> A -> bool) (x : A) (l : list A) : list A :=
  match l with
  | [] => [x]
  | y :: t => if leb x y then x :: l else y :: insert leb x t
  end.

Definition sort {A} (leb : A -> A -> bool) (l : list A) : list A :=
  fold_right (insert leb) [] l.

(** [PERCENTILE_CONT(fraction) WITHIN GROUP (ORDER BY v)]: NULL inputs
    are dropped; with [n] sorted inputs the target row number is
    [fraction * (n - 1)], and the result interpolates linearly between
    the rows below and above it. *)
Definition percentile_cont (fraction : Qc) (l : list Sql.num) : Sql.num :=
  match sort Qc_leb (Sql.defined l) with
  | [] => None
  | (x0 :: _) as xs =>
      let pos := (fraction * Sql.qz (Z.of_nat (List.length xs) - 1))%Qc in
      let first_row := Qfloor pos in
      let second_row := Qceiling pos in
      let lo := nth (Z.to_nat first_row) xs x0 in
      let hi := nth (Z.to_nat second_row) xs x0 in
      if Z.eqb first_row second_row then Some lo
      else Some (lo + (hi - lo) * (pos - Sql.qz first_row))%Qc
  end.

Definition half : Qc := Q2Qc (1 # 2).

Definition defined_text (l : list (option string)) : list string :=
  flat_map (fun o => match o with Some x => [x] | None => [] end) l.

Definition count_text (x : string) (l : list string) : nat :=
  List.length (filter (String.eqb x) l).

(** [MODE() WITHIN GROUP (ORDER BY v)]: the most frequent non-NULL input,
    the first in sort order among equally frequent ones; NULL when there
    is no non-NULL input. *)
Fixpoint most_frequent (cands xs : list string) : option (string * nat) :=
  match cands with
  | [] => None
  | c :: t =>
      let n := count_text c xs in
      match most_frequent t xs with
      | Some (c', n') => if Nat.leb n' n then Some (c, n) else Some (c', n')
      | None => Some (c, n)
      end
  end.

Definition mode (l : list (option string)) : option string :=
  let xs := sort String.leb (defined_text l) in
  option_map fst (most_frequent (Sql.distinct xs) xs).

Definition is_space (c : ascii) : bool := Ascii.eqb c " "%char.

Fixpoint ltrim (s : string) : string :=
  match s with
  | String c t => if is_space c then ltrim t else s
  | EmptyString => EmptyString
  end.

Fixpoint rtrim (s : string) : string :=
  match s with
  | String c t =>
      match rtrim t with
      | EmptyString => if is_space c then EmptyString else String c EmptyString
      | t' => String c t'
      end
  | EmptyString => EmptyString
  end.

(** [TRIM(s)]: spaces removed from both ends. *)
Definition trim (s : string) : string := rtrim (ltrim s).

Definition upper_char (c : ascii) : ascii :=
  let n := nat_of_ascii c in
  if Nat.leb 97 n && Nat.leb n 122 then ascii_of_nat (n - 32) else c.

(** [UPPER(s)] on the ASCII letters [a] to [z], as under the C locale;
    every other character is left as it is. *)
Fixpoint upper (s : string) : string :=
  match s with
  | String c t => String (upper_char c) (upper t)
  | EmptyString => EmptyString
  end.

Definition upper_trim (o : option string) : option string :=
  option_map (fun s => upper (trim s)) o.

End Agg.

(* ------------------------------------------------------------------ *)
(** ** Readings and baselines *)

(** A row of [all_numeric_scores]. *)
Record numeric_score := {
  sc_employee_id : string;
  sc_tv_name : string;
  sc_user_score : Sql.num }.

(** A row of [baseline_numeric]. *)
Record numeric_baseline := {
  bn_tv_name : string;
  bn_baseline_score : Sql.num }.

(** A row of [baseline_papi]. *)
Record papi_baseline := {
  bp_tv_name : string;
  bp_baseline_score : Sql.num;
  bp_is_reverse : bool }.

(** A row of [baseline_cat]. *)
Record cat_baseline := {
  bc_tv_name : string;
  bc_baseline_value : option string }.

(** A row of [numeric_tv], [papi_tv], [categorical_tv] and [all_tv]. *)
Record tv_row := {
  tv_employee_id : string;
  tv_name : string;
  tv_baseline_score : Sql.num;
  tv_user_score : Sql.num;
  tv_match_rate : Sql.num }.

(** A row of [tgv_match]. *)
Record tgv_row := {
  tgv_employee_id : string;
  tgv_name : string;
  tgv_match_rate : Sql.num }.

(** A row of [final_match]. *)
Record final_row := {
  fm_employee_id : string;
  fm_final_match_rate : Sql.num }.

(** A row of the ranked result. *)
Record ranked_row := {
  out_employee_id : string;
  out_fullname : string;
  out_final_match_rate : Sql.num }.

(** The five psychometric columns read from [profiles_psych], with the
    variable name the query gives each. *)
Definition psych_columns : list (string * (profile -> Sql.num)) :=
  [("iq", p_iq); ("gtq", p_gtq); ("tiki", p_tiki);
   ("faxtor", p_faxtor); ("pauli", p_pauli)].

Definition hundred : Qc := Sql.qz 100.

Definition two : Qc := Sql.qz 2.

(** The [tv_match_rate] column of [numeric_tv], and of [papi_tv] for a
    scale that is not reverse-scored:
    [(user_score / NULLIF(baseline_score, 0)) * 100]. *)
Definition numeric_match_rate (baseline_score user_score : Sql.num) : Sql.result Sql.num :=
  q <- Sql.div user_score (Sql.nullif baseline_score 0%Qc) ;;
  Sql.ret (Sql.mul q (Some hundred)).

(** The reverse branch of the CASE in [papi_tv]:
    [((2 * baseline_score - score) / NULLIF(baseline_score, 0)) * 100]. *)
Definition reverse_match_rate (baseline_score user_score : Sql.num) : Sql.result Sql.num :=
  q <- Sql.div (Sql.sub (Sql.mul (Some two) baseline_score) user_score)
               (Sql.nullif baseline_score 0%Qc) ;;
  Sql.ret (Sql.mul q (Some hundred)).

Definition papi_match_rate (is_reverse : bool) (baseline_score user_score : Sql.num)
  : Sql.result Sql.num :=
  if is_reverse then reverse_match_rate baseline_score user_score
  else numeric_match_rate baseline_score user_score.

Section Engine.
Variable db : database.
Variable p : params.

(** [latest]: [MAX(year)] over all of [competencies_yearly]. *)
Definition latest : option Z :=
  match map c_year (competencies_yearly db) with
  | [] => None
  | y :: ys => Some (fold_right Z.max y ys)
  end.

Definition in_latest (c : competency) : bool :=
  Sql.is_true (Sql.eq_int (Some (c_year c)) latest).

(** The sub-select [x] of [baseline_numeric]: the cohort's rows only. *)
Definition baseline_numeric_input : list (string * Sql.num) :=
  map (fun c => (c_pillar_code c, c_score c))
      (filter (fun c => in_latest c && Sql.mem (c_employee_id c) (final_bench db p))
              (competencies_yearly db))
  ++ flat_map (fun col =>
       map (fun q => (fst col, snd col q))
           (filter (fun q => Sql.mem (p_employee_id q) (final_bench db p))
                   (profiles_psych db)))
       psych_columns.

Definition baseline_numeric : list numeric_baseline :=
  map (fun k =>
         {| bn_tv_name := k;
            bn_baseline_score :=
              Agg.percentile_cont Agg.half
                (map snd (filter (fun r => String.eqb (fst r) k) baseline_numeric_input)) |})
      (Sql.distinct (map fst baseline_numeric_input)).

Definition all_numeric_scores : list numeric_score :=
  map (fun c => {| sc_employee_id := c_employee_id c;
                   sc_tv_name := c_pillar_code c;
                   sc_user_score := c_score c |})
      (filter in_latest (competencies_yearly db))
  ++ flat_map (fun col =>
       map (fun q => {| sc_employee_id := p_employee_id q;
                        sc_tv_name := fst col;
                        sc_user_score := snd col q |})
           (profiles_psych db))
       psych_columns.

Definition numeric_tv : Sql.result (list tv_row) :=
  Sql.mapM (fun scbn : numeric_score * numeric_baseline =>
              let (sc, bn) := scbn in
              r <- numeric_match_rate (bn_baseline_score bn) (sc_user_score sc) ;;
              Sql.ret {| tv_employee_id := sc_employee_id sc;
                         tv_name := bn_tv_name bn;
                         tv_baseline_score := bn_baseline_score bn;
                         tv_user_score := sc_user_score sc;
                         tv_match_rate := r |})
    (flat_map (fun sc =>
       map (fun bn => (sc, bn))
           (filter (fun bn => String.eqb (sc_tv_name sc) (bn_tv_name bn)) baseline_numeric))
       all_numeric_scores).

Definition reverse_list : list string := ["Papi_I"; "Papi_K"; "Papi_Z"; "Papi_T"].

(** [papi_scores JOIN final_bench]: the cohort's behavioural rows. *)
Definition baseline_papi_input : list papi_score :=
  flat_map (fun ps =>
    map (fun _ => ps)
        (filter (String.eqb (ps_employee_id ps)) (final_bench db p)))
    (papi_scores db).

Definition baseline_papi : list papi_baseline :=
  map (fun k =>
         {| bp_tv_name := k;
            bp_baseline_score :=
              Agg.percentile_cont Agg.half
                (map ps_score
                     (filter (fun ps => String.eqb (ps_scale_code ps) k) baseline_papi_input));
            bp_is_reverse := Sql.mem k reverse_list |})
      (Sql.distinct (map ps_scale_code baseline_papi_input)).

Definition papi_tv : Sql.result (list tv_row) :=
  Sql.mapM (fun psbp : papi_score * papi_baseline =>
              let (ps, bp) := psbp in
              r <- papi_match_rate (bp_is_reverse bp) (bp_baseline_score bp) (ps_score ps) ;;
              Sql.ret {| tv_employee_id := ps_employee_id ps;
                         tv_name := bp_tv_name bp;
                         tv_baseline_score := bp_baseline_score bp;
                         tv_user_score := ps_score ps;
                         tv_match_rate := r |})
    (flat_map (fun ps =>
       map (fun bp => (ps, bp))
           (filter (fun bp => String.eqb (ps_scale_code ps) (bp_tv_name bp)) baseline_papi))
       (papi_scores db)).

(** [profiles_psych JOIN final_bench]. *)
Definition baseline_cat_input : list profile :=
  flat_map (fun q =>
    map (fun _ => q)
        (filter (String.eqb (p_employee_id q)) (final_bench db p)))
    (profiles_psych db).

Definition baseline_cat : list cat_baseline :=
  [ {| bc_tv_name := "mbti";
       bc_baseline_value :=
         Agg.mode (map (fun q => Agg.upper_trim (p_mbti q)) baseline_cat_input) |};
    {| bc_tv_name := "disc";
       bc_baseline_value :=
         Agg.mode (map (fun q => Agg.upper_trim (p_disc q)) baseline_cat_input) |} ].

Definition categorical_tv : list tv_row :=
  flat_map (fun q =>
    map (fun bc =>
      {| tv_employee_id := p_employee_id q;
         tv_name := bc_tv_name bc;
         tv_baseline_score := Some 1%Qc;
         tv_user_score := Some 1%Qc;
         tv_match_rate :=
           if Sql.is_true
                (Sql.or3
                   (Sql.and3 (Some (String.eqb (bc_tv_name bc) "mbti"))
                             (Sql.eq_text (Agg.upper_trim (p_mbti q)) (bc_baseline_value bc)))
                   (Sql.and3 (Some (String.eqb (bc_tv_name bc) "disc"))
                             (Sql.eq_text (Agg.upper_trim (p_disc q)) (bc_baseline_value bc))))
           then Some hundred else Some 0%Qc |})
      baseline_cat)
    (profiles_psych db).

Definition all_tv : Sql.result (list tv_row) :=
  n <- numeric_tv ;;
  b <- papi_tv ;;
  Sql.ret (n ++ b ++ categorical_tv).

Definition tv_map : list tv_mapping := talent_variables_mapping db.

End Engine.

(* ------------------------------------------------------------------ *)
(** ** Weighted rollup: [tgv_match] and [final_match] *)

Definition pair_eqb (x y : string * string) : bool :=
  String.eqb (fst x) (fst y) && String.eqb (snd x) (snd y).

(** [all_tv a JOIN tv_map m USING(tv_name)]. *)
Definition tgv_join (a_rows : list tv_row) (m_rows : list tv_mapping)
  : list (tv_row * tv_mapping) :=
  flat_map (fun a =>
    map (fun m => (a, m))
        (filter (fun m => String.eqb (tv_name a) (m_tv_name m)) m_rows))
    a_rows.

Definition tgv_key (am : tv_row * tv_mapping) : string * string :=
  (tv_employee_id (fst am), m_tgv_name (snd am)).

(** The joined rows of one [(employee_id, tgv_name)] group. *)
Definition tgv_group (j : list (tv_row * tv_mapping)) (k : string * string)
  : list (tv_row * tv_mapping) :=
  filter (fun am => pair_eqb (tgv_key am) k) j.

(** [SUM(a.tv_match_rate * m.tv_weight)] over a group. *)
Definition tgv_numerator (g : list (tv_row * tv_mapping)) : Sql.num :=
  Sql.sum (map (fun am => Sql.mul (tv_match_rate (fst am)) (m_tv_weight (snd am))) g).

(** [SUM(m.tv_weight)] over a group. *)
Definition tgv_denominator (g : list (tv_row * tv_mapping)) : Sql.num :=
  Sql.sum (map (fun am => m_tv_weight (snd am)) g).

Definition tgv_match (a_rows : list tv_row) (m_rows : list tv_mapping)
  : Sql.result (list tgv_row) :=
  let j := tgv_join a_rows m_rows in
  Sql.mapM (fun k =>
              let g := tgv_group j k in
              q <- Sql.div (tgv_numerator g) (tgv_denominator g) ;;
              Sql.ret {| tgv_employee_id := fst k;
                         tgv_name := snd k;
                         tgv_match_rate := q |})
    (Sql.distinct_by pair_eqb (map tgv_key j)).

(** [tgv_match t JOIN talent_group_weights g USING(tgv_name)]. *)
Definition final_join (t_rows : list tgv_row) (g_rows : list group_weight)
  : list (tgv_row * group_weight) :=
  flat_map (fun t =>
    map (fun g => (t, g))
        (filter (fun g => String.eqb (tgv_name t) (g_tgv_name g)) g_rows))
    t_rows.

Definition final_group (j : list (tgv_row * group_weight)) (k : string)
  : list (tgv_row * group_weight) :=
  filter (fun tg => String.eqb (tgv_employee_id (fst tg)) k) j.

(** [SUM(t.tgv_match_rate * g.tgv_weight)] over an employee's rows. *)
Definition final_sum (g : list (tgv_row * group_weight)) : Sql.num :=
  Sql.sum (map (fun tg => Sql.mul (tgv_match_rate (fst tg)) (g_tgv_weight (snd tg))) g).

Definition final_match (t_rows : list tgv_row) (g_rows : list group_weight)
  : list final_row :=
  let j := final_join t_rows g_rows in
  map (fun k => {| fm_employee_id := k;
                   fm_final_match_rate := final_sum (final_group j k) |})
      (Sql.distinct (map (fun tg => tgv_employee_id (fst tg)) j)).

(* ------------------------------------------------------------------ *)
(** ** The ranked SELECT *)

(** [final_match fm JOIN employees e USING(employee_id)].  A join fixes
    no order of its rows; the model takes them in the stored order of
    [employees], each employee with its rows of [final_match]. *)
Definition ranked_join (fm_rows : list final_row) (e_rows : list employee)
  : list ranked_row :=
  flat_map (fun e =>
    map (fun fm => {| out_employee_id := e_employee_id e;
                      out_fullname := e_fullname e;
                      out_final_match_rate := fm_final_match_rate fm |})
        (filter (fun fm => String.eqb (fm_employee_id fm) (e_employee_id e)) fm_rows))
    e_rows.

(** The sort key order of [ORDER BY final_match_rate DESC]: [desc_leb a b]
    says a row with key [a] may stand before a row with key [b].  NULL
    sorts as larger than every number, so it comes first when descending. *)
Definition desc_leb (a b : Sql.num) : bool :=
  match a, b with
  | None, _ => true
  | Some _, None => false
  | Some x, Some y => Agg.Qc_leb y x
  end.

Definition rank_leb (r1 r2 : ranked_row) : bool :=
  desc_leb (out_final_match_rate r1) (out_final_match_rate r2).

(** The query names no second sort key, so rows with equal keys may come
    in any order.  The executable model keeps them in the order the join
    delivered them; [order_by_limit_allows] below says what the clause
    allows. *)
Definition order_by_final_match_rate_desc (rows : list ranked_row) : list ranked_row :=
  Agg.sort rank_leb rows.

Definition limit (n : nat) (rows : list ranked_row) : list ranked_row := firstn n rows.

Definition ranked_select (n : nat) (fm_rows : list final_row) (e_rows : list employee)
  : list ranked_row :=
  limit n (order_by_final_match_rate_desc (ranked_join fm_rows e_rows)).

(** The whole statement with the row bound as a parameter. *)
Definition talent_match_limit (n : nat) (db : database) (p : params)
  : Sql.result (list ranked_row) :=
  a <- all_tv db p ;;
  t <- tgv_match a (tv_map db) ;;
  Sql.ret (ranked_select n (final_match t (talent_group_weights db)) (employees db)).

(** The statement as [build_match_sql] writes it: [LIMIT 200]. *)
Definition talent_match (db : database) (p : params) : Sql.result (list ranked_row) :=
  talent_match_limit 200 db p.

(* ------------------------------------------------------------------ *)
(** ** The query text: how [build_match_sql] writes the [params] row *)

Module Text.

Definition quote : ascii := "'"%char.

Definition is_quote (c : ascii) : bool := Ascii.eqb c quote.

(** [f"'{emp}'"]: the id between two single quotes, as it is. *)
Definition quoted (emp : string) : string :=
  String quote (emp ++ String quote EmptyString).

(** [manual_array_sql]: the two branches of [if manual_hp_ids:]. *)
Definition manual_array_sql (manual_hp_ids : list string) : string :=
  match manual_hp_ids with
  | [] => "ARRAY[]::text[]"
  | _ => "ARRAY[" ++ String.concat "," (map quoted manual_hp_ids) ++ "]::text[]"
  end.

Definition str_int (z : Z) : string :=
  DecimalString.NilZero.string_of_int (Z.to_int z).

Definition role_sql (role_position_id : option Z) : string :=
  match role_position_id with
  | None => "NULL"
  | Some z => str_int z
  end.

Definition newline : string := String (ascii_of_nat 10) EmptyString.

(** The text up to the end of the [params] CTE.  [engine_ctes] is the
    rest of the template, from [manual_set] to [LIMIT 200;]: it holds no
    placeholder, and its meaning is [talent_match]. *)
Definition build_match_sql (engine_ctes : string)
    (manual_hp_ids : list string) (role_position_id : option Z) (min_hp_rating : Z)
  : string :=
  newline ++ "WITH params AS (" ++ newline
  ++ "    SELECT" ++ newline
  ++ "        " ++ manual_array_sql manual_hp_ids ++ " AS manual_hp," ++ newline
  ++ "        " ++ role_sql role_position_id ++ "::int AS role_position_id," ++ newline
  ++ "        " ++ str_int min_hp_rating ++ "::int AS min_hp_rating" ++ newline
  ++ ")," ++ newline
  ++ engine_ctes.

(** *** Reading the array constructor back, as the SQL lexer does

    A string constant starts and ends with a single quote; inside it two
    adjacent quotes stand for one quote character.  Blanks may separate
    tokens; two constants separated only by blanks with a newline among
    them are one constant. *)

Definition is_blank (c : ascii) : bool :=
  Ascii.eqb c " "%char || Ascii.eqb c (ascii_of_nat 9)
  || Ascii.eqb c (ascii_of_nat 10) || Ascii.eqb c (ascii_of_nat 11)
  || Ascii.eqb c (ascii_of_nat 12) || Ascii.eqb c (ascii_of_nat 13).

Definition is_newline (c : ascii) : bool :=
  Ascii.eqb c (ascii_of_nat 10) || Ascii.eqb c (ascii_of_nat 13).

(** Where the lexer stands while it reads a string constant: after the
    opening quote; after a quote met inside the constant; after that
    quote and some blanks, a newline among them or not. *)
Inductive scan : Type :=
| in_constant
| after_quote
| after_blanks (nl : bool).

(** The constant's value and the text that follows it. *)
Fixpoint string_constant_from (st : scan) (s : string) : option (string * string) :=
  match s with
  | EmptyString =>
      match st with
      | in_constant => None
      | _ => Some (EmptyString, EmptyString)
      end
  | String c t =>
      match st with
      | in_constant =>
          if is_quote c then string_constant_from after_quote t
          else option_map (fun vr => (String c (fst vr), snd vr))
                          (string_constant_from in_constant t)
      | after_quote =>
          if is_quote c
          then option_map (fun vr => (String quote (fst vr), snd vr))
                          (string_constant_from in_constant t)
          else if is_blank c then string_constant_from (after_blanks (is_newline c)) t
          else Some (EmptyString, s)
      | after_blanks nl =>
          if is_quote c
          then if nl then string_constant_from in_constant t else Some (EmptyString, s)
          else if is_blank c then string_constant_from (after_blanks (nl || is_newline c)) t
          else Some (EmptyString, s)
      end
  end.

(** After the opening quote. *)
Definition string_constant_body (s : string) : option (string * string) :=
  string_constant_from in_constant s.

Fixpoint skip_blanks (s : string) : string :=
  match s with
  | String c t => if is_blank c then skip_blanks t else s
  | EmptyString => EmptyString
  end.

Definition is_close (c : ascii) : bool := Ascii.eqb c "]"%char.

Definition is_comma (c : ascii) : bool := Ascii.eqb c ","%char.

(** One string constant, after optional blanks. *)
Definition string_constant (s : string) : option (string * string) :=
  match skip_blanks s with
  | String c r => if is_quote c then string_constant_body r else None
  | EmptyString => None
  end.

(** After an element: [, element]* up to the closing bracket. *)
Fixpoint more_elements (fuel : nat) (s : string) : option (list string * string) :=
  match fuel with
  | O => None
  | S fuel' =>
      match skip_blanks s with
      | String c r =>
          if is_close c then Some ([], r)
          else if is_comma c then
            match string_constant r with
            | Some (v, r2) =>
                option_map (fun lr => (v :: fst lr, snd lr)) (more_elements fuel' r2)
            | None => None
            end
          else None
      | EmptyString => None
      end
  end.

(** After [ARRAY[]: the elements up to the closing bracket. *)
Definition elements (s : string) : option (list string * string) :=
  match skip_blanks s with
  | String c r =>
      if is_close c then Some ([], r)
      else
        match string_constant s with
        | Some (v, r2) =>
            option_map (fun lr => (v :: fst lr, snd lr))
                       (more_elements (S (String.length r2)) r2)
        | None => None
        end
  | EmptyString => None
  end.

Fixpoint strip_prefix (pre s : string) : option string :=
  match pre, s with
  | EmptyString, _ => Some s
  | String a pre', String b s' => if Ascii.eqb a b then strip_prefix pre' s' else None
  | String _ _, EmptyString => None
  end.

(** The list of texts an [ARRAY[...]::text[]] expression denotes, when it
    is one. *)
Definition read_text_array (sql : string) : option (list string) :=
  match strip_prefix "ARRAY[" sql with
  | Some s =>
      match elements s with
      | Some (l, r) => if String.eqb r "::text[]" then Some l else None
      | None => None
      end
  | None => None
  end.

(** The rest of the template, from the empty line after the [params] CTE
    to the newline after [LIMIT 200;], line by line.  It holds no
    placeholder; its meaning is [talent_match]. *)
Definition engine_lines : list string :=
  [
    EmptyString;
    "manual_set AS (";
    "    SELECT unnest(manual_hp) AS employee_id FROM params";
    "),";
    EmptyString;
    "role_set AS (";
    "    SELECT DISTINCT e.employee_id";
    "    FROM employees e";
    "    JOIN performance_yearly py USING(employee_id)";
    "    JOIN params p ON TRUE";
    "    WHERE py.rating >= p.min_hp_rating";
    "      AND p.role_position_id IS NOT NULL";
    "      AND e.position_id = p.role_position_id";
    "),";
    EmptyString;
    "benchmark_set AS (";
    "    SELECT employee_id FROM manual_set";
    "    UNION";
    "    SELECT employee_id FROM role_set";
    "),";
    EmptyString;
    "fallback_benchmark AS (";
    "    SELECT py.employee_id";
    "    FROM performance_yearly py";
    "    JOIN params p ON TRUE";
    "    WHERE py.rating >= p.min_hp_rating";
    "),";
    EmptyString;
    "final_bench AS (";
    "    SELECT DISTINCT employee_id FROM benchmark_set";
    "    UNION";
    "    SELECT DISTINCT employee_id FROM fallback_benchmark";
    "    WHERE NOT EXISTS (SELECT 1 FROM benchmark_set)";
    "),";
    EmptyString;
    "latest AS (";
    "    SELECT (SELECT MAX(year) FROM competencies_yearly) AS comp_year";
    "),";
    EmptyString;
    "baseline_numeric AS (";
    "    SELECT ";
    "        tv_name,";
    "        PERCENTILE_CONT(0.5) WITHIN GROUP (ORDER BY score) AS baseline_score";
    "    FROM (";
    "        SELECT c.pillar_code AS tv_name, c.score::numeric AS score";
    "        FROM competencies_yearly c";
    "        JOIN latest l ON c.year = l.comp_year";
    "        WHERE c.employee_id IN (SELECT employee_id FROM final_bench)";
    EmptyString;
    "        UNION ALL SELECT 'iq', p.iq::numeric FROM profiles_psych p WHERE p.employee_id IN (SELECT employee_id FROM final_bench)";
    "        UNION ALL SELECT 'gtq', p.gtq::numeric FROM profiles_psych p WHERE p.employee_id IN (SELECT employee_id FROM final_bench)";
    "        UNION ALL SELECT 'tiki', p.tiki::numeric FROM profiles_psych p WHERE p.employee_id IN (SELECT employee_id FROM final_bench)";
    "        UNION ALL SELECT 'faxtor', p.faxtor::numeric FROM profiles_psych p WHERE p.employee_id IN (SELECT employee_id FROM final_bench)";
    "        UNION ALL SELECT 'pauli', p.pauli::numeric FROM profiles_psych p WHERE p.employee_id IN (SELECT employee_id FROM final_bench)";
    "    ) x";
    "    GROUP BY tv_name";
    "),";
    EmptyString;
    "all_numeric_scores AS (";
    "    SELECT c.employee_id, c.pillar_code AS tv_name, c.score::numeric AS user_score";
    "    FROM competencies_yearly c";
    "    JOIN latest l ON c.year = l.comp_year";
    EmptyString;
    "    UNION ALL SELECT employee_id, 'iq', iq::numeric FROM profiles_psych";
    "    UNION ALL SELECT employee_id, 'gtq', gtq::numeric FROM profiles_psych";
    "    UNION ALL SELECT employee_id, 'tiki', tiki::numeric FROM profiles_psych";
    "    UNION ALL SELECT employee_id, 'faxtor', faxtor::numeric FROM profiles_psych";
    "    UNION ALL SELECT employee_id, 'pauli', pauli::numeric FROM profiles_psych";
    "),";
    EmptyString;
    "numeric_tv AS (";
    "    SELECT";
    "        sc.employee_id,";
    "        bn.tv_name,";
    "        bn.baseline_score,";
    "        sc.user_score,";
    "        (sc.user_score / NULLIF(bn.baseline_score,0)) * 100 AS tv_match_rate";
    "    FROM all_numeric_scores sc";
    "    JOIN baseline_numeric bn ON sc.tv_name = bn.tv_name";
    "),";
    EmptyString;
    "reverse_list AS (";
    "    SELECT UNNEST(ARRAY['Papi_I','Papi_K','Papi_Z','Papi_T']) AS scale_code";
    "),";
    EmptyString;
    "baseline_papi AS (";
    "    SELECT";
    "        ps.scale_code AS tv_name,";
    "        PERCENTILE_CONT(0.5) WITHIN GROUP (ORDER BY ps.score) AS baseline_score,";
    "        CASE WHEN rl.scale_code IS NULL THEN FALSE ELSE TRUE END AS is_reverse";
    "    FROM papi_scores ps";
    "    JOIN final_bench fb ON ps.employee_id = fb.employee_id";
    "    LEFT JOIN reverse_list rl ON rl.scale_code = ps.scale_code";
    "    GROUP BY ps.scale_code, rl.scale_code";
    "),";
    EmptyString;
    "papi_tv AS (";
    "    SELECT";
    "        ps.employee_id,";
    "        bp.tv_name,";
    "        bp.baseline_score,";
    "        ps.score::numeric AS user_score,";
    "        CASE ";
    "            WHEN bp.is_reverse THEN ((2 * bp.baseline_score - ps.score::numeric) / NULLIF(bp.baseline_score,0)) * 100";
    "            ELSE (ps.score::numeric / NULLIF(bp.baseline_score,0)) * 100";
    "        END AS tv_match_rate";
    "    FROM papi_scores ps";
    "    JOIN baseline_papi bp ON ps.scale_code = bp.tv_name";
    "),";
    EmptyString;
    "baseline_cat AS (";
    "    SELECT";
    "        'mbti' AS tv_name,";
    "        MODE() WITHIN GROUP (ORDER BY UPPER(TRIM(mbti))) AS baseline_value";
    "    FROM profiles_psych p";
    "    JOIN final_bench fb ON fb.employee_id = p.employee_id";
    EmptyString;
    "    UNION ALL";
    "    SELECT";
    "        'disc',";
    "        MODE() WITHIN GROUP (ORDER BY UPPER(TRIM(disc)))";
    "    FROM profiles_psych p";
    "    JOIN final_bench fb ON fb.employee_id = p.employee_id";
    "),";
    EmptyString;
    "categorical_tv AS (";
    "    SELECT";
    "        p.employee_id,";
    "        bc.tv_name,";
    "        1::numeric AS baseline_score,";
    "        1::numeric AS user_score,";
    "        CASE ";
    "            WHEN (bc.tv_name='mbti' AND UPPER(TRIM(p.mbti)) = bc.baseline_value)";
    "              OR (bc.tv_name='disc' AND UPPER(TRIM(p.disc)) = bc.baseline_value)";
    "            THEN 100 ELSE 0 END AS tv_match_rate";
    "    FROM profiles_psych p";
    "    CROSS JOIN baseline_cat bc";
    "),";
    EmptyString;
    "all_tv AS (";
    "    SELECT * FROM numeric_tv";
    "    UNION ALL";
    "    SELECT * FROM papi_tv";
    "    UNION ALL";
    "    SELECT * FROM categorical_tv";
    "),";
    EmptyString;
    "tv_map AS (";
    "    SELECT tv_name, tgv_name, tv_weight";
    "    FROM talent_variables_mapping";
    "),";
    EmptyString;
    "tgv_match AS (";
    "    SELECT";
    "        a.employee_id,";
    "        m.tgv_name,";
    "        SUM(a.tv_match_rate * m.tv_weight) / SUM(m.tv_weight) AS tgv_match_rate";
    "    FROM all_tv a";
    "    JOIN tv_map m USING(tv_name)";
    "    GROUP BY a.employee_id, m.tgv_name";
    "),";
    EmptyString;
    "final_match AS (";
    "    SELECT";
    "        t.employee_id,";
    "        SUM(t.tgv_match_rate * g.tgv_weight) AS final_match_rate";
    "    FROM tgv_match t";
    "    JOIN talent_group_weights g USING(tgv_name)";
    "    GROUP BY t.employee_id";
    ")";
    EmptyString;
    "SELECT ";
    "    e.employee_id,";
    "    e.fullname,";
    "    fm.final_match_rate";
    "FROM final_match fm";
    "JOIN employees e USING(employee_id)";
    "ORDER BY final_match_rate DESC";
    "LIMIT 200;";
    EmptyString
  ].

Definition engine_ctes : string := String.concat newline engine_lines.

(** *** Reading the [params] row back from the statement

    PostgreSQL reads the three columns of [params] from the text: the
    array constructor, and two constants cast to [int]. *)

Definition expect (pre s : string) : Sql.result string :=
  match strip_prefix pre s with
  | Some r => Sql.Ok r
  | None => Sql.Unreadable
  end.

(** The text before the first colon, and the text from that colon on. *)
Fixpoint until_colon (s : string) : string * string :=
  match s with
  | EmptyString => (EmptyString, EmptyString)
  | String c t =>
      if Ascii.eqb c ":"%char then (EmptyString, s)
      else (String c (fst (until_colon t)), snd (until_colon t))
  end.

Definition int4_max : Z := 2147483647.

(** [<constant>::int].  The cast binds tighter than a minus sign: it is
    the constant without its sign that has to fit. *)
Definition cast_int (text : string) : Sql.result Z :=
  match DecimalString.NilZero.int_of_string text with
  | Some d =>
      if (Z.abs (Z.of_int d) <=? int4_max)%Z then Sql.Ok (Z.of_int d)
      else Sql.IntegerOutOfRange
  | None => Sql.Unreadable
  end.

Definition cast_nullable_int (text : string) : Sql.result (option Z) :=
  if String.eqb text "NULL" then Sql.Ok None
  else z <- cast_int text ;; Sql.ret (Some z).

(** The [params] row of a statement [build_match_sql engine] wrote, as
    PostgreSQL reads it. *)
Definition read_params (engine sql : string) : Sql.result params :=
  s <- expect (newline ++ "WITH params AS (" ++ newline
               ++ "    SELECT" ++ newline
               ++ "        " ++ "ARRAY[") sql ;;
  match elements s with
  | None => Sql.Unreadable
  | Some (ids, s1) =>
      s2 <- expect ("::text[] AS manual_hp," ++ newline ++ "        ") s1 ;;
      s3 <- expect ("::int AS role_position_id," ++ newline ++ "        ")
                   (snd (until_colon s2)) ;;
      s4 <- expect ("::int AS min_hp_rating" ++ newline ++ ")," ++ newline)
                   (snd (until_colon s3)) ;;
      if String.eqb s4 engine then
        role <- cast_nullable_int (fst (until_colon s2)) ;;
        rating <- cast_int (fst (until_colon s3)) ;;
        Sql.ret {| manual_hp := ids; role_position_id := role; min_hp_rating := rating |}
      else Sql.Unreadable
  end.

Fixpoint count_quotes (s : string) : nat :=
  match s with
  | String c t => (if is_quote c then 1 else 0) + count_quotes t
  | EmptyString => 0
  end.

Definition quote_free (s : string) : Prop := count_quotes s = 0.

End Text.

(* ------------------------------------------------------------------ *)
(** ** The application around the engine

    The helper queries of section 2 of [src/app.py] and the sidebar code
    of section 4 that turns the widgets' values into the three arguments
    of [run_match_query]. *)

Module App.

(** A row of [dim_positions]. *)
Record position := {
  pos_position_id : Z;
  pos_name : string }.

(** A row of the frame [load_high_performers] returns. *)
Record hp_row := {
  hp_employee_id : string;
  hp_fullname : string }.

Definition hp_eqb (a b : hp_row) : bool :=
  String.eqb (hp_employee_id a) (hp_employee_id b)
  && String.eqb (hp_fullname a) (hp_fullname b).

(** [load_positions]: [SELECT position_id, name FROM dim_positions
    ORDER BY position_id]. *)
Definition load_positions (dim_positions : list position) : list position :=
  Agg.sort (fun a b => Z.leb (pos_position_id a) (pos_position_id b)) dim_positions.

(** [load_high_performers]: [SELECT DISTINCT e.employee_id, e.fullname
    FROM employees e JOIN performance_yearly py USING(employee_id)
    WHERE py.rating >= :min_rating ORDER BY e.fullname]. *)
Definition load_high_performers (db : database) (min_rating : Z) : list hp_row :=
  Agg.sort (fun a b => String.leb (hp_fullname a) (hp_fullname b))
    (Sql.distinct_by hp_eqb
       (flat_map (fun e =>
          flat_map (fun py =>
            if String.eqb (e_employee_id e) (py_employee_id py)
               && Sql.is_true (Sql.ge_int (py_rating py) (Some min_rating))
            then [ {| hp_employee_id := e_employee_id e;
                      hp_fullname := e_fullname e |} ]
            else [])
            (performance_yearly db))
          (employees db))).

(** A Python dict with text keys: the keys in the order they were first
    set; setting a key again replaces its value in place. *)
Fixpoint dict_set (k : string) (v : Z) (d : list (string * Z)) : list (string * Z) :=
  match d with
  | [] => [(k, v)]
  | (k', v') :: t => if String.eqb k k' then (k, v) :: t else (k', v') :: dict_set k v t
  end.

Fixpoint dict_get (k : string) (d : list (string * Z)) : option Z :=
  match d with
  | [] => None
  | (k', v') :: t => if String.eqb k k' then Some v' else dict_get k t
  end.

(** [position_options = {row["name"]: row["position_id"] for _, row in
    positions_df.iterrows()}]. *)
Definition position_options (positions_df : list position) : list (string * Z) :=
  fold_left (fun d row => dict_set (pos_name row) (pos_position_id row) d) positions_df [].

Definition none_label : string := "(None)".

(** The options of the position selectbox:
    [["(None)"] + list(position_options.keys())]. *)
Definition position_labels (positions_df : list position) : list string :=
  none_label :: map fst (position_options positions_df).

(** [selected_position_id]: [None] for the label ["(None)"], otherwise
    [position_options[position_label]].  The outer [None] stands for the
    [KeyError] of a label that is not a key. *)
Definition selected_position_id (positions_df : list position) (position_label : string)
  : option (option Z) :=
  if String.eqb position_label none_label then Some None
  else option_map Some (dict_get position_label (position_options positions_df)).

(** The separator of a label, [" – "]: a space, an en dash (three bytes in
    UTF-8) and a space.  Python compares code points; on well-formed UTF-8
    the bytes give the same matches. *)
Definition label_sep : string :=
  String " "
    (String (ascii_of_nat 226) (String (ascii_of_nat 128) (String (ascii_of_nat 147)
      (String " " EmptyString)))).

(** [hp_df["label"] = hp_df["employee_id"] + " – " + hp_df["fullname"]]. *)
Definition label (r : hp_row) : string :=
  (hp_employee_id r ++ label_sep ++ hp_fullname r)%string.

(** The options of the multiselect: [hp_df["label"].tolist()]. *)
Definition manual_options (db : database) (min_rating : Z) : list string :=
  map label (load_high_performers db min_rating).

(** [s.split(sep)[0]] for a non-empty [sep]: the text before the first
    place where [sep] starts, all of [s] when there is none. *)
Fixpoint split_first (sep s : string) : string :=
  match s with
  | EmptyString => EmptyString
  | String c t => if String.prefix sep s then EmptyString else String c (split_first sep t)
  end.

(** [manual_ids = [label.split(" – ")[0] for label in manual_selected]]. *)
Definition manual_ids (manual_selected : list string) : list string :=
  map (split_first label_sep) manual_selected.

(** [sql = build_match_sql(manual_hp_ids, role_position_id,
    min_hp_rating)]: the whole text. *)
Definition match_sql
    (manual_hp_ids : list string) (role_position_id : option Z) (min_hp_rating : Z)
  : string :=
  Text.build_match_sql Text.engine_ctes manual_hp_ids role_position_id min_hp_rating.

(** [run_match_query]: the text is sent to PostgreSQL as it is written.
    PostgreSQL reads the [params] row from it and evaluates the engine
    on the database. *)
Definition run_match_query (db : database)
    (manual_hp_ids : list string) (role_position_id : option Z) (min_hp_rating : Z)
  : Sql.result (list ranked_row) :=
  p <- Text.read_params Text.engine_ctes
         (match_sql manual_hp_ids role_position_id min_hp_rating) ;;
  talent_match db p.

(** The cohort that statement resolves, [final_bench]. *)
Definition run_cohort (db : database)
    (manual_hp_ids : list string) (role_position_id : option Z) (min_hp_rating : Z)
  : Sql.result (list string) :=
  p <- Text.read_params Text.engine_ctes
         (match_sql manual_hp_ids role_position_id min_hp_rating) ;;
  Sql.ret (final_bench db p).

(** [top_row = df_view.iloc[0]], read only when the frame is not empty.
    The frame's score column is rounded for display; which row stands
    first does not depend on that. *)
Definition top_row (df_view : list ranked_row) : option ranked_row :=
  match df_view with
  | [] => None
  | r :: _ => Some r
  end.

End App.

(* ================================================================== *)
(** * Vocabulary of the properties and worked rows *)

(** Some row of [performance_yearly], of any year, gives [id] a rating of
    at least [m]: the rating as the queries read it. *)
Definition rated_at_least (db : database) (m : Z) (id : string) : Prop :=
  exists py, In py (performance_yearly db) /\ py_employee_id py = id
             /\ exists r, py_rating py = Some r /\ (m <= r)%Z.

(** [id] is an employee in the requested position with such a rating. *)
Definition role_qualifies (db : database) (p : params) (id : string) : Prop :=
  exists e role, In e (employees db) /\ e_employee_id e = id
                 /\ role_position_id p = Some role
                 /\ e_position_id e = Some role
                 /\ rated_at_least db (min_hp_rating p) id.

(** The explicit union: the manual ids and the role-qualifying employees. *)
Definition explicit_union (db : database) (p : params) (id : string) : Prop :=
  In id (manual_hp p) \/ role_qualifies db p id.

(** The specification speaks of the rating of an employee, where the
    table holds one rating per year: [r] is the latest rating of [id],
    the rating of a row of [id] that no row of [id] follows in time. *)
Definition latest_rating (db : database) (id : string) (r : Z) : Prop :=
  exists py, In py (performance_yearly db) /\ py_employee_id py = id
             /\ py_rating py = Some r
             /\ forall py', In py' (performance_yearly db) -> py_employee_id py' = id ->
                            (py_year py' <= py_year py)%Z.

(** The fallback cohort as the specification words it: [id] is an
    employee whose rating is at least [m]. *)
Definition rated_employee (db : database) (m : Z) (id : string) : Prop :=
  (exists e, In e (employees db) /\ e_employee_id e = id)
  /\ exists r, latest_rating db id r /\ (m <= r)%Z.

Definition int (z : Z) : Sql.num := Some (Sql.qz z).

(** The median of a sample, in the specification's words.  [lo] and [hi]
    are the two middle values of the sample in ascending order, one and
    the same value when their number is odd. *)
Definition median_interval (xs : list Qc) (lo hi : Qc) : Prop :=
  exists s, Permutation s xs /\ StronglySorted Qcle s
            /\ nth_error s ((List.length s - 1) / 2) = Some lo
            /\ nth_error s (List.length s / 2) = Some hi.

(** [o] is a median of the sample [xs]: nothing for the empty sample,
    otherwise a value from the lower middle value to the upper one, hence
    the middle value itself when the sample is odd. *)
Definition is_median (xs : list Qc) (o : Sql.num) : Prop :=
  match o with
  | None => xs = []
  | Some m => exists lo hi, median_interval xs lo hi /\ (lo <= m)%Qc /\ (m <= hi)%Qc
  end.

(** The baseline the query holds for variable [v], NULL or no row alike. *)
Definition numeric_baseline_of (db : database) (p : params) (v : string) : Sql.num :=
  match find (fun bn => String.eqb (bn_tv_name bn) v) (baseline_numeric db p) with
  | Some bn => bn_baseline_score bn
  | None => None
  end.

Definition papi_baseline_of (db : database) (p : params) (v : string) : Sql.num :=
  match find (fun bp => String.eqb (bp_tv_name bp) v) (baseline_papi db p) with
  | Some bp => bp_baseline_score bp
  | None => None
  end.

(** Readings, in the specification's words. *)
Definition member (id : string) (cohort : list string) : bool :=
  if in_dec string_dec id cohort then true else false.

(** The values present in a column. *)
Fixpoint present (l : list Sql.num) : list Qc :=
  match l with
  | [] => []
  | Some x :: t => x :: present t
  | None :: t => present t
  end.

(** [c] is of the latest period of the snapshot: no row of
    [competencies_yearly] is of a later year. *)
Definition of_latest_period (db : database) (c : competency) : bool :=
  forallb (fun c' => (c_year c' <=? c_year c)%Z) (competencies_yearly db).

(** The psychometric scale named [v], when [v] names one. *)
Definition psych_scale (v : string) : option (profile -> Sql.num) :=
  if String.eqb v "iq" then Some p_iq
  else if String.eqb v "gtq" then Some p_gtq
  else if String.eqb v "tiki" then Some p_tiki
  else if String.eqb v "faxtor" then Some p_faxtor
  else if String.eqb v "pauli" then Some p_pauli
  else None.

(** The readings of the employees of [cohort] for the numeric variable
    [v]: their scores of the latest period for the pillar [v], and their
    values of the psychometric scale [v]. *)
Definition cohort_numeric_readings (db : database) (cohort : list string) (v : string)
  : list Qc :=
  present (map c_score
             (filter (fun c => String.eqb (c_pillar_code c) v
                               && of_latest_period db c
                               && member (c_employee_id c) cohort)
                     (competencies_yearly db)))
  ++ match psych_scale v with
     | Some scale =>
         present (map scale
                    (filter (fun q => member (p_employee_id q) cohort) (profiles_psych db)))
     | None => []
     end.

(** Their scores on the behavioural scale [v]. *)
Definition cohort_papi_readings (db : database) (cohort : list string) (v : string)
  : list Qc :=
  present (map ps_score
             (filter (fun ps => String.eqb (ps_scale_code ps) v
                                && member (ps_employee_id ps) cohort)
                     (papi_scores db))).

(** The database with other rows in [competencies_yearly]. *)
Definition with_competencies (db : database) (rows : list competency) : database :=
  {| employees := employees db;
     performance_yearly := performance_yearly db;
     competencies_yearly := rows;
     profiles_psych := profiles_psych db;
     papi_scores := papi_scores db;
     talent_variables_mapping := talent_variables_mapping db;
     talent_group_weights := talent_group_weights db |}.

(** The products [rate * weight] an employee's group adds up: one for
    each joined row whose match rate and weight are both defined. *)
Definition rollup_terms (g : list (tv_row * tv_mapping)) : list (Qc * Qc) :=
  flat_map (fun am =>
    match tv_match_rate (fst am), m_tv_weight (snd am) with
    | Some r, Some w => [(r, w)]
    | _, _ => []
    end) g.

(** The weights the group adds up: one for each joined row with a weight,
    whatever its match rate. *)
Definition rollup_weights (g : list (tv_row * tv_mapping)) : list Qc :=
  flat_map (fun am => match m_tv_weight (snd am) with Some w => [w] | None => [] end) g.

Definition weighted_sum (l : list (Qc * Qc)) : Qc :=
  fold_right (fun rw acc => (fst rw * snd rw + acc)%Qc) 0%Qc l.

Definition rate_defined (am : tv_row * tv_mapping) : bool :=
  match tv_match_rate (fst am) with Some _ => true | None => false end.

(** The rollup as the specification words it: numerator and denominator
    both restricted to the rows with a defined match rate. *)
Definition weighted_mean_of_defined (g : list (tv_row * tv_mapping)) : Sql.num :=
  match rollup_terms g with
  | [] => None
  | terms => Some (weighted_sum terms / Sql.total (map snd terms))%Qc
  end.

(** The products of the second stage. *)
Definition final_terms (j : list (tgv_row * group_weight)) : list (Qc * Qc) :=
  flat_map (fun tg =>
    match tgv_match_rate (fst tg), g_tgv_weight (snd tg) with
    | Some r, Some w => [(r, w)]
    | _, _ => []
    end) j.

(** Weights 1 and 3, rates 100 and 50. *)
Definition ex_rows : list tv_row :=
  [ {| tv_employee_id := "E1"; tv_name := "v1"; tv_baseline_score := int 1;
       tv_user_score := int 1; tv_match_rate := int 100 |};
    {| tv_employee_id := "E1"; tv_name := "v2"; tv_baseline_score := int 2;
       tv_user_score := int 1; tv_match_rate := int 50 |} ].

Definition ex_map : list tv_mapping :=
  [ {| m_tv_name := "v1"; m_tgv_name := "G"; m_tv_weight := int 1 |};
    {| m_tv_name := "v2"; m_tgv_name := "G"; m_tv_weight := int 3 |} ].

Definition ratio (n : Z) (d : positive) : Sql.num := Some (Q2Qc (n # d)).

Definition ex_tgv : list tgv_row :=
  [ {| tgv_employee_id := "E1"; tgv_name := "G"; tgv_match_rate := ratio 125 2 |} ].

(** The same group when the rate of [v1] is undefined. *)
Definition ex_rows_undefined : list tv_row :=
  [ {| tv_employee_id := "E1"; tv_name := "v1"; tv_baseline_score := int 0;
       tv_user_score := int 1; tv_match_rate := None |};
    {| tv_employee_id := "E1"; tv_name := "v2"; tv_baseline_score := int 2;
       tv_user_score := int 1; tv_match_rate := int 50 |} ].

Definition ex_tgv_undefined : list tgv_row :=
  [ {| tgv_employee_id := "E1"; tgv_name := "G"; tgv_match_rate := ratio 75 2 |} ].

Definition psych (id : string) (iq gtq : Sql.num) (mbti disc : option string) : profile :=
  {| p_employee_id := id; p_iq := iq; p_gtq := gtq; p_tiki := None;
     p_faxtor := None; p_pauli := None; p_mbti := mbti; p_disc := disc |}.

Definition rating (id : string) (year r : Z) : performance :=
  {| py_employee_id := id; py_year := year; py_rating := Some r |}.

Definition staff (id name : string) : employee :=
  {| e_employee_id := id; e_fullname := name; e_position_id := Some 1%Z |}.

(** Ann was rated 5 in 2023 and is rated 3 in 2024; the id [Z] is rated
    5 and has no row in [employees]. *)
Definition other_ratings_db : database :=
  {| employees := [staff "A" "Ann"];
     performance_yearly := [rating "A" 2023 5; rating "A" 2024 3; rating "Z" 2024 5];
     competencies_yearly := [];
     profiles_psych := [];
     papi_scores := [];
     talent_variables_mapping := [];
     talent_group_weights := [] |}.

(** Ann, the only employee rated 5, scored 80 on the pillar [P1] in
    2023, the only year of the table. *)
Definition earlier_year_db : database :=
  {| employees := [staff "A" "Ann"; staff "B" "Bob"];
     performance_yearly := [rating "A" 2024 5; rating "B" 2024 3];
     competencies_yearly :=
       [ {| c_employee_id := "A"; c_pillar_code := "P1"; c_year := 2023;
            c_score := int 80 |} ];
     profiles_psych := [];
     papi_scores := [];
     talent_variables_mapping :=
       [ {| m_tv_name := "P1"; m_tgv_name := "G"; m_tv_weight := int 1 |} ];
     talent_group_weights := [ {| g_tgv_name := "G"; g_tgv_weight := int 1 |} ] |}.

(** A score of Bob, who is not in the cohort, for 2024. *)
Definition later_row : competency :=
  {| c_employee_id := "B"; c_pillar_code := "P1"; c_year := 2024; c_score := int 50 |}.

(** Six profiles: the cohort (rated 5) holds [A], [B], [C] and [D], with
    [iq] 10, 20, 30 and 40, and [gtq] 10, 20 and 30. *)
Definition median_db : database :=
  {| employees := [staff "A" "Ann"; staff "B" "Bob"; staff "C" "Cid"; staff "D" "Dan";
                   staff "E" "Eve"];
     performance_yearly := [rating "A" 2024 5; rating "B" 2024 5; rating "C" 2024 5;
                            rating "D" 2024 5; rating "E" 2024 3];
     competencies_yearly := [];
     profiles_psych := [psych "D" (int 40) None None None;
                        psych "A" (int 10) (int 10) None None;
                        psych "E" (int 1000) (int 1000) None None;
                        psych "C" (int 30) (int 30) None None;
                        psych "B" (int 20) (int 20) None None];
     papi_scores := [];
     talent_variables_mapping := [];
     talent_group_weights := [] |}.

(** A cohort of one ([A], the only employee rated 5) whose [iq] is 0: the
    [iq] baseline is 0.  [iq] has weight 1 and [gtq] weight 3 in group [G]. *)
Definition zero_baseline_db : database :=
  {| employees := [staff "A" "Ann"; staff "B" "Bob"];
     performance_yearly := [rating "A" 2024 5; rating "B" 2024 3];
     competencies_yearly := [];
     profiles_psych := [psych "A" (int 0) (int 100) None None;
                        psych "B" (int 50) (int 50) None None];
     papi_scores := [];
     talent_variables_mapping :=
       [ {| m_tv_name := "iq"; m_tgv_name := "G"; m_tv_weight := int 1 |};
         {| m_tv_name := "gtq"; m_tgv_name := "G"; m_tv_weight := int 3 |} ];
     talent_group_weights := [ {| g_tgv_name := "G"; g_tgv_weight := int 1 |} ] |}.

Definition fallback_params : params :=
  {| manual_hp := []; role_position_id := None; min_hp_rating := 5 |}.

Definition ranked (id name : string) (score : Sql.num) : ranked_row :=
  {| out_employee_id := id; out_fullname := name; out_final_match_rate := score |}.

(** One employee, rated 5, with [iq] 100; [iq] is the only variable of
    group [G] and its weight is 0. *)
Definition zero_weight_db : database :=
  {| employees := [staff "A" "Ann"];
     performance_yearly := [rating "A" 2024 5];
     competencies_yearly := [];
     profiles_psych := [psych "A" (int 100) None None None];
     papi_scores := [];
     talent_variables_mapping :=
       [ {| m_tv_name := "iq"; m_tgv_name := "G"; m_tv_weight := int 0 |} ];
     talent_group_weights := [ {| g_tgv_name := "G"; g_tgv_weight := int 1 |} ] |}.

(** Ann forms the cohort; Bob's [iq] and [mbti] are missing. *)
Definition missing_values_db : database :=
  {| employees := [staff "A" "Ann"; staff "B" "Bob"];
     performance_yearly := [rating "A" 2024 5];
     competencies_yearly := [];
     profiles_psych := [psych "A" (int 100) (int 100) (Some "intj") None;
                        psych "B" None (int 50) None None];
     papi_scores := [];
     talent_variables_mapping :=
       [ {| m_tv_name := "iq"; m_tgv_name := "G"; m_tv_weight := int 1 |};
         {| m_tv_name := "gtq"; m_tgv_name := "G"; m_tv_weight := int 1 |};
         {| m_tv_name := "mbti"; m_tgv_name := "G"; m_tv_weight := int 2 |} ];
     talent_group_weights := [ {| g_tgv_name := "G"; g_tgv_weight := int 1 |} ] |}.

Definition key_before (a b : Sql.num) : Prop := desc_leb a b = true.

(** [r1] may stand before [r2] under ORDER BY final_match_rate DESC. *)
Definition ranked_before (r1 r2 : ranked_row) : Prop := rank_leb r1 r2 = true.

(** The order the specification asks for: score descending, and the
    employee identifier ascending among equal scores. *)
Definition ranked_before_by_id (r1 r2 : ranked_row) : Prop :=
  ranked_before r1 r2
  /\ (out_final_match_rate r1 = out_final_match_rate r2 ->
      String.leb (out_employee_id r1) (out_employee_id r2) = true).

(** What [ORDER BY final_match_rate DESC LIMIT n] allows for the joined
    rows: the first [n] rows of any arrangement of them that is sorted by
    score. *)
Definition order_by_limit_allows (n : nat) (joined out : list ranked_row) : Prop :=
  exists s, Permutation s joined /\ StronglySorted ranked_before s /\ out = firstn n s.

Definition scores (out : list ranked_row) : list Sql.num := map out_final_match_rate out.

(** Six employees stored in descending order of their id, all rated 5
    and all with the same [iq]: every final score is 100. *)
Definition reverse_stored_db : database :=
  {| employees := [staff "F" "Fay"; staff "E" "Eve"; staff "D" "Dan";
                   staff "C" "Cid"; staff "B" "Bob"; staff "A" "Ann"];
     performance_yearly := [rating "F" 2024 5; rating "E" 2024 5; rating "D" 2024 5;
                            rating "C" 2024 5; rating "B" 2024 5; rating "A" 2024 5];
     competencies_yearly := [];
     profiles_psych := [psych "F" (int 100) None None None;
                        psych "E" (int 100) None None None;
                        psych "D" (int 100) None None None;
                        psych "C" (int 100) None None None;
                        psych "B" (int 100) None None None;
                        psych "A" (int 100) None None None];
     papi_scores := [];
     talent_variables_mapping :=
       [ {| m_tv_name := "iq"; m_tgv_name := "G"; m_tv_weight := int 1 |} ];
     talent_group_weights := [ {| g_tgv_name := "G"; g_tgv_weight := int 1 |} ] |}.

(** Bob's profile row is stored before Ann's; both match the baseline. *)
Definition tie_db : database :=
  {| employees := [staff "A" "Ann"; staff "B" "Bob"];
     performance_yearly := [rating "A" 2024 5; rating "B" 2024 5];
     competencies_yearly := [];
     profiles_psych := [psych "B" (int 100) None None None;
                        psych "A" (int 100) None None None];
     papi_scores := [];
     talent_variables_mapping :=
       [ {| m_tv_name := "iq"; m_tgv_name := "G"; m_tv_weight := int 1 |} ];
     talent_group_weights := [ {| g_tgv_name := "G"; g_tgv_weight := int 1 |} ] |}.

(** The employee [id] has a reading row whose variable the mapping sends
    to a group that has a group weight. *)
Definition has_rollup_row (db : database) (rows : list tv_row) (id : string) : Prop :=
  exists x m g,
    In x rows /\ In m (talent_variables_mapping db) /\ In g (talent_group_weights db)
    /\ tv_employee_id x = id
    /\ tv_name x = m_tv_name m
    /\ m_tgv_name m = g_tgv_name g.

(** Ann forms the cohort; Bob's only mapped variable is [iq], and his
    [iq] is missing. *)
Definition null_score_db : database :=
  {| employees := [staff "A" "Ann"; staff "B" "Bob"];
     performance_yearly := [rating "A" 2024 5];
     competencies_yearly := [];
     profiles_psych := [psych "A" (int 100) None None None;
                        psych "B" None None None None];
     papi_scores := [];
     talent_variables_mapping :=
       [ {| m_tv_name := "iq"; m_tgv_name := "G"; m_tv_weight := int 1 |} ];
     talent_group_weights := [ {| g_tgv_name := "G"; g_tgv_weight := int 1 |} ] |}.

(** How [manual_array_sql] lays a list out, and what a list costs in
    characters when it is written so that it reads back. *)
Module TextLayout.
Import Text.

(** The elements after the first, as [",".join] lays them out. *)
Fixpoint tail_sql (ids : list string) : string :=
  match ids with
  | [] => EmptyString
  | id :: t => String "," (quoted id ++ tail_sql t)
  end.

(** The text [r] after a closing quote ends the constant there: it is
    empty, or starts with a character that is neither a quote nor a
    blank. *)
Definition ends_constant (r : string) : Prop :=
  match r with
  | String c _ => is_quote c = false /\ is_blank c = false
  | EmptyString => True
  end.

(** The characters a list of constants takes when it is written so that it
    reads back: two quotes around each, every quote inside doubled, one
    comma before each but the first. *)
Definition cost (v : string) : nat := String.length v + count_quotes v + 2.

Fixpoint tail_cost (l : list string) : nat :=
  match l with
  | [] => 0
  | v :: t => 1 + cost v + tail_cost t
  end.

Fixpoint total_quotes (l : list string) : nat :=
  match l with
  | [] => 0
  | v :: t => count_quotes v + total_quotes t
  end.

(** The elements between the brackets, as [",".join] lays them out. *)
Definition array_body (ids : list string) : string :=
  match ids with
  | [] => EmptyString
  | id :: t => quoted id ++ tail_sql t
  end.

Fixpoint has_colon (s : string) : bool :=
  match s with
  | EmptyString => false
  | String c t => Ascii.eqb c ":"%char || has_colon t
  end.

(** The constant [z] fits the [int] it is cast to. *)
Definition fits_int (z : Z) : bool := (Z.abs z <=? int4_max)%Z.

(** What the two casts make of the arguments of [build_match_sql]. *)
Definition cast_arguments (role_position_id : option Z) (min_hp_rating : Z)
  : Sql.result (option Z * Z) :=
  match role_position_id with
  | Some r =>
      if fits_int r
      then if fits_int min_hp_rating then Sql.Ok (Some r, min_hp_rating)
           else Sql.IntegerOutOfRange
      else Sql.IntegerOutOfRange
  | None =>
      if fits_int min_hp_rating then Sql.Ok (None, min_hp_rating)
      else Sql.IntegerOutOfRange
  end.

End TextLayout.

(* ------------------------------------------------------------------ *)
(** ** Vocabulary of the further properties *)

(** No character of [s] is a space. *)
Fixpoint has_space (s : string) : bool :=
  match s with
  | EmptyString => false
  | String c t => Agg.is_space c || has_space t
  end.

(** An identifier written with ASCII letters, digits, [-] and [_] only:
    text that stands for itself between two quotes, whatever reads the
    statement on its way to the database. *)
Definition plain_char (c : ascii) : bool :=
  let n := nat_of_ascii c in
  (Nat.leb 48 n && Nat.leb n 57) || (Nat.leb 65 n && Nat.leb n 90)
  || (Nat.leb 97 n && Nat.leb n 122) || Nat.eqb n 45 || Nat.eqb n 95.

Fixpoint plain_id (s : string) : bool :=
  match s with
  | EmptyString => true
  | String c t => plain_char c && plain_id t
  end.

Definition plain_ids (ids : list string) : Prop :=
  forall id, In id ids -> plain_id id = true.

(** The [position_id] of the last row of [rows] named [k]. *)
Definition last_named (k : string) (rows : list App.position) : option Z :=
  option_map App.pos_position_id
             (find (fun r => String.eqb (App.pos_name r) k) (rev rows)).

(** A score that is zero or undefined. *)
Definition zero_or_null (x : Sql.num) : Prop := x = Some 0%Qc \/ x = None.

(** No row of [performance_yearly] reaches the rating [m]. *)
Definition nobody_rated (db : database) (m : Z) : Prop :=
  forall id, ~ rated_at_least db m id.

(** A database where nobody is rated. *)
Definition unrated_db : database :=
  {| employees := [staff "A" "Ann"];
     performance_yearly := [];
     competencies_yearly := [];
     profiles_psych := [psych "A" (int 100) None (Some "intj") None];
     papi_scores := [];
     talent_variables_mapping :=
       [ {| m_tv_name := "iq"; m_tgv_name := "G"; m_tv_weight := int 1 |};
         {| m_tv_name := "mbti"; m_tgv_name := "G"; m_tv_weight := int 1 |} ];
     talent_group_weights := [ {| g_tgv_name := "G"; g_tgv_weight := int 1 |} ] |}.

(** [o] is the mode of the sample [xs]: nothing for the empty sample,
    otherwise a value of the sample that no value outnumbers and that
    comes first in text order among the values as frequent as it is. *)
Definition is_mode (xs : list string) (o : option string) : Prop :=
  match o with
  | None => xs = []
  | Some m =>
      In m xs
      /\ forall x, Agg.count_text x xs <= Agg.count_text m xs
                   /\ (Agg.count_text x xs = Agg.count_text m xs -> String.leb m x = true)
  end.

(** The normalised non-NULL values of a categorical attribute among the
    cohort's profile rows. *)
Definition cohort_values (db : database) (p : params) (attr : profile -> option string)
  : list string :=
  Agg.defined_text
    (map (fun q => Agg.upper_trim (attr q))
         (filter (fun q => Sql.mem (p_employee_id q) (final_bench db p))
                 (profiles_psych db))).

(** The baseline value [baseline_cat] holds for the attribute [name]. *)
Definition cat_baseline_of (db : database) (p : params) (name : string) : option string :=
  match find (fun bc => String.eqb (bc_tv_name bc) name) (baseline_cat db p) with
  | Some bc => bc_baseline_value bc
  | None => None
  end.

(** Two normalised values match when neither is NULL and they are equal. *)
Definition categorical_match (v b : option string) : bool :=
  match v, b with
  | Some x, Some y => String.eqb x y
  | _, _ => false
  end.

(** The row [categorical_tv] should hold for the profile row [q] and the
    attribute [name] with raw value [v]. *)
Definition cat_row (db : database) (p : params) (q : profile)
    (name : string) (v : option string) : tv_row :=
  {| tv_employee_id := p_employee_id q;
     tv_name := name;
     tv_baseline_score := Some 1%Qc;
     tv_user_score := Some 1%Qc;
     tv_match_rate :=
       if categorical_match (Agg.upper_trim v) (cat_baseline_of db p name)
       then Some hundred else Some 0%Qc |}.

(** [n] spaces. *)
Fixpoint spaces (n : nat) : string :=
  match n with
  | O => EmptyString
  | S k => String " " (spaces k)
  end.

(** Two databases hold the same rows, possibly stored in another order. *)
Definition same_rows (db db' : database) : Prop :=
  Permutation (employees db) (employees db')
  /\ Permutation (performance_yearly db) (performance_yearly db')
  /\ Permutation (competencies_yearly db) (competencies_yearly db')
  /\ Permutation (profiles_psych db) (profiles_psych db')
  /\ Permutation (papi_scores db) (papi_scores db')
  /\ Permutation (talent_variables_mapping db) (talent_variables_mapping db')
  /\ Permutation (talent_group_weights db) (talent_group_weights db').

(** Two outcomes of a CTE agree up to the order of their rows. *)
Definition same_outcome {A : Type} (r r' : Sql.result (list A)) : Prop :=
  match r, r' with
  | Sql.Ok l, Sql.Ok l' => Permutation l l'
  | Sql.Failed _, Sql.Failed _ => True
  | _, _ => False
  end.

(** The employee a ranked row shows: the id and the name. *)
Definition listed (r : ranked_row) : string * string :=
  (out_employee_id r, out_fullname r).

(** [tie_db] with the two profile rows stored in the other order. *)
Definition tie_db_reordered : database :=
  {| employees := [staff "A" "Ann"; staff "B" "Bob"];
     performance_yearly := [rating "A" 2024 5; rating "B" 2024 5];
     competencies_yearly := [];
     profiles_psych := [psych "A" (int 100) None None None;
                        psych "B" (int 100) None None None];
     papi_scores := [];
     talent_variables_mapping :=
       [ {| m_tv_name := "iq"; m_tgv_name := "G"; m_tv_weight := int 1 |} ];
     talent_group_weights := [ {| g_tgv_name := "G"; g_tgv_weight := int 1 |} ] |}.

(** The plain rate [(u / b) * 100] and the reverse rate
    [((2 * b - u) / b) * 100], undefined when the baseline or the reading
    is missing or the baseline is 0. *)
Definition plain_rate (b u : Sql.num) : Sql.num :=
  match b, u with
  | Some b, Some u => if Qc_eq_dec b 0%Qc then None else Some (u / b * hundred)%Qc
  | _, _ => None
  end.

Definition reverse_rate (b u : Sql.num) : Sql.num :=
  match b, u with
  | Some b, Some u =>
      if Qc_eq_dec b 0%Qc then None else Some ((two * b - u) / b * hundred)%Qc
  | _, _ => None
  end.

(** Some cohort member has a row, NULL or not, for the numeric variable
    (the behavioural scale) [v]. *)
Definition cohort_has_numeric (db : database) (p : params) (v : string) : Prop :=
  exists c, In c (all_numeric_scores db) /\ sc_tv_name c = v
            /\ In (sc_employee_id c) (final_bench db p).

Definition cohort_has_papi (db : database) (p : params) (v : string) : Prop :=
  exists c, In c (papi_scores db) /\ ps_scale_code c = v
            /\ In (ps_employee_id c) (final_bench db p).

(** The row of [numeric_tv] for a reading, and of [papi_tv] for a
    behavioural score. *)
Definition numeric_row (db : database) (p : params) (sc : numeric_score) : tv_row :=
  {| tv_employee_id := sc_employee_id sc;
     tv_name := sc_tv_name sc;
     tv_baseline_score := numeric_baseline_of db p (sc_tv_name sc);
     tv_user_score := sc_user_score sc;
     tv_match_rate := plain_rate (numeric_baseline_of db p (sc_tv_name sc))
                                 (sc_user_score sc) |}.

Definition papi_row (db : database) (p : params) (ps : papi_score) : tv_row :=
  {| tv_employee_id := ps_employee_id ps;
     tv_name := ps_scale_code ps;
     tv_baseline_score := papi_baseline_of db p (ps_scale_code ps);
     tv_user_score := ps_score ps;
     tv_match_rate :=
       if Sql.mem (ps_scale_code ps) reverse_list
       then reverse_rate (papi_baseline_of db p (ps_scale_code ps)) (ps_score ps)
       else plain_rate (papi_baseline_of db p (ps_scale_code ps)) (ps_score ps) |}.

(* ================================================================== *)
(** * Properties *)

(* ------------------------------------------------------------------ *)
(** ** Facts about the SQL operators *)

Section SqlFacts.

Lemma in_distinct (x : string) (l : list string) :
  In x (Sql.distinct l) <-> In x l.
Proof.
  unfold Sql.distinct. induction l as [|a t IH]; simpl; [tauto|].
  rewrite filter_In, IH. split.
  - intros [E | [H _]]; auto.
  - intros [E | H]; auto.
    destruct (String.eqb_spec a x) as [E | N]; auto.
Qed.

Lemma nodup_distinct (l : list string) : NoDup (Sql.distinct l).
Proof.
  unfold Sql.distinct. induction l as [|a t IH]; simpl; constructor.
  - rewrite filter_In. intros [_ H]. now rewrite String.eqb_refl in H.
  - now apply NoDup_filter.
Qed.

Lemma in_union (x : string) (a b : list string) :
  In x (Sql.union a b) <-> In x a \/ In x b.
Proof. unfold Sql.union. now rewrite in_distinct, in_app_iff. Qed.

Lemma mem_true_iff (x : string) (l : list string) :
  Sql.mem x l = true <-> In x l.
Proof.
  unfold Sql.mem. rewrite existsb_exists. split.
  - intros (y & Hy & E). apply String.eqb_eq in E. now subst.
  - intros H. exists x. split; auto. apply String.eqb_refl.
Qed.

Lemma ge_int_true (a : option Z) (m : Z) :
  Sql.is_true (Sql.ge_int a (Some m)) = true <-> exists r, a = Some r /\ (m <= r)%Z.
Proof.
  destruct a as [r|]; simpl.
  - destruct (Z.leb_spec m r); split; try discriminate; eauto.
    + intros (r' & E & H'). inversion E; subst. lia.
  - split; [discriminate | intros (r & E & _); discriminate].
Qed.

End SqlFacts.

(* ------------------------------------------------------------------ *)
(** ** Cohort resolution *)

Lemma in_fallback_benchmark db p id :
  In id (fallback_benchmark db p) <-> rated_at_least db (min_hp_rating p) id.
Proof.
  unfold fallback_benchmark, rated_at_least. rewrite in_flat_map. split.
  - intros (py & Hin & H).
    destruct (Sql.is_true _) eqn:E; simpl in H; [|tauto].
    destruct H as [<- | []]. apply ge_int_true in E. eauto.
  - intros (py & Hin & <- & Hr). exists py. split; auto.
    apply ge_int_true in Hr. rewrite Hr. now left.
Qed.

Lemma role_condition_true py e p :
  Sql.is_true
    (Sql.and3
       (Sql.and3 (Sql.ge_int (py_rating py) (Some (min_hp_rating p)))
                 (Sql.is_not_null (role_position_id p)))
       (Sql.eq_int (e_position_id e) (role_position_id p))) = true
  <-> (exists r, py_rating py = Some r /\ (min_hp_rating p <= r)%Z)
      /\ exists role, role_position_id p = Some role /\ e_position_id e = Some role.
Proof.
  rewrite <- ge_int_true.
  destruct (py_rating py) as [r|], (role_position_id p) as [role|],
           (e_position_id e) as [pos|]; simpl;
    try destruct (Z.leb (min_hp_rating p) r); simpl;
    try destruct (Z.eqb_spec pos role); subst; simpl;
    split; try discriminate; try (intros [? (? & ? & ?)]; congruence); eauto.
Qed.

Lemma in_role_set db p id :
  In id (role_set db p) <-> role_qualifies db p id.
Proof.
  unfold role_set, role_qualifies, rated_at_least.
  rewrite in_distinct, in_flat_map. split.
  - intros (e & He & H). apply in_flat_map in H. destruct H as (py & Hpy & H).
    destruct (String.eqb_spec (e_employee_id e) (py_employee_id py)) as [E|N];
      simpl in H; [|tauto].
    destruct (Sql.is_true _) eqn:C; simpl in H; [|tauto].
    destruct H as [<- | []]. apply role_condition_true in C.
    destruct C as (Hr & role & Hrole & Hpos).
    exists e, role. repeat split; auto. exists py. repeat split; auto.
  - intros (e & role & He & <- & Hrole & Hpos & py & Hpy & E & Hr).
    exists e. split; auto. apply in_flat_map. exists py. split; auto.
    rewrite E, String.eqb_refl. simpl.
    assert (C : Sql.is_true
      (Sql.and3
         (Sql.and3 (Sql.ge_int (py_rating py) (Some (min_hp_rating p)))
                   (Sql.is_not_null (role_position_id p)))
         (Sql.eq_int (e_position_id e) (role_position_id p))) = true).
    { apply role_condition_true. eauto. }
    rewrite C. now left.
Qed.

Lemma in_benchmark_set db p id :
  In id (benchmark_set db p) <-> explicit_union db p id.
Proof.
  unfold benchmark_set, explicit_union, manual_set.
  now rewrite in_union, in_role_set.
Qed.

Lemma rated_employee_has_rating_row db m id :
  rated_employee db m id -> rated_at_least db m id.
Proof.
  intros (_ & r & (py & Hpy & Hid & Hr & _) & Hm). exists py. eauto.
Qed.

Lemma other_ratings_cohort :
  final_bench other_ratings_db fallback_params = ["A"; "Z"].
Proof. reflexivity. Qed.

(** C1, as the specification words it, fails: the fallback cohort is not
    the set of employees whose rating reaches the threshold.  In
    [other_ratings_db], with no manual id, no role and a threshold of 5,
    the cohort is [A; Z]: [Z] is no employee, and Ann's rating is 3, her
    5 being of an earlier year. *)
Lemma fallback_is_not_the_rated_employees :
  ~ (forall db p,
       manual_hp p = [] -> role_position_id p = None ->
       forall id, In id (final_bench db p) -> rated_employee db (min_hp_rating p) id).
Proof.
  intros H.
  assert (Z : rated_employee other_ratings_db 5 "Z").
  { apply (H other_ratings_db fallback_params eq_refl eq_refl "Z").
    rewrite other_ratings_cohort. right. now left. }
  destruct Z as [(e & [<- | []] & E) _]. discriminate E.
Qed.

(** The same database refutes the wording on the rating alone: Ann is an
    employee, she is in the cohort, and her latest rating is 3. *)
Lemma earlier_rating_counts :
  In "A" (final_bench other_ratings_db fallback_params)
  /\ latest_rating other_ratings_db "A" 3
  /\ ~ rated_employee other_ratings_db 5 "A".
Proof.
  split; [rewrite other_ratings_cohort; now left|]. split.
  - exists (rating "A" 2024 3). repeat split; simpl; auto.
    intros py' [<- | [<- | [<- | []]]] E; simpl in *; try discriminate; lia.
  - intros (_ & r & (py & Hpy & Hid & Hr & Hlast) & Hm).
    assert (L := Hlast (rating "A" 2024 3) (or_intror (or_introl eq_refl)) eq_refl).
    destruct Hpy as [<- | [<- | [<- | []]]]; simpl in *; try discriminate.
    + lia.
    + inversion Hr; subst. lia.
Qed.

(** C1, amended.  Cohort precedence and fallback.  Either the explicit
    union (the manual ids together with the employees in the requested
    position that have some [performance_yearly] row, of any year, rated
    at least the threshold) has a member, and then [final_bench] is
    exactly that union, whatever the global rule would select; or the
    union is empty, and then [final_bench] is exactly the set of ids that
    have some [performance_yearly] row, of any year, rated at least
    [min_hp_rating], whether or not the id has a row in [employees].  That
    set holds every employee whose latest rating reaches the threshold.
    In both cases [final_bench] lists every member once. *)
Theorem cohort_precedence_and_fallback (db : database) (p : params) :
  NoDup (final_bench db p) /\
  (((exists id, explicit_union db p id) /\
    (forall id, In id (final_bench db p) <-> explicit_union db p id))
   \/
   ((forall id, ~ explicit_union db p id) /\
    (forall id, In id (final_bench db p)
                <-> rated_at_least db (min_hp_rating p) id))) /\
  (forall id, rated_employee db (min_hp_rating p) id ->
              rated_at_least db (min_hp_rating p) id).
Proof.
  split; [apply nodup_distinct|].
  split; [|intros id; apply rated_employee_has_rating_row].
  unfold final_bench.
  destruct (benchmark_set db p) as [|b t] eqn:B.
  - right. split.
    + intros id H. apply in_benchmark_set in H. now rewrite B in H.
    + intros id. rewrite in_union, !in_distinct, filter_In.
      rewrite <- in_fallback_benchmark. simpl. tauto.
  - left. split.
    + exists b. apply in_benchmark_set. rewrite B. now left.
    + intros id. rewrite in_union, !in_distinct, <- in_benchmark_set, B.
      rewrite filter_In. simpl. intuition discriminate.
Qed.

(* ------------------------------------------------------------------ *)
(** ** Evaluating the engine on concrete rows *)

(** Two canonical rationals are equal as soon as their fractions are: the
    tactic evaluates both sides and compares the numbers by value. *)
Ltac sql_eval :=
  vm_compute;
  repeat first [ reflexivity
               | match goal with |- @eq Qc _ _ => apply Qc_is_canon; reflexivity end
               | progress f_equal ].

Ltac qc_neq :=
  let H := fresh in
  intro H; apply (f_equal this) in H; vm_compute in H; discriminate.

Lemma two_eq : two = (1 + 1)%Qc.
Proof. apply Qc_is_canon. reflexivity. Qed.

Lemma hundred_neq_0 : hundred <> 0%Qc.
Proof. qc_neq. Qed.

Lemma Qc_eqb_refl (x : Qc) : Sql.Qc_eqb x x = true.
Proof. unfold Sql.Qc_eqb. now destruct (Qc_eq_dec x x). Qed.

Lemma Qc_eqb_neq (x y : Qc) : x <> y -> Sql.Qc_eqb x y = false.
Proof. unfold Sql.Qc_eqb. now destruct (Qc_eq_dec x y). Qed.

(* ------------------------------------------------------------------ *)
(** ** Match rates *)

Lemma numeric_match_rate_defined (b u : Qc) :
  b <> 0%Qc ->
  numeric_match_rate (Some b) (Some u) = Sql.Ok (Some (u / b * hundred)%Qc).
Proof.
  intros Hb. unfold numeric_match_rate, Sql.nullif, Sql.div.
  rewrite (Qc_eqb_neq Hb). simpl. now rewrite (Qc_eqb_neq Hb).
Qed.

Lemma reverse_match_rate_defined (b u : Qc) :
  b <> 0%Qc ->
  reverse_match_rate (Some b) (Some u)
  = Sql.Ok (Some ((two * b - u) / b * hundred)%Qc).
Proof.
  intros Hb. unfold reverse_match_rate, Sql.nullif, Sql.div.
  rewrite (Qc_eqb_neq Hb). simpl. now rewrite (Qc_eqb_neq Hb).
Qed.

(** A zero baseline makes the rate NULL, whatever the reading. *)
Lemma numeric_match_rate_zero_baseline (u : Sql.num) :
  numeric_match_rate (Some 0%Qc) u = Sql.Ok None.
Proof.
  unfold numeric_match_rate, Sql.nullif. rewrite Qc_eqb_refl. now destruct u.
Qed.

Lemma reverse_match_rate_zero_baseline (u : Sql.num) :
  reverse_match_rate (Some 0%Qc) u = Sql.Ok None.
Proof.
  unfold reverse_match_rate, Sql.nullif. rewrite Qc_eqb_refl. now destruct u.
Qed.

(** None of the per-variable divisions can fail: the divisor went through
    NULLIF(_, 0). *)
Lemma numeric_match_rate_ok (b u : Sql.num) :
  exists r, numeric_match_rate b u = Sql.Ok r.
Proof.
  unfold numeric_match_rate, Sql.nullif, Sql.div.
  destruct b as [b|], u as [u|]; simpl; eauto;
    destruct (Sql.Qc_eqb b 0) eqn:E; simpl; eauto; rewrite E; simpl; eauto.
Qed.

Lemma reverse_match_rate_ok (b u : Sql.num) :
  exists r, reverse_match_rate b u = Sql.Ok r.
Proof.
  unfold reverse_match_rate, Sql.nullif, Sql.div.
  destruct b as [b|], u as [u|]; simpl; eauto;
    destruct (Sql.Qc_eqb b 0) eqn:E; simpl; eauto; rewrite E; simpl; eauto.
Qed.

Lemma papi_match_rate_ok (r : bool) (b u : Sql.num) :
  exists q, papi_match_rate r b u = Sql.Ok q.
Proof.
  destruct r; [apply reverse_match_rate_ok | apply numeric_match_rate_ok].
Qed.


Lemma Qcinv_nonneg (a : Qc) : (0 <= a)%Qc -> (0 <= / a)%Qc.
Proof.
  unfold Qcle, Qcinv, Q2Qc. cbn [this]. intros H.
  change (0 <= Qred (/ a))%Q. rewrite Qred_correct.
  apply Qinv_le_0_compat. exact H.
Qed.

Lemma hundred_nonneg : (0 <= hundred)%Qc.
Proof. unfold Qcle. vm_compute. discriminate. Qed.

Lemma scale_le (x y b : Qc) :
  (0 < b)%Qc -> (x <= y)%Qc -> (x / b * hundred <= y / b * hundred)%Qc.
Proof.
  intros Hb H. apply Qcmult_le_compat_r; [|apply hundred_nonneg].
  unfold Qcdiv. apply Qcmult_le_compat_r; [exact H|].
  apply Qcinv_nonneg, Qclt_le_weak, Hb.
Qed.



(* ------------------------------------------------------------------ *)
(** ** The sort behind the ordered-set aggregates and ORDER BY *)

Section SortFacts.
Context {A : Type} (leb : A -> A -> bool).

Let le (a b : A) : Prop := leb a b = true.

Lemma insert_perm (x : A) (l : list A) : Permutation (Agg.insert leb x l) (x :: l).
Proof.
  induction l as [|y t IH]; simpl; [reflexivity|].
  destruct (leb x y); [reflexivity|].
  rewrite IH. apply perm_swap.
Qed.

Lemma sort_perm (l : list A) : Permutation (Agg.sort leb l) l.
Proof.
  induction l as [|x t IH]; simpl; [reflexivity|].
  rewrite insert_perm. now constructor.
Qed.

Lemma sort_length (l : list A) : List.length (Agg.sort leb l) = List.length l.
Proof. apply Permutation_length, sort_perm. Qed.

Hypothesis leb_total : forall a b, leb a b = true \/ leb b a = true.

Lemma insert_sorted (x : A) (l : list A) :
  Sorted le l -> Sorted le (Agg.insert leb x l).
Proof.
  induction 1 as [|y t Ht IH Hd]; simpl.
  - repeat constructor.
  - destruct (leb x y) eqn:E.
    + constructor; [now constructor | now constructor].
    + constructor; [assumption|].
      assert (Hyx : le y x) by (destruct (leb_total x y); congruence).
      destruct Hd as [|z u Hz]; simpl; [now constructor|].
      destruct (leb x z); now constructor.
Qed.

Lemma sort_sorted (l : list A) : Sorted le (Agg.sort leb l).
Proof.
  induction l as [|x t IH]; simpl; [constructor | now apply insert_sorted].
Qed.

Hypothesis leb_trans : forall a b c, leb a b = true -> leb b c = true -> leb a c = true.

Lemma sort_strongly_sorted (l : list A) : StronglySorted le (Agg.sort leb l).
Proof.
  apply Sorted_StronglySorted; [|apply sort_sorted].
  intros a b c. apply leb_trans.
Qed.

End SortFacts.

Lemma Qc_leb_le (x y : Qc) : Agg.Qc_leb x y = true <-> (x <= y)%Qc.
Proof. unfold Agg.Qc_leb, Qcle. apply Qle_bool_iff. Qed.

Lemma Qc_leb_total (x y : Qc) : Agg.Qc_leb x y = true \/ Agg.Qc_leb y x = true.
Proof.
  rewrite !Qc_leb_le. destruct (Qclt_le_dec x y) as [H|H]; auto.
  left. now apply Qclt_le_weak.
Qed.

Lemma Qc_leb_trans (x y z : Qc) :
  Agg.Qc_leb x y = true -> Agg.Qc_leb y z = true -> Agg.Qc_leb x z = true.
Proof. rewrite !Qc_leb_le. apply Qcle_trans. Qed.

(** The rows [PERCENTILE_CONT] interpolates between are those of the
    sample in ascending order. *)
Lemma sort_Qc_ascending (l : list Qc) :
  Permutation (Agg.sort Agg.Qc_leb l) l
  /\ StronglySorted Qcle (Agg.sort Agg.Qc_leb l).
Proof.
  split; [apply sort_perm|].
  assert (H := sort_strongly_sorted Agg.Qc_leb Qc_leb_total Qc_leb_trans l).
  induction H; constructor; auto.
  eapply Forall_impl; [|eassumption]. intros b. apply Qc_leb_le.
Qed.

(* ------------------------------------------------------------------ *)
(** ** Baselines *)

Ltac zdiv := Z.to_euclidean_division_equations; lia.

Lemma floor_half (m : Z) : Qfloor (this (Agg.half * Sql.qz m)%Qc) = (m / 2)%Z.
Proof.
  transitivity (Qfloor ((1 # 2) * inject_Z m)%Q).
  - apply Qfloor_comp. unfold Qcmult, Agg.half, Sql.qz, Q2Qc. cbn [this]. rewrite !Qred_correct. reflexivity.
  - unfold Qfloor, Qmult, inject_Z, Qnum, Qden. rewrite Z.mul_1_l, Pos.mul_1_r. reflexivity.
Qed.
Lemma ceiling_half (m : Z) : Qceiling (this (Agg.half * Sql.qz m)%Qc) = (- ((- m) / 2))%Z.
Proof.
  transitivity (Qceiling ((1 # 2) * inject_Z m)%Q).
  - apply Qceiling_comp. unfold Qcmult, Agg.half, Sql.qz, Q2Qc. cbn [this]. rewrite !Qred_correct. reflexivity.
  - unfold Qceiling, Qfloor, Qopp, Qmult, inject_Z, Qnum, Qden. rewrite Z.mul_1_l, Pos.mul_1_r. reflexivity.
Qed.
Lemma half_eq : Agg.half = (/ (1 + 1))%Qc.
Proof. apply Qc_is_canon. reflexivity. Qed.
Lemma frac_half (k : Z) : (Agg.half * Sql.qz (2 * k + 1) - Sql.qz k = Agg.half)%Qc.
Proof.
  apply Qc_is_canon.
  unfold Qcminus, Qcplus, Qcopp, Qcmult, Agg.half, Sql.qz, Q2Qc. cbn [this].
  rewrite !Qred_correct. unfold Qeq, Qplus, Qopp, Qmult, inject_Z, Qnum, Qden. lia.
Qed.
Lemma lerp_half (lo hi : Qc) : (lo + (hi - lo) * Agg.half = (lo + hi) / two)%Qc.
Proof. rewrite half_eq, two_eq. field. qc_neq. Qed.

Lemma percentile_cont_half_sorted (x0 : Qc) (s : list Qc) :
  let xs := x0 :: s in
  let n := List.length xs in
  let pos := (Agg.half * Sql.qz (Z.of_nat n - 1))%Qc in
  (if Z.eqb (Qfloor pos) (Qceiling pos)
   then Some (nth (Z.to_nat (Qfloor pos)) xs x0)
   else Some (nth (Z.to_nat (Qfloor pos)) xs x0
              + (nth (Z.to_nat (Qceiling pos)) xs x0 - nth (Z.to_nat (Qfloor pos)) xs x0)
                * (pos - Sql.qz (Qfloor pos)))%Qc)
  = if Nat.even n
    then Some ((nth (n / 2 - 1) xs 0%Qc + nth (n / 2) xs 0%Qc) / two)%Qc
    else Some (nth (n / 2) xs 0%Qc).
Proof.
  intros xs n pos. subst pos.
  rewrite floor_half, ceiling_half.
  assert (Hn : (1 <= n)%nat) by (subst n xs; simpl; lia).
  assert (Hlen : List.length xs = n) by reflexivity.
  clearbody n. clearbody xs.
  destruct (Nat.even n) eqn:E.
  - apply Nat.even_spec in E. destruct E as [k ->].
    assert (Hk : (1 <= k)%nat) by lia.
    replace (Z.of_nat (2 * k) - 1)%Z with (2 * (Z.of_nat k - 1) + 1)%Z by lia.
    replace ((2 * (Z.of_nat k - 1) + 1) / 2)%Z with (Z.of_nat k - 1)%Z by zdiv.
    replace (- (- (2 * (Z.of_nat k - 1) + 1) / 2))%Z with (Z.of_nat k)%Z by zdiv.
    replace (Z.of_nat k - 1 =? Z.of_nat k)%Z with false by (symmetry; apply Z.eqb_neq; lia).
    rewrite frac_half, lerp_half.
    replace (2 * k / 2)%nat with k by (rewrite Nat.mul_comm, Nat.div_mul; lia).
    replace (Z.to_nat (Z.of_nat k - 1)) with (k - 1)%nat by lia.
    rewrite Nat2Z.id.
    rewrite (nth_indep xs x0 0%Qc) by lia.
    rewrite (nth_indep xs x0 0%Qc (n := k)) by lia.
    reflexivity.
  - assert (O : Nat.odd n = true) by (rewrite <- Nat.negb_even, E; reflexivity).
    apply Nat.odd_spec in O. destruct O as [k ->].
    replace (Z.of_nat (2 * k + 1) - 1)%Z with (2 * Z.of_nat k)%Z by lia.
    replace (2 * Z.of_nat k / 2)%Z with (Z.of_nat k) by zdiv.
    replace (- (- (2 * Z.of_nat k) / 2))%Z with (Z.of_nat k) by zdiv.
    rewrite Z.eqb_refl, Nat2Z.id.
    replace ((2 * k + 1) / 2)%nat with k
      by (apply (Nat.div_unique _ 2 k 1); lia).
    rewrite (nth_indep xs x0 0%Qc) by lia. reflexivity.
Qed.

Lemma strongly_sorted_nth_le (s : list Qc) :
  StronglySorted Qcle s ->
  forall i j, i <= j -> j < List.length s -> (nth i s 0%Qc <= nth j s 0%Qc)%Qc.
Proof.
  induction 1 as [|x t Ht IH Hx]; intros i j Hij Hj; [simpl in Hj; lia|].
  destruct j as [|j].
  - replace i with 0 by lia. apply Qcle_refl.
  - destruct i as [|i]; simpl in *.
    + rewrite Forall_forall in Hx. apply Hx, nth_In. lia.
    + apply IH; lia.
Qed.

Lemma div_bounds (lo hi x t : Qc) :
  (0 <= t)%Qc -> t <> 0%Qc -> (lo * t <= x)%Qc -> (x <= hi * t)%Qc ->
  (lo <= x / t)%Qc /\ (x / t <= hi)%Qc.
Proof.
  intros Ht Hn L U.
  assert (I : (0 <= / t)%Qc) by now apply Qcinv_nonneg.
  assert (E : forall c : Qc, (c * t / t = c)%Qc) by (intros c; field; exact Hn).
  split.
  - rewrite <- (E lo). unfold Qcdiv. now apply Qcmult_le_compat_r.
  - rewrite <- (E hi). unfold Qcdiv. now apply Qcmult_le_compat_r.
Qed.

Lemma mean_bounds (lo hi a b : Qc) :
  (lo <= a)%Qc -> (lo <= b)%Qc -> (a <= hi)%Qc -> (b <= hi)%Qc ->
  (lo <= (a + b) / two)%Qc /\ ((a + b) / two <= hi)%Qc.
Proof.
  intros La Lb Ua Ub.
  assert (T : two <> 0%Qc) by qc_neq.
  apply div_bounds.
  - unfold Qcle. vm_compute. discriminate.
  - exact T.
  - replace (lo * two)%Qc with (lo + lo)%Qc by (rewrite two_eq; ring).
    now apply Qcplus_le_compat.
  - replace (hi * two)%Qc with (hi + hi)%Qc by (rewrite two_eq; ring).
    now apply Qcplus_le_compat.
Qed.

(** [PERCENTILE_CONT(0.5)] returns a median of the values it is given. *)
Lemma percentile_cont_half_is_median (l : list Sql.num) :
  is_median (Sql.defined l) (Agg.percentile_cont Agg.half l).
Proof.
  unfold Agg.percentile_cont.
  destruct (sort_Qc_ascending (Sql.defined l)) as [P S].
  destruct (Agg.sort Agg.Qc_leb (Sql.defined l)) as [|x0 t] eqn:E.
  - simpl. apply Permutation_nil in P. exact P.
  - pose proof (percentile_cont_half_sorted x0 t) as Hs. cbv zeta in Hs.
    refine (eq_ind_r (is_median (Sql.defined l)) _ Hs). clear Hs.
    set (s := x0 :: t) in *. set (n := List.length s).
    assert (Hn : 1 <= n) by (subst n s; simpl; lia).
    assert (H1 : (n - 1) / 2 <= n / 2) by (apply Nat.Div0.div_le_mono; lia).
    assert (H2 : n / 2 < n) by (apply Nat.div_lt; lia).
    assert (L : (nth ((n - 1) / 2) s 0%Qc <= nth (n / 2) s 0%Qc)%Qc)
      by (apply strongly_sorted_nth_le; auto).
    assert (M : median_interval (Sql.defined l)
                  (nth ((n - 1) / 2) s 0%Qc) (nth (n / 2) s 0%Qc)).
    { exists s. repeat split; auto; apply nth_error_nth'; fold n; lia. }
    destruct (Nat.even n) eqn:Ev.
    + assert (K : (n - 1) / 2 = n / 2 - 1).
      { apply Nat.even_spec in Ev. destruct Ev as [k Ek]. rewrite Ek.
        replace (2 * k - 1) with (1 + (k - 1) * 2) by lia.
        rewrite Nat.div_add by lia. rewrite Nat.mul_comm, Nat.div_mul by lia.
        reflexivity. }
      rewrite K in L, M.
      simpl. eexists. eexists. split; [exact M|].
      apply mean_bounds; auto; apply Qcle_refl.
    + assert (K : (n - 1) / 2 = n / 2).
      { assert (O : Nat.odd n = true) by (rewrite <- Nat.negb_even, Ev; reflexivity).
        apply Nat.odd_spec in O. destruct O as [k Ek]. rewrite Ek.
        replace (2 * k + 1 - 1) with (k * 2) by lia.
        replace (2 * k + 1) with (1 + k * 2) by lia.
        rewrite Nat.div_add, Nat.div_mul by lia. reflexivity. }
      rewrite K in M.
      simpl. eexists. eexists. split; [exact M|]. split; apply Qcle_refl.
Qed.

Lemma defined_map_Some (xs : list Qc) : Sql.defined (map Some xs) = xs.
Proof. unfold Sql.defined. induction xs as [|x t IH]; simpl; [reflexivity | now rewrite IH]. Qed.

Lemma percentile_cont_defined (f : Qc) (l : list Sql.num) :
  Agg.percentile_cont f l = Agg.percentile_cont f (map Some (Sql.defined l)).
Proof. unfold Agg.percentile_cont. now rewrite defined_map_Some. Qed.

Section ListFacts.
Context {A B : Type}.

Lemma filter_map_swap (f : B -> bool) (g : A -> B) (l : list A) :
  filter f (map g l) = map g (filter (fun x => f (g x)) l).
Proof.
  induction l as [|x t IH]; simpl; [reflexivity|].
  destruct (f (g x)); simpl; now rewrite IH.
Qed.

Lemma filter_filter (f g : A -> bool) (l : list A) :
  filter f (filter g l) = filter (fun x => f x && g x) l.
Proof.
  induction l as [|x t IH]; simpl; [reflexivity|].
  destruct (g x); simpl; destruct (f x); simpl; now rewrite ?IH.
Qed.

Lemma flat_map_filter (f : A -> bool) (l : list A) :
  flat_map (fun x => if f x then [x] else []) l = filter f l.
Proof.
  induction l as [|x t IH]; simpl; [reflexivity|].
  destruct (f x); simpl; now rewrite IH.
Qed.

End ListFacts.

Lemma filter_none {A : Type} (f : A -> bool) (l : list A) :
  (forall x, In x l -> f x = false) -> filter f l = [].
Proof.
  induction l as [|x t IH]; simpl; intros H; [reflexivity|].
  rewrite (H x (or_introl eq_refl)). apply IH. intros; apply H; now right.
Qed.

Lemma flat_map_nil {A B : Type} (f : A -> list B) (l : list A) :
  (forall x, In x l -> f x = []) -> flat_map f l = [].
Proof.
  induction l as [|x t IH]; simpl; intros H; [reflexivity|].
  rewrite (H x (or_introl eq_refl)), IH; [reflexivity|]. intros; apply H; now right.
Qed.

Lemma filter_eqb_nodup (x : string) (l : list string) :
  NoDup l -> filter (String.eqb x) l = if Sql.mem x l then [x] else [].
Proof.
  unfold Sql.mem. induction 1 as [|y t Hy Ht IH]; simpl; [reflexivity|].
  destruct (String.eqb_spec x y) as [<- | N]; simpl; [|exact IH].
  rewrite IH. destruct (existsb (String.eqb x) t) eqn:E; [|reflexivity].
  exfalso. apply Hy. apply mem_true_iff. exact E.
Qed.

(** Joining a table with [final_bench] on the employee keeps each row of
    a cohort member once. *)
Lemma join_final_bench {R : Type} (key : R -> string) (rows : list R) db p :
  flat_map (fun r => map (fun _ => r) (filter (String.eqb (key r)) (final_bench db p))) rows
  = filter (fun r => Sql.mem (key r) (final_bench db p)) rows.
Proof.
  rewrite <- flat_map_filter. apply flat_map_ext. intros r.
  rewrite filter_eqb_nodup by apply nodup_distinct.
  now destruct (Sql.mem (key r) (final_bench db p)).
Qed.

Lemma find_group_row {R : Type} (name : R -> string) (mk : string -> R)
      (keys : list string) (v : string) :
  (forall k, name (mk k) = k) ->
  find (fun r => String.eqb (name r) v) (map mk keys)
  = if Sql.mem v keys then Some (mk v) else None.
Proof.
  intros Hname. unfold Sql.mem. induction keys as [|k t IH]; simpl; [reflexivity|].
  rewrite Hname, (String.eqb_sym v k).
  destruct (String.eqb_spec k v) as [-> | N]; simpl; [reflexivity | exact IH].
Qed.

Lemma group_of_absent_key {R : Type} (key : R -> string) (rows : list R) (v : string) :
  Sql.mem v (Sql.distinct (map key rows)) = false ->
  filter (fun r => String.eqb (key r) v) rows = [].
Proof.
  intros H. induction rows as [|r t IH]; [reflexivity|].
  simpl. destruct (String.eqb_spec (key r) v) as [E | N].
  - exfalso. assert (T : Sql.mem v (Sql.distinct (map key (r :: t))) = true).
    { apply mem_true_iff, in_distinct. left. exact E. }
    congruence.
  - apply IH. destruct (Sql.mem v (Sql.distinct (map key t))) eqn:M; [|reflexivity].
    rewrite <- H. symmetry. apply mem_true_iff, in_distinct. right.
    apply in_distinct, mem_true_iff. exact M.
Qed.

Lemma baseline_numeric_input_cohort db p :
  baseline_numeric_input db p
  = map (fun sc => (sc_tv_name sc, sc_user_score sc))
        (filter (fun sc => Sql.mem (sc_employee_id sc) (final_bench db p))
                (all_numeric_scores db)).
Proof.
  unfold baseline_numeric_input, all_numeric_scores, psych_columns. simpl.
  rewrite !app_nil_r, !filter_app, !map_app, !filter_map_swap, !map_map, filter_filter.
  simpl.
  rewrite (filter_ext (fun c => in_latest db c && Sql.mem (c_employee_id c) (final_bench db p))
                      (fun c => Sql.mem (c_employee_id c) (final_bench db p) && in_latest db c))
    by (intros c; apply andb_comm).
  reflexivity.
Qed.

Lemma numeric_baseline_of_percentile db p v :
  numeric_baseline_of db p v
  = Agg.percentile_cont Agg.half
      (map sc_user_score
           (filter (fun sc => String.eqb (sc_tv_name sc) v
                              && Sql.mem (sc_employee_id sc) (final_bench db p))
                   (all_numeric_scores db))).
Proof.
  unfold numeric_baseline_of, baseline_numeric.
  rewrite (find_group_row bn_tv_name) by reflexivity.
  assert (G : map snd (filter (fun r : string * Sql.num => String.eqb (fst r) v)
                              (baseline_numeric_input db p))
              = map sc_user_score
                    (filter (fun sc => String.eqb (sc_tv_name sc) v
                                       && Sql.mem (sc_employee_id sc) (final_bench db p))
                            (all_numeric_scores db))).
  { rewrite baseline_numeric_input_cohort, filter_map_swap, map_map, filter_filter.
    reflexivity. }
  destruct (Sql.mem v _) eqn:M; simpl.
  - now rewrite G.
  - rewrite <- G, (group_of_absent_key fst _ _ M). reflexivity.
Qed.

Lemma papi_baseline_of_percentile db p v :
  papi_baseline_of db p v
  = Agg.percentile_cont Agg.half
      (map ps_score
           (filter (fun ps => String.eqb (ps_scale_code ps) v
                              && Sql.mem (ps_employee_id ps) (final_bench db p))
                   (papi_scores db))).
Proof.
  unfold papi_baseline_of, baseline_papi.
  rewrite (find_group_row bp_tv_name) by reflexivity.
  assert (I : baseline_papi_input db p
              = filter (fun ps => Sql.mem (ps_employee_id ps) (final_bench db p))
                       (papi_scores db))
    by apply (join_final_bench ps_employee_id).
  assert (G : filter (fun ps => String.eqb (ps_scale_code ps) v) (baseline_papi_input db p)
              = filter (fun ps => String.eqb (ps_scale_code ps) v
                                  && Sql.mem (ps_employee_id ps) (final_bench db p))
                       (papi_scores db))
    by (rewrite I, filter_filter; reflexivity).
  destruct (Sql.mem v _) eqn:M; simpl.
  - now rewrite G.
  - rewrite <- G, (group_of_absent_key ps_scale_code _ _ M). reflexivity.
Qed.

Lemma fold_max_upper (y : Z) (ys : list Z) :
  (forall x, In x (y :: ys) -> (x <= fold_right Z.max y ys)%Z)
  /\ In (fold_right Z.max y ys) (y :: ys).
Proof.
  induction ys as [|z t IH]; simpl.
  - split; [intros x [<- | []]; lia | now left].
  - destruct IH as [U I]. split.
    + intros x [E | [E | Hx]].
      * specialize (U x (or_introl E)). lia.
      * lia.
      * specialize (U x (or_intror Hx)). lia.
    + destruct (Z.max_spec z (fold_right Z.max y t)) as [[_ ->] | [_ ->]].
      * destruct I as [I | I]; auto.
      * auto.
Qed.

Lemma present_defined (l : list Sql.num) : present l = Sql.defined l.
Proof.
  unfold Sql.defined. induction l as [|[x|] t IH]; simpl; [reflexivity | |exact IH].
  now rewrite IH.
Qed.

Lemma member_mem (id : string) (l : list string) : member id l = Sql.mem id l.
Proof.
  unfold member. destruct (in_dec string_dec id l) as [I|N].
  - symmetry. now apply mem_true_iff.
  - destruct (Sql.mem id l) eqn:M; [|reflexivity].
    exfalso. apply N. now apply mem_true_iff.
Qed.

(** [c.year = l.comp_year] keeps the rows of the latest period. *)
Lemma in_latest_period db (c : competency) :
  In c (competencies_yearly db) -> in_latest db c = of_latest_period db c.
Proof.
  intros Hc. unfold in_latest, latest, of_latest_period.
  assert (Hy : In (c_year c) (map c_year (competencies_yearly db))) by now apply in_map.
  destruct (map c_year (competencies_yearly db)) as [|y ys] eqn:E; [destruct Hy|].
  destruct (fold_max_upper y ys) as [U I]. rewrite <- E in U, I. simpl.
  destruct (Z.eqb_spec (c_year c) (fold_right Z.max y ys)) as [Ec|Nc]; symmetry.
  - apply forallb_forall. intros c' Hc'. apply Z.leb_le. rewrite Ec.
    apply U. now apply in_map.
  - destruct (forallb _ _) eqn:F; [|reflexivity]. exfalso. apply Nc.
    apply Z.le_antisymm; [apply U; now apply in_map|].
    apply in_map_iff in I. destruct I as (c' & Ey & Hc').
    rewrite forallb_forall in F. specialize (F c' Hc'). apply Z.leb_le in F. lia.
Qed.

Lemma psych_rows (db : database) (cohort : list string) (v : string) :
  Sql.defined
    (map sc_user_score
       (filter (fun sc => String.eqb (sc_tv_name sc) v && Sql.mem (sc_employee_id sc) cohort)
          (flat_map (fun col =>
             map (fun q => {| sc_employee_id := p_employee_id q;
                              sc_tv_name := fst col;
                              sc_user_score := snd col q |})
                 (profiles_psych db))
             psych_columns)))
  = match psych_scale v with
    | Some scale =>
        present (map scale
                   (filter (fun q => member (p_employee_id q) cohort) (profiles_psych db)))
    | None => []
    end.
Proof.
  assert (C : forall (name : string) (col : profile -> Sql.num),
            map sc_user_score
              (filter (fun sc => String.eqb (sc_tv_name sc) v
                                 && Sql.mem (sc_employee_id sc) cohort)
                 (map (fun q => {| sc_employee_id := p_employee_id q;
                                   sc_tv_name := name;
                                   sc_user_score := col q |})
                      (profiles_psych db)))
            = if String.eqb name v
              then map col (filter (fun q => member (p_employee_id q) cohort)
                                   (profiles_psych db))
              else []).
  { intros name col. induction (profiles_psych db) as [|q t IH]; simpl.
    - now destruct (String.eqb name v).
    - rewrite member_mem. destruct (String.eqb name v); simpl.
      + destruct (Sql.mem (p_employee_id q) cohort); simpl; now rewrite IH.
      + exact IH. }
  unfold psych_columns, psych_scale. cbn [flat_map fst snd].
  rewrite !filter_app, !map_app, !C. cbn [filter map app].
  rewrite !(String.eqb_sym _ v).
  destruct (String.eqb_spec v "iq") as [->|]; [now rewrite app_nil_r, present_defined|].
  destruct (String.eqb_spec v "gtq") as [->|]; [now rewrite app_nil_r, present_defined|].
  destruct (String.eqb_spec v "tiki") as [->|]; [now rewrite app_nil_r, present_defined|].
  destruct (String.eqb_spec v "faxtor") as [->|]; [now rewrite app_nil_r, present_defined|].
  destruct (String.eqb_spec v "pauli") as [->|]; [now rewrite app_nil_r, present_defined|].
  reflexivity.
Qed.

Lemma defined_app (a b : list Sql.num) :
  Sql.defined (a ++ b) = Sql.defined a ++ Sql.defined b.
Proof. unfold Sql.defined. apply flat_map_app. Qed.

(** The values [baseline_numeric] aggregates for [v] are the cohort's
    readings. *)
Lemma numeric_baseline_readings db p v :
  numeric_baseline_of db p v
  = Agg.percentile_cont Agg.half
      (map Some (cohort_numeric_readings db (final_bench db p) v)).
Proof.
  rewrite numeric_baseline_of_percentile, percentile_cont_defined. do 2 f_equal.
  unfold all_numeric_scores, cohort_numeric_readings.
  rewrite filter_app, map_app, defined_app, psych_rows. f_equal.
  rewrite filter_map_swap, map_map, filter_filter, <- present_defined. simpl.
  f_equal. f_equal. apply filter_ext_in. intros c Hc.
  rewrite (in_latest_period db c Hc), member_mem.
  destruct (String.eqb _ _), (Sql.mem _ _), (of_latest_period db c); reflexivity.
Qed.

Lemma papi_baseline_readings db p v :
  papi_baseline_of db p v
  = Agg.percentile_cont Agg.half
      (map Some (cohort_papi_readings db (final_bench db p) v)).
Proof.
  rewrite papi_baseline_of_percentile, percentile_cont_defined. do 2 f_equal.
  unfold cohort_papi_readings. rewrite <- present_defined. do 2 f_equal.
  apply filter_ext. intros ps. now rewrite member_mem.
Qed.

Lemma is_median_of_readings (xs : list Qc) :
  is_median xs (Agg.percentile_cont Agg.half (map Some xs)).
Proof.
  assert (H := percentile_cont_half_is_median (map Some xs)).
  now rewrite defined_map_Some in H.
Qed.

Lemma earlier_year_baselines :
  numeric_baseline_of earlier_year_db fallback_params "P1" = int 80
  /\ numeric_baseline_of
       (with_competencies earlier_year_db
          (competencies_yearly earlier_year_db ++ [later_row]))
       fallback_params "P1" = None.
Proof. split; sql_eval. Qed.


Lemma latest_period_kept db rows (c : competency) :
  (forall r, In r rows ->
     exists c', In c' (competencies_yearly db) /\ (c_year r <= c_year c')%Z) ->
  of_latest_period (with_competencies db (competencies_yearly db ++ rows)) c
  = of_latest_period db c.
Proof.
  intros Hr. unfold of_latest_period. simpl. rewrite forallb_app.
  destruct (forallb _ (competencies_yearly db)) eqn:F; [|reflexivity]. simpl.
  apply forallb_forall. intros r Hin. apply Z.leb_le.
  destruct (Hr r Hin) as (c' & Hc' & L).
  rewrite forallb_forall in F. specialize (F c' Hc'). apply Z.leb_le in F. lia.
Qed.

Lemma readings_kept db p rows v :
  (forall r, In r rows -> ~ In (c_employee_id r) (final_bench db p)) ->
  (forall r, In r rows ->
     exists c', In c' (competencies_yearly db) /\ (c_year r <= c_year c')%Z) ->
  cohort_numeric_readings (with_competencies db (competencies_yearly db ++ rows))
                          (final_bench db p) v
  = cohort_numeric_readings db (final_bench db p) v.
Proof.
  intros Hout Hyear. unfold cohort_numeric_readings. f_equal.
  cbn [competencies_yearly with_competencies]. rewrite filter_app.
  assert (E : filter (fun c => String.eqb (c_pillar_code c) v
                        && of_latest_period
                             (with_competencies db (competencies_yearly db ++ rows)) c
                        && member (c_employee_id c) (final_bench db p)) rows = []).
  { apply filter_none. intros r Hin. unfold member.
    destruct (in_dec string_dec (c_employee_id r) (final_bench db p)) as [I|_].
    - now apply Hout in I.
    - apply andb_false_r. }
  rewrite E, app_nil_r. do 2 f_equal. apply filter_ext. intros c.
  now rewrite (latest_period_kept db rows c Hyear).
Qed.


(* ------------------------------------------------------------------ *)
(** ** Weighted rollup *)

Section MapM.
Context {A B : Type} (f : A -> Sql.result B).

Lemma mapM_total (l : list A) :
  (forall x, In x l -> exists y, f x = Sql.Ok y) ->
  exists ys, Sql.mapM f l = Sql.Ok ys.
Proof.
  induction l as [|x t IH]; simpl; intros H; [eauto|].
  destruct (H x (or_introl eq_refl)) as [y Hy]. rewrite Hy. simpl.
  destruct IH as [ys Hys]; [intros; apply H; now right|].
  rewrite Hys. simpl. eauto.
Qed.

Lemma mapM_ok_in (l : list A) (ys : list B) :
  Sql.mapM f l = Sql.Ok ys ->
  forall y, In y ys -> exists x, In x l /\ f x = Sql.Ok y.
Proof.
  revert ys. induction l as [|x t IH]; simpl; intros ys H y Hy.
  - inversion H; subst. destruct Hy.
  - destruct (f x) as [y0|] eqn:E; simpl in H; [|discriminate].
    destruct (Sql.mapM f t) as [ys0|] eqn:E'; simpl in H; [|discriminate].
    inversion H; subst. destruct Hy as [<- | Hy]; [eauto|].
    destruct (IH _ eq_refl _ Hy) as (x' & Hx' & Hf). eauto.
Qed.

Lemma mapM_in_ok (l : list A) (ys : list B) :
  Sql.mapM f l = Sql.Ok ys ->
  forall x, In x l -> exists y, In y ys /\ f x = Sql.Ok y.
Proof.
  revert ys. induction l as [|x t IH]; simpl; intros ys H x' Hx'; [destruct Hx'|].
  destruct (f x) as [y0|] eqn:E; simpl in H; [|discriminate].
  destruct (Sql.mapM f t) as [ys0|] eqn:E'; simpl in H; [|discriminate].
  inversion H; subst. destruct Hx' as [<- | Hx'].
  - exists y0. split; [now left | assumption].
  - destruct (IH _ eq_refl _ Hx') as (y & Hy & Hf). exists y. split; [now right | assumption].
Qed.

Lemma mapM_fails (l : list A) (x : A) (e : Sql.failure) :
  (forall y e', f y = Sql.Failed e' -> e' = e) ->
  In x l -> f x = Sql.Failed e -> Sql.mapM f l = Sql.Failed e.
Proof.
  intros Hf. induction l as [|a t IH]; simpl; intros Hin Hx; [destruct Hin|].
  destruct Hin as [-> | Hin].
  - now rewrite Hx.
  - destruct (f a) as [y|e'] eqn:E; simpl.
    + now rewrite (IH Hin Hx).
    + now rewrite (Hf _ _ E).
Qed.

End MapM.

Lemma sum_defined (l : list Sql.num) :
  Sql.sum l = match Sql.defined l with [] => None | xs => Some (Sql.total xs) end.
Proof. reflexivity. Qed.

Lemma total_products (l : list (Qc * Qc)) :
  Sql.total (map (fun rw => (fst rw * snd rw)%Qc) l) = weighted_sum l.
Proof. induction l as [|x t IH]; simpl; [reflexivity | now rewrite IH]. Qed.

Lemma tgv_numerator_terms (g : list (tv_row * tv_mapping)) :
  tgv_numerator g
  = match rollup_terms g with [] => None | terms => Some (weighted_sum terms) end.
Proof.
  unfold tgv_numerator. rewrite sum_defined.
  assert (E : Sql.defined (map (fun am => Sql.mul (tv_match_rate (fst am))
                                                  (m_tv_weight (snd am))) g)
              = map (fun rw => (fst rw * snd rw)%Qc) (rollup_terms g)).
  { unfold Sql.defined, rollup_terms. induction g as [|am t IH]; simpl; [reflexivity|].
    rewrite IH, map_app.
    destruct (tv_match_rate (fst am)), (m_tv_weight (snd am)); reflexivity. }
  rewrite E. destruct (rollup_terms g) as [|t0 ts]; [reflexivity|].
  now rewrite <- total_products.
Qed.

Lemma tgv_denominator_weights (g : list (tv_row * tv_mapping)) :
  tgv_denominator g
  = match rollup_weights g with [] => None | ws => Some (Sql.total ws) end.
Proof.
  unfold tgv_denominator. rewrite sum_defined.
  assert (E : Sql.defined (map (fun am => m_tv_weight (snd am)) g) = rollup_weights g).
  { unfold Sql.defined, rollup_weights. now rewrite flat_map_concat_map, map_map,
      <- flat_map_concat_map. }
  now rewrite E.
Qed.

Lemma final_sum_terms (j : list (tgv_row * group_weight)) :
  final_sum j = match final_terms j with [] => None | terms => Some (weighted_sum terms) end.
Proof.
  unfold final_sum. rewrite sum_defined.
  assert (E : Sql.defined (map (fun tg => Sql.mul (tgv_match_rate (fst tg))
                                                  (g_tgv_weight (snd tg))) j)
              = map (fun rw => (fst rw * snd rw)%Qc) (final_terms j)).
  { unfold Sql.defined, final_terms. induction j as [|tg t IH]; simpl; [reflexivity|].
    rewrite IH, map_app.
    destruct (tgv_match_rate (fst tg)), (g_tgv_weight (snd tg)); reflexivity. }
  rewrite E. destruct (final_terms j) as [|t0 ts]; [reflexivity|].
  now rewrite <- total_products.
Qed.

Lemma rollup_terms_weights_nonempty (g : list (tv_row * tv_mapping)) :
  rollup_terms g <> [] -> rollup_weights g <> [].
Proof.
  induction g as [|am t IH]; simpl; [tauto|].
  destruct (m_tv_weight (snd am)); simpl; [discriminate|].
  destruct (tv_match_rate (fst am)); simpl; exact IH.
Qed.

(** What the division of [tgv_match] returns for one group. *)
Lemma tgv_division (g : list (tv_row * tv_mapping)) (q : Sql.num) :
  Sql.div (tgv_numerator g) (tgv_denominator g) = Sql.Ok q ->
  match rollup_terms g with
  | [] => q = None
  | terms => Sql.total (rollup_weights g) <> 0%Qc
             /\ q = Some (weighted_sum terms / Sql.total (rollup_weights g))%Qc
  end.
Proof.
  rewrite tgv_numerator_terms, tgv_denominator_weights.
  assert (W := @rollup_terms_weights_nonempty g).
  destruct (rollup_terms g) as [|t0 ts]; simpl.
  - intros H. now inversion H.
  - destruct (rollup_weights g) as [|w0 ws]; [exfalso; apply W; [discriminate | reflexivity]|].
    simpl. unfold Sql.Qc_eqb. destruct (Qc_eq_dec _ 0%Qc) as [E|N]; [discriminate|].
    intros H. inversion H. split; [exact N | reflexivity].
Qed.

Lemma tgv_match_rows (a : list tv_row) (m : list tv_mapping) (ts : list tgv_row) :
  tgv_match a m = Sql.Ok ts ->
  forall t, In t ts ->
    In (tgv_employee_id t, tgv_name t) (map tgv_key (tgv_join a m))
    /\ let g := tgv_group (tgv_join a m) (tgv_employee_id t, tgv_name t) in
       Sql.div (tgv_numerator g) (tgv_denominator g) = Sql.Ok (tgv_match_rate t).
Proof.
  unfold tgv_match. intros H t Ht.
  destruct (mapM_ok_in _ _ H t Ht) as (k & Hk & Hf).
  destruct (Sql.div _ _) as [q|] eqn:D; simpl in Hf; [|discriminate].
  inversion Hf; subst; simpl. rewrite <- surjective_pairing. split; [|exact D].
  clear - Hk. revert Hk. generalize (map tgv_key (tgv_join a m)). intros l.
  induction l as [|x u IH]; simpl; [tauto|].
  rewrite filter_In. intros [E | [Hin _]]; auto.
Qed.

Lemma final_match_rows (ts : list tgv_row) (gw : list group_weight) (f : final_row) :
  In f (final_match ts gw) ->
  fm_final_match_rate f = final_sum (final_group (final_join ts gw) (fm_employee_id f)).
Proof.
  unfold final_match. rewrite in_map_iff. intros (k & <- & _). reflexivity.
Qed.

Lemma ex_tgv_match : tgv_match ex_rows ex_map = Sql.Ok ex_tgv.
Proof. sql_eval. Qed.

Lemma ex_tgv_match_undefined :
  tgv_match ex_rows_undefined ex_map = Sql.Ok ex_tgv_undefined.
Proof. sql_eval. Qed.

(** C3, as the specification words it, fails: with weights 1 and 3, the
    rate of the first variable undefined and the second 50, [tgv_match]
    gives 150 / 4 = 37.5, not 150 / 3 = 50. *)
Lemma group_match_is_not_mean_of_defined :
  ~ (forall a m ts t,
       tgv_match a m = Sql.Ok ts -> In t ts ->
       tgv_match_rate t
       = weighted_mean_of_defined
           (tgv_group (tgv_join a m) (tgv_employee_id t, tgv_name t))).
Proof.
  intros H.
  specialize (H ex_rows_undefined ex_map ex_tgv_undefined _
                ex_tgv_match_undefined (or_introl eq_refl)).
  vm_compute in H. discriminate.
Qed.

(** C3, amended.  The two stages use different rules.  Stage one divides:
    a group match is the sum of [rate * weight] over the group's rows with
    a defined rate and weight, divided by the sum of the weights of all the
    group's rows with a weight (a row with an undefined rate still counts
    there); it is NULL when no product is defined.  Stage two does not
    divide: a final score is the plain sum of [group match * group weight]
    over the employee's groups where both are defined, NULL when there is
    none. *)
Theorem two_stage_rollup (a : list tv_row) (m : list tv_mapping) (ts : list tgv_row)
    (H : tgv_match a m = Sql.Ok ts) :
  (forall t, In t ts ->
     let g := tgv_group (tgv_join a m) (tgv_employee_id t, tgv_name t) in
     match rollup_terms g with
     | [] => tgv_match_rate t = None
     | terms =>
         Sql.total (rollup_weights g) <> 0%Qc
         /\ tgv_match_rate t
            = Some (weighted_sum terms / Sql.total (rollup_weights g))%Qc
     end)
  /\ (forall gw f, In f (final_match ts gw) ->
        fm_final_match_rate f
        = match final_terms (final_group (final_join ts gw) (fm_employee_id f)) with
          | [] => None
          | terms => Some (weighted_sum terms)
          end).
Proof.
  split.
  - intros t Ht g. apply tgv_division.
    exact (proj2 (tgv_match_rows _ _ H t Ht)).
  - intros gw f Hf. rewrite (final_match_rows _ _ _ Hf). apply final_sum_terms.
Qed.

(** Weights 1 and 3 with rates 100 and 50 give 62.5; with two groups of
    weight 1 each the final score is the sum of the two group matches. *)
Lemma two_stage_rollup_witness :
  tgv_match ex_rows ex_map = Sql.Ok ex_tgv
  /\ (forall t, In t ex_tgv ->
        match rollup_terms (tgv_group (tgv_join ex_rows ex_map)
                                      (tgv_employee_id t, tgv_name t)) with
        | [] => tgv_match_rate t = None
        | terms =>
            Sql.total (rollup_weights (tgv_group (tgv_join ex_rows ex_map)
                                                 (tgv_employee_id t, tgv_name t))) <> 0%Qc
            /\ tgv_match_rate t
               = Some (weighted_sum terms
                       / Sql.total (rollup_weights
                                      (tgv_group (tgv_join ex_rows ex_map)
                                                 (tgv_employee_id t, tgv_name t))))%Qc
        end).
Proof.
  split; [exact ex_tgv_match|].
  exact (proj1 (two_stage_rollup ex_rows ex_map ex_tgv_match)).
Defined.

Lemma final_score_is_not_normalised :
  final_match
    [ {| tgv_employee_id := "E1"; tgv_name := "G1"; tgv_match_rate := int 100 |};
      {| tgv_employee_id := "E1"; tgv_name := "G2"; tgv_match_rate := int 100 |} ]
    [ {| g_tgv_name := "G1"; g_tgv_weight := int 1 |};
      {| g_tgv_name := "G2"; g_tgv_weight := int 1 |} ]
  = [ {| fm_employee_id := "E1"; fm_final_match_rate := int 200 |} ].
Proof. sql_eval. Qed.

(* ------------------------------------------------------------------ *)
(** ** Undefined match rates in the rollup *)

Lemma zero_baseline_run :
  numeric_baseline_of zero_baseline_db fallback_params "iq" = int 0
  /\ talent_match zero_baseline_db fallback_params
     = Sql.Ok [ranked "A" "Ann" (int 75); ranked "B" "Bob" (ratio 75 2)].
Proof. split; sql_eval. Qed.

(** C4, as the specification words it, fails: in [zero_baseline_db] the
    [iq] baseline is 0, so Bob's [iq] rate is undefined, yet the weight of
    [iq] is part of the denominator of his group: [tgv_match] gives him
    150 / 4 = 37.5, where the mean over his defined rates is
    150 / 3 = 50. *)
Lemma undefined_rate_weight_in_denominator :
  ~ (forall db p rows ts t,
       all_tv db p = Sql.Ok rows ->
       tgv_match rows (tv_map db) = Sql.Ok ts ->
       In t ts ->
       tgv_match_rate t
       = weighted_mean_of_defined
           (tgv_group (tgv_join rows (tv_map db)) (tgv_employee_id t, tgv_name t))).
Proof.
  intros H.
  destruct (all_tv zero_baseline_db fallback_params) as [rows|] eqn:E;
    [|vm_compute in E; discriminate].
  specialize (H zero_baseline_db fallback_params rows).
  vm_compute in E. inversion E; subst rows. clear E.
  destruct (tgv_match _ (tv_map zero_baseline_db)) as [ts|] eqn:T;
    [|vm_compute in T; discriminate].
  specialize (H ts {| tgv_employee_id := "B"; tgv_name := "G";
                      tgv_match_rate := ratio 75 2 |} eq_refl eq_refl).
  vm_compute in T. inversion T; subst ts. clear T.
  assert (I : In {| tgv_employee_id := "B"; tgv_name := "G"; tgv_match_rate := ratio 75 2 |}
                 [ {| tgv_employee_id := "A"; tgv_name := "G"; tgv_match_rate := int 75 |};
                   {| tgv_employee_id := "B"; tgv_name := "G";
                      tgv_match_rate := ratio 75 2 |} ])
    by (right; left; reflexivity).
  match type of H with
  | In _ ?l -> _ =>
      assert (L : l = [ {| tgv_employee_id := "A"; tgv_name := "G";
                           tgv_match_rate := int 75 |};
                        {| tgv_employee_id := "B"; tgv_name := "G";
                           tgv_match_rate := ratio 75 2 |} ]) by sql_eval
  end.
  rewrite L in H. specialize (H I). vm_compute in H. discriminate.
Qed.

Lemma rollup_weights_split (f : tv_row * tv_mapping -> bool)
      (g : list (tv_row * tv_mapping)) :
  Permutation (rollup_weights g)
              (rollup_weights (filter f g)
               ++ rollup_weights (filter (fun am => negb (f am)) g)).
Proof.
  unfold rollup_weights. induction g as [|am t IH]; simpl; [constructor|].
  destruct (f am); simpl.
  - rewrite <- app_assoc. now apply Permutation_app_head.
  - rewrite IH. rewrite !app_assoc. apply Permutation_app_tail, Permutation_app_comm.
Qed.

Lemma rollup_terms_defined (g : list (tv_row * tv_mapping)) :
  rollup_terms (filter rate_defined g) = rollup_terms g.
Proof.
  unfold rollup_terms, rate_defined. induction g as [|am t IH]; simpl; [reflexivity|].
  destruct (tv_match_rate (fst am)) eqn:E; simpl; rewrite ?E, IH; reflexivity.
Qed.

Lemma numeric_tv_zero_baseline db p rows x :
  numeric_tv db p = Sql.Ok rows -> In x rows ->
  tv_baseline_score x = Some 0%Qc -> tv_match_rate x = None.
Proof.
  unfold numeric_tv. intros H Hx Hz.
  destruct (mapM_ok_in _ _ H x Hx) as ([sc bn] & _ & Hf).
  destruct (numeric_match_rate _ _) as [r|] eqn:E; simpl in Hf; [|discriminate].
  inversion Hf; subst x. simpl in *. rewrite Hz in E.
  rewrite numeric_match_rate_zero_baseline in E. now inversion E.
Qed.

Lemma papi_tv_zero_baseline db p rows x :
  papi_tv db p = Sql.Ok rows -> In x rows ->
  tv_baseline_score x = Some 0%Qc -> tv_match_rate x = None.
Proof.
  unfold papi_tv. intros H Hx Hz.
  destruct (mapM_ok_in _ _ H x Hx) as ([ps bp] & _ & Hf).
  destruct (papi_match_rate _ _ _) as [r|] eqn:E; simpl in Hf; [|discriminate].
  inversion Hf; subst x. simpl in *. rewrite Hz in E. unfold papi_match_rate in E.
  destruct (bp_is_reverse bp);
    [rewrite reverse_match_rate_zero_baseline in E
    | rewrite numeric_match_rate_zero_baseline in E]; now inversion E.
Qed.

Lemma categorical_tv_baseline db p x :
  In x (categorical_tv db p) -> tv_baseline_score x = Some 1%Qc.
Proof.
  unfold categorical_tv. intros Hx. apply in_flat_map in Hx.
  destruct Hx as (q & _ & Hx). apply in_map_iff in Hx.
  destruct Hx as (bc & <- & _). reflexivity.
Qed.

Lemma all_tv_inv db p rows :
  all_tv db p = Sql.Ok rows ->
  exists n b, numeric_tv db p = Sql.Ok n /\ papi_tv db p = Sql.Ok b
              /\ rows = n ++ b ++ categorical_tv db p.
Proof.
  unfold all_tv. intros H.
  destruct (numeric_tv db p) as [n|]; simpl in H; [|discriminate].
  destruct (papi_tv db p) as [b|]; simpl in H; [|discriminate].
  inversion H. eauto.
Qed.

(** C4, amended.  A variable whose baseline is exactly 0 has an undefined
    (NULL) match rate for every employee.  In the group rollup a row with
    an undefined rate adds no term to the numerator, so it is never
    counted as a rate of zero there; but its weight is part of the
    denominator: a group match is the sum of [rate * weight] over the
    rows with a defined rate, divided by the sum of the weights of all
    rows of the group, those of the rows with an undefined rate
    included. *)
Theorem undefined_rate_in_rollup (db : database) (p : params)
    (rows : list tv_row) (ts : list tgv_row)
    (Hrows : all_tv db p = Sql.Ok rows)
    (Hts : tgv_match rows (tv_map db) = Sql.Ok ts) :
  (forall x, In x rows -> tv_baseline_score x = Some 0%Qc -> tv_match_rate x = None)
  /\ (forall t, In t ts ->
        let g := tgv_group (tgv_join rows (tv_map db)) (tgv_employee_id t, tgv_name t) in
        match rollup_terms g with
        | [] => tgv_match_rate t = None
        | terms =>
            tgv_match_rate t = Some (weighted_sum terms / Sql.total (rollup_weights g))%Qc
        end
        /\ rollup_terms g = rollup_terms (filter rate_defined g)
        /\ Permutation (rollup_weights g)
                       (rollup_weights (filter rate_defined g)
                        ++ rollup_weights (filter (fun am => negb (rate_defined am)) g))).
Proof.
  split.
  - intros x Hx Hz. destruct (all_tv_inv _ _ Hrows) as (n & b & Hn & Hb & ->).
    apply in_app_or in Hx. destruct Hx as [Hx | Hx];
      [exact (@numeric_tv_zero_baseline db p n x Hn Hx Hz)|].
    apply in_app_or in Hx. destruct Hx as [Hx | Hx];
      [exact (@papi_tv_zero_baseline db p b x Hb Hx Hz)|].
    rewrite (@categorical_tv_baseline db p x Hx) in Hz. discriminate Hz.
  - intros t Ht g.
    pose proof (proj2 (tgv_match_rows _ _ Hts t Ht)) as D. fold g in D. simpl in D.
    apply tgv_division in D. repeat apply conj.
    + destruct (rollup_terms g) as [|t0 tl]; [exact D|]. now destruct D as [_ ->].
    + symmetry. apply rollup_terms_defined.
    + apply rollup_weights_split.
Qed.

(** In [zero_baseline_db] Bob's [iq] rate is undefined and his group
    match is 37.5. *)
Lemma undefined_rate_in_rollup_witness :
  exists rows ts,
    all_tv zero_baseline_db fallback_params = Sql.Ok rows
    /\ tgv_match rows (tv_map zero_baseline_db) = Sql.Ok ts
    /\ (forall x, In x rows -> tv_baseline_score x = Some 0%Qc -> tv_match_rate x = None).
Proof.
  destruct (all_tv zero_baseline_db fallback_params) as [rows|] eqn:E;
    [|vm_compute in E; discriminate].
  destruct (tgv_match rows (tv_map zero_baseline_db)) as [ts|] eqn:T.
  - exists rows, ts. split; [reflexivity|]. split; [exact T|].
    exact (proj1 (undefined_rate_in_rollup zero_baseline_db fallback_params E T)).
  - exfalso. vm_compute in E. inversion E; subst rows. vm_compute in T. discriminate.
Defined.

(* ------------------------------------------------------------------ *)
(** ** Division by zero *)

Lemma numeric_tv_ok db p : exists rows, numeric_tv db p = Sql.Ok rows.
Proof.
  unfold numeric_tv. apply mapM_total. intros [sc bn] _.
  destruct (numeric_match_rate_ok (bn_baseline_score bn) (sc_user_score sc)) as [r E].
  rewrite E. simpl. eauto.
Qed.

Lemma papi_tv_ok db p : exists rows, papi_tv db p = Sql.Ok rows.
Proof.
  unfold papi_tv. apply mapM_total. intros [ps bp] _.
  destruct (papi_match_rate_ok (bp_is_reverse bp) (bp_baseline_score bp) (ps_score ps))
    as [r E].
  rewrite E. simpl. eauto.
Qed.

(** The three per-variable divisions are guarded: [all_tv] always
    evaluates. *)
Lemma all_tv_ok db p : exists rows, all_tv db p = Sql.Ok rows.
Proof.
  unfold all_tv.
  destruct (numeric_tv_ok db p) as [n ->], (papi_tv_ok db p) as [b ->].
  simpl. eauto.
Qed.

(** C7 does not hold of the query: the division of [tgv_match] has no
    NULLIF, and a group whose weights sum to 0 aborts the statement. *)
Theorem zero_weight_group_division_by_zero :
  talent_match zero_weight_db fallback_params = Sql.DivisionByZero.
Proof. vm_compute. reflexivity. Qed.

(* ------------------------------------------------------------------ *)
(** ** Missing raw values *)

(** Bob's defined rate is 50 for [gtq]; his missing [iq] adds its weight
    and his missing [mbti] counts as 0: 50 / 4, not 50. *)
Lemma missing_values_run :
  talent_match missing_values_db fallback_params
  = Sql.Ok [ranked "A" "Ann" (int 100); ranked "B" "Bob" (ratio 25 2)].
Proof. sql_eval. Qed.


Lemma defined_text_map_Some (xs : list string) : Agg.defined_text (map Some xs) = xs.
Proof.
  unfold Agg.defined_text. induction xs as [|x t IH]; simpl; [reflexivity | now rewrite IH].
Qed.

Lemma in_all_numeric_scores_psych db q col :
  In q (profiles_psych db) -> In col psych_columns ->
  In {| sc_employee_id := p_employee_id q;
        sc_tv_name := fst col;
        sc_user_score := snd col q |} (all_numeric_scores db).
Proof.
  intros Hq Hc. unfold all_numeric_scores. apply in_or_app. right.
  apply in_flat_map. exists col. split; [exact Hc|].
  apply in_map_iff. exists q. split; [reflexivity | exact Hq].
Qed.

Lemma categorical_missing_value db p q bc :
  In q (profiles_psych db) -> In bc (baseline_cat db p) ->
  (bc_tv_name bc = "mbti" /\ p_mbti q = None)
  \/ (bc_tv_name bc = "disc" /\ p_disc q = None) ->
  In {| tv_employee_id := p_employee_id q;
        tv_name := bc_tv_name bc;
        tv_baseline_score := Some 1%Qc;
        tv_user_score := Some 1%Qc;
        tv_match_rate := Some 0%Qc |} (categorical_tv db p).
Proof.
  intros Hq Hbc Hmiss. unfold categorical_tv. apply in_flat_map.
  exists q. split; [exact Hq|]. apply in_map_iff. exists bc. split; [|exact Hbc].
  destruct Hmiss as [[E1 E2] | [E1 E2]]; rewrite E1, E2; reflexivity.
Qed.


(* ------------------------------------------------------------------ *)
(** ** Ranking *)

Lemma desc_leb_total (a b : Sql.num) : desc_leb a b = true \/ desc_leb b a = true.
Proof.
  destruct a as [x|], b as [y|]; simpl; auto.
  destruct (Qc_leb_total x y); auto.
Qed.

Lemma desc_leb_trans (a b c : Sql.num) :
  desc_leb a b = true -> desc_leb b c = true -> desc_leb a c = true.
Proof.
  destruct a as [x|], b as [y|], c as [z|]; simpl; try discriminate; auto.
  intros H1 H2. exact (Qc_leb_trans _ _ _ H2 H1).
Qed.

Lemma desc_leb_antisym (a b : Sql.num) :
  desc_leb a b = true -> desc_leb b a = true -> a = b.
Proof.
  destruct a as [x|], b as [y|]; simpl; try discriminate; auto.
  rewrite !Qc_leb_le. intros H1 H2. f_equal. now apply Qcle_antisym.
Qed.

Lemma order_by_perm (rows : list ranked_row) :
  Permutation (order_by_final_match_rate_desc rows) rows.
Proof. apply sort_perm. Qed.

Lemma order_by_sorted (rows : list ranked_row) :
  StronglySorted ranked_before (order_by_final_match_rate_desc rows).
Proof.
  apply (sort_strongly_sorted rank_leb).
  - intros a b. apply desc_leb_total.
  - intros a b c. apply desc_leb_trans.
Qed.

Lemma in_firstn {A : Type} (n : nat) (l : list A) (x : A) : In x (firstn n l) -> In x l.
Proof.
  revert n. induction l as [|y t IH]; intros [|n]; simpl; try tauto.
  intros [E | H]; [now left | right; eauto].
Qed.

Section Sorted.
Context {A : Type} (R : A -> A -> Prop).

Lemma strongly_sorted_firstn (n : nat) (l : list A) :
  StronglySorted R l -> StronglySorted R (firstn n l).
Proof.
  intros H. revert n. induction H as [|x t Ht IH Hx]; intros [|n]; simpl;
    try constructor; auto.
  rewrite Forall_forall in *. intros y Hy. apply Hx.
  eapply in_firstn, Hy.
Qed.

Lemma strongly_sorted_map {B : Type} (S : B -> B -> Prop) (f : A -> B) (l : list A) :
  (forall a b, R a b -> S (f a) (f b)) ->
  StronglySorted R l -> StronglySorted S (map f l).
Proof.
  intros HRS. induction 1 as [|x t Ht IH Hx]; simpl; constructor; auto.
  rewrite Forall_forall in *. intros y Hy.
  apply in_map_iff in Hy. destruct Hy as (a & <- & Ha). auto.
Qed.

(** Two sorted arrangements of the same values are the same list, when
    the order is antisymmetric. *)
Lemma sorted_perm_unique (l1 l2 : list A) :
  (forall a b, R a b -> R b a -> a = b) ->
  Permutation l1 l2 -> StronglySorted R l1 -> StronglySorted R l2 -> l1 = l2.
Proof.
  intros Hanti. revert l2. induction l1 as [|x t IH]; intros l2 HP H1 H2.
  - apply Permutation_nil in HP. now subst.
  - destruct l2 as [|y u]; [apply Permutation_sym, Permutation_nil in HP; discriminate|].
    inversion H1 as [|? ? Ht Hx]; subst. inversion H2 as [|? ? Hu Hy]; subst.
    rewrite Forall_forall in Hx, Hy.
    assert (E : x = y).
    { assert (Ix : In x (y :: u)) by (eapply Permutation_in; [exact HP | now left]).
      assert (Iy : In y (x :: t))
        by (eapply Permutation_in; [apply Permutation_sym; exact HP | now left]).
      destruct Ix as [-> | Ix]; [reflexivity|].
      destruct Iy as [-> | Iy]; [reflexivity|].
      apply Hanti; auto. }
    subst y. f_equal. apply IH; auto.
    eapply Permutation_cons_inv; exact HP.
Qed.

End Sorted.

(** Any two orderings the ORDER BY clause admits list the same scores at
    the same places, hence also after LIMIT. *)
Lemma admissible_orders_agree_on_scores (s1 s2 : list ranked_row) (n : nat) :
  Permutation s1 s2 ->
  StronglySorted ranked_before s1 -> StronglySorted ranked_before s2 ->
  map out_final_match_rate (firstn n s1) = map out_final_match_rate (firstn n s2).
Proof.
  intros HP H1 H2. rewrite <- !firstn_map. f_equal.
  apply (sorted_perm_unique (R := key_before)).
  - intros a b. apply desc_leb_antisym.
  - now apply Permutation_map.
  - apply (strongly_sorted_map (R := ranked_before)); auto.
  - apply (strongly_sorted_map (R := ranked_before)); auto.
Qed.

(** The rows before ORDER BY and LIMIT. *)
Lemma talent_match_limit_inv (n : nat) db p out :
  talent_match_limit n db p = Sql.Ok out ->
  exists rows ts,
    all_tv db p = Sql.Ok rows
    /\ tgv_match rows (tv_map db) = Sql.Ok ts
    /\ out = ranked_select n (final_match ts (talent_group_weights db)) (employees db).
Proof.
  unfold talent_match_limit. intros H.
  destruct (all_tv db p) as [rows|]; simpl in H; [|discriminate].
  destruct (tgv_match rows (tv_map db)) as [ts|] eqn:T; simpl in H; [|discriminate].
  inversion H. exists rows, ts. auto.
Qed.

(** Final scores 90, 90 and 80 with a bound of 2: the row with 80 is cut. *)
Lemma limit_two_of_three :
  ranked_select 2
    [ {| fm_employee_id := "A"; fm_final_match_rate := int 90 |};
      {| fm_employee_id := "B"; fm_final_match_rate := int 90 |};
      {| fm_employee_id := "C"; fm_final_match_rate := int 80 |} ]
    [staff "C" "Cid"; staff "B" "Bob"; staff "A" "Ann"]
  = [ranked "B" "Bob" (int 90); ranked "A" "Ann" (int 90)].
Proof. sql_eval. Qed.

Lemma tie_run :
  talent_match tie_db fallback_params
  = Sql.Ok [ranked "A" "Ann" (int 100); ranked "B" "Bob" (int 100)].
Proof. sql_eval. Qed.

Lemma reverse_stored_run :
  talent_match reverse_stored_db fallback_params
  = Sql.Ok [ranked "F" "Fay" (int 100); ranked "E" "Eve" (int 100);
            ranked "D" "Dan" (int 100); ranked "C" "Cid" (int 100);
            ranked "B" "Bob" (int 100); ranked "A" "Ann" (int 100)].
Proof. sql_eval. Qed.


Lemma allowed_sorted (n : nat) (joined out : list ranked_row) :
  order_by_limit_allows n joined out ->
  StronglySorted ranked_before out /\ List.length out <= n.
Proof.
  intros (s & _ & Hs & ->). split.
  - now apply strongly_sorted_firstn.
  - apply firstn_le_length.
Qed.

Lemma allowed_scores (n : nat) (joined out out' : list ranked_row) :
  order_by_limit_allows n joined out -> order_by_limit_allows n joined out' ->
  scores out = scores out'.
Proof.
  intros (s & Ps & Hs & ->) (s' & Ps' & Hs' & ->). unfold scores.
  apply admissible_orders_agree_on_scores; auto.
  rewrite Ps. now apply Permutation_sym.
Qed.

Lemma ranked_select_allowed (n : nat) (fm : list final_row) (es : list employee) :
  order_by_limit_allows n (ranked_join fm es) (ranked_select n fm es).
Proof.
  exists (order_by_final_match_rate_desc (ranked_join fm es)).
  split; [apply order_by_perm|]. split; [apply order_by_sorted | reflexivity].
Qed.



(* ------------------------------------------------------------------ *)
(** ** Who is listed *)

Lemma pair_eqb_eq (x y : string * string) : pair_eqb x y = true <-> x = y.
Proof.
  destruct x as [a b], y as [c d]. unfold pair_eqb. simpl.
  rewrite andb_true_iff, !String.eqb_eq. split.
  - intros [-> ->]. reflexivity.
  - intros E. inversion E. auto.
Qed.

Lemma in_distinct_by {A : Type} (eqb : A -> A -> bool) (x : A) (l : list A) :
  (forall a b, eqb a b = true <-> a = b) ->
  (In x (Sql.distinct_by eqb l) <-> In x l).
Proof.
  intros Heqb. induction l as [|a t IH]; simpl; [tauto|].
  rewrite filter_In, IH. split.
  - intros [E | [H _]]; auto.
  - intros [E | H]; auto.
    destruct (eqb a x) eqn:E; [left; now apply Heqb|].
    right. split; [exact H | reflexivity].
Qed.

Lemma in_tgv_keys (rows : list tv_row) (m : list tv_mapping) (id tg : string) :
  In (id, tg) (map tgv_key (tgv_join rows m))
  <-> exists x mm, In x rows /\ In mm m /\ tv_name x = m_tv_name mm
                   /\ tv_employee_id x = id /\ m_tgv_name mm = tg.
Proof.
  unfold tgv_join, tgv_key. rewrite in_map_iff. split.
  - intros ([x mm] & E & Hin). simpl in E. inversion E; subst.
    apply in_flat_map in Hin. destruct Hin as (x' & Hx' & Hin).
    apply in_map_iff in Hin. destruct Hin as (mm' & E' & Hmm).
    inversion E'; subst. apply filter_In in Hmm. destruct Hmm as [Hmm Hn].
    apply String.eqb_eq in Hn. exists x, mm. auto.
  - intros (x & mm & Hx & Hmm & Hn & <- & <-).
    exists (x, mm). split; [reflexivity|].
    apply in_flat_map. exists x. split; [exact Hx|].
    apply in_map_iff. exists mm. split; [reflexivity|].
    apply filter_In. split; [exact Hmm | now apply String.eqb_eq].
Qed.

Lemma in_tgv_match (rows : list tv_row) (m : list tv_mapping) (ts : list tgv_row)
      (id tg : string) :
  tgv_match rows m = Sql.Ok ts ->
  ((exists t, In t ts /\ tgv_employee_id t = id /\ tgv_name t = tg)
   <-> In (id, tg) (map tgv_key (tgv_join rows m))).
Proof.
  intros H. split.
  - intros (t & Ht & <- & <-). exact (proj1 (tgv_match_rows _ _ H t Ht)).
  - intros Hk. unfold tgv_match in H.
    apply (in_distinct_by pair_eqb _ _ pair_eqb_eq) in Hk.
    destruct (mapM_in_ok _ _ H _ Hk) as (t & Ht & Hf).
    destruct (Sql.div _ _); simpl in Hf; [|discriminate].
    inversion Hf; subst. exists {| tgv_employee_id := id; tgv_name := tg; tgv_match_rate := a |}.
    simpl. auto.
Qed.

Lemma in_final_join (ts : list tgv_row) (gw : list group_weight) t g :
  In (t, g) (final_join ts gw) <-> In t ts /\ In g gw /\ tgv_name t = g_tgv_name g.
Proof.
  unfold final_join. rewrite in_flat_map. split.
  - intros (t' & Ht' & Hin). apply in_map_iff in Hin.
    destruct Hin as (g' & E & Hg). inversion E; subst.
    apply filter_In in Hg. destruct Hg as [Hg Hn]. apply String.eqb_eq in Hn. auto.
  - intros (Ht & Hg & Hn). exists t. split; [exact Ht|].
    apply in_map_iff. exists g. split; [reflexivity|].
    apply filter_In. split; [exact Hg | now apply String.eqb_eq].
Qed.

Lemma in_final_match_ids (ts : list tgv_row) (gw : list group_weight) (id : string) :
  (exists f, In f (final_match ts gw) /\ fm_employee_id f = id)
  <-> exists t g, In t ts /\ In g gw /\ tgv_name t = g_tgv_name g
                  /\ tgv_employee_id t = id.
Proof.
  unfold final_match. split.
  - intros (f & Hf & <-). apply in_map_iff in Hf. destruct Hf as (k & <- & Hk).
    apply in_distinct, in_map_iff in Hk. destruct Hk as ([t g] & E & Hin).
    apply in_final_join in Hin. simpl in *. exists t, g. tauto.
  - intros (t & g & Ht & Hg & Hn & <-).
    eexists. split.
    + apply in_map_iff. exists (tgv_employee_id t). split; [reflexivity|].
      apply in_distinct, in_map_iff. exists (t, g). split; [reflexivity|].
      apply in_final_join. auto.
    + reflexivity.
Qed.

Lemma in_ranked_join (fm : list final_row) (es : list employee) (r : ranked_row) :
  In r (ranked_join fm es)
  <-> exists f e, In f fm /\ In e es /\ fm_employee_id f = e_employee_id e
                  /\ r = {| out_employee_id := e_employee_id e;
                            out_fullname := e_fullname e;
                            out_final_match_rate := fm_final_match_rate f |}.
Proof.
  unfold ranked_join. rewrite in_flat_map. split.
  - intros (e & He & Hin). apply in_map_iff in Hin. destruct Hin as (f & <- & Hf).
    apply filter_In in Hf. destruct Hf as [Hf Hn]. apply String.eqb_eq in Hn.
    exists f, e. auto.
  - intros (f & e & Hf & He & Hn & ->). exists e. split; [exact He|].
    apply in_map_iff. exists f. split; [reflexivity|].
    apply filter_In. split; [exact Hf | now apply String.eqb_eq].
Qed.

(** Which employees the joins keep, before ORDER BY and LIMIT. *)
Lemma ranked_join_membership db rows ts (id : string) :
  tgv_match rows (tv_map db) = Sql.Ok ts ->
  ((exists f, In f (final_match ts (talent_group_weights db)) /\ fm_employee_id f = id)
   <-> has_rollup_row db rows id).
Proof.
  intros H. rewrite in_final_match_ids. unfold has_rollup_row, tv_map in *. split.
  - intros (t & g & Ht & Hg & Hn & Hid).
    assert (K : In (id, tgv_name t) (map tgv_key (tgv_join rows (talent_variables_mapping db)))).
    { apply (in_tgv_match _ _ _ _ H). eauto. }
    apply in_tgv_keys in K. destruct K as (x & mm & Hx & Hmm & Hxn & Hxid & Hmn).
    exists x, mm, g. repeat split; auto. congruence.
  - intros (x & mm & g & Hx & Hmm & Hg & Hid & Hn & Hgn).
    assert (K : In (id, m_tgv_name mm)
                   (map tgv_key (tgv_join rows (talent_variables_mapping db)))).
    { apply in_tgv_keys. exists x, mm. auto. }
    apply (in_tgv_match _ _ _ _ H) in K. destruct K as (t & Ht & Htid & Htn).
    exists t, g. repeat split; auto. congruence.
Qed.

Lemma null_score_run :
  talent_match null_score_db fallback_params
  = Sql.Ok [ranked "B" "Bob" None; ranked "A" "Ann" (int 100)].
Proof. sql_eval. Qed.

(** C9, as the specification words it, fails: Bob has no defined group
    match, so his final score is NULL, and he is listed, first. *)
Lemma undefined_final_score_is_listed :
  ~ (forall db p out r,
       talent_match db p = Sql.Ok out -> In r out -> out_final_match_rate r <> None).
Proof.
  intros H.
  apply (H _ _ _ (ranked "B" "Bob" None) null_score_run); [now left | reflexivity].
Qed.

(** C9, amended.  The query filters on no score.  Every listed employee is
    in [employees] and has a reading row whose variable is mapped to a
    group with a group weight; an employee without such a row is listed
    nowhere.  Conversely, unless the row bound cut the list, every
    employee with such a row is listed, with whatever final score the
    rollup gave, NULL included. *)
Theorem ranked_output_membership (db : database) (p : params) (out : list ranked_row)
    (H : talent_match db p = Sql.Ok out) :
  exists rows,
    all_tv db p = Sql.Ok rows
    /\ (forall r, In r out ->
          has_rollup_row db rows (out_employee_id r)
          /\ exists e, In e (employees db)
                       /\ e_employee_id e = out_employee_id r
                       /\ e_fullname e = out_fullname r)
    /\ (List.length out < 200 ->
        forall e, In e (employees db) -> has_rollup_row db rows (e_employee_id e) ->
          exists score, In (ranked (e_employee_id e) (e_fullname e) score) out).
Proof.
  destruct (talent_match_limit_inv _ _ _ H) as (rows & ts & Hrows & Hts & ->).
  exists rows. split; [exact Hrows|].
  unfold ranked_select, limit.
  set (j := ranked_join (final_match ts (talent_group_weights db)) (employees db)).
  split.
  - intros r Hr. apply in_firstn in Hr.
    apply (Permutation_in _ (order_by_perm j)) in Hr.
    apply in_ranked_join in Hr. destruct Hr as (f & e & Hf & He & Hid & ->). simpl.
    split.
    + apply (ranked_join_membership db rows (e_employee_id e) Hts).
      exists f. split; assumption.
    + exists e. auto.
  - intros Hlen e He Hrow.
    apply (ranked_join_membership db rows (e_employee_id e) Hts) in Hrow.
    destruct Hrow as (f & Hf & Hid).
    exists (fm_final_match_rate f).
    rewrite firstn_all2.
    + apply (Permutation_in _ (Permutation_sym (order_by_perm j))).
      apply in_ranked_join. exists f, e. auto.
    + rewrite length_firstn in Hlen. lia.
Qed.

Lemma ranked_output_membership_witness :
  talent_match null_score_db fallback_params
  = Sql.Ok [ranked "B" "Bob" None; ranked "A" "Ann" (int 100)]
  /\ exists rows,
       all_tv null_score_db fallback_params = Sql.Ok rows
       /\ has_rollup_row null_score_db rows "B".
Proof.
  split; [exact null_score_run|].
  destruct (ranked_output_membership null_score_db fallback_params null_score_run)
    as (rows & Hrows & Hin & _).
  exists rows. split; [exact Hrows|].
  exact (proj1 (Hin (ranked "B" "Bob" None) (or_introl eq_refl))).
Defined.

(* ------------------------------------------------------------------ *)
(** ** The manual ids in the query text *)

Module TextFacts.
Import Text TextLayout.

Lemma length_append (a b : string) :
  String.length (a ++ b)%string = String.length a + String.length b.
Proof. induction a as [|c a IH]; simpl; [reflexivity | now rewrite IH]. Qed.

Lemma append_assoc (a b c : string) : ((a ++ b) ++ c = a ++ (b ++ c))%string.
Proof. induction a as [|x a IH]; simpl; [reflexivity | now rewrite IH]. Qed.

Lemma append_empty_r (a : string) : (a ++ "")%string = a.
Proof. induction a as [|x a IH]; simpl; [reflexivity | now rewrite IH]. Qed.

Lemma tail_sql_length (ids : list string) :
  List.length ids <= String.length (tail_sql ids).
Proof.
  induction ids as [|id t IH]; simpl; [lia|]. rewrite length_append. lia.
Qed.

Lemma concat_quoted (id : string) (ids : list string) :
  String.concat "," (map quoted (id :: ids)) = (quoted id ++ tail_sql ids)%string.
Proof.
  revert id. induction ids as [|y t IH]; intros id.
  - simpl. now rewrite append_empty_r.
  - change (String.concat "," (map quoted (id :: y :: t)))
      with (quoted id ++ "," ++ String.concat "," (map quoted (y :: t)))%string.
    rewrite IH. reflexivity.
Qed.

Lemma manual_array_sql_cons (id : string) (ids : list string) :
  manual_array_sql (id :: ids)
  = ("ARRAY[" ++ String quote (id ++ String quote (tail_sql ids ++ "]::text[]")))%string.
Proof.
  unfold manual_array_sql. rewrite concat_quoted. unfold quoted.
  simpl. do 7 f_equal.
  rewrite !append_assoc. reflexivity.
Qed.

Lemma string_constant_body_plain (v r : string) :
  quote_free v -> ends_constant r ->
  string_constant_body (v ++ String quote r) = Some (v, r).
Proof.
  unfold quote_free, string_constant_body.
  induction v as [|c v IH]; simpl; intros Hv Hr.
  - change (is_quote quote) with true. cbv iota.
    destruct r as [|c2 t2]; [reflexivity|]. simpl in Hr. destruct Hr as [Hq Hb].
    simpl. now rewrite Hq, Hb.
  - destruct (is_quote c); [discriminate|]. simpl in Hv.
    now rewrite (IH Hv Hr).
Qed.

Lemma string_constant_plain (v r : string) :
  quote_free v -> ends_constant r ->
  string_constant (String quote (v ++ String quote r)) = Some (v, r).
Proof. intros Hv Hr. unfold string_constant. simpl. now apply string_constant_body_plain. Qed.

Lemma more_elements_S (fuel : nat) (s : string) :
  more_elements (S fuel) s
  = match skip_blanks s with
    | String c r =>
        if is_close c then Some ([], r)
        else if is_comma c then
          match string_constant r with
          | Some (v, r2) =>
              option_map (fun lr => (v :: fst lr, snd lr)) (more_elements fuel r2)
          | None => None
          end
        else None
    | EmptyString => None
    end.
Proof. reflexivity. Qed.

Lemma ends_constant_tail (ids : list string) (r : string) :
  ends_constant (tail_sql ids ++ String "]" r).
Proof. destruct ids; split; reflexivity. Qed.

Lemma more_elements_plain (ids : list string) (fuel : nat) (r : string) :
  Forall quote_free ids -> List.length ids < fuel ->
  more_elements fuel (tail_sql ids ++ String "]" r) = Some (ids, r).
Proof.
  revert fuel. induction ids as [|id t IH]; intros fuel Hq Hf.
  - destruct fuel as [|fuel]; [inversion Hf|]. reflexivity.
  - destruct fuel as [|fuel]; [inversion Hf|].
    inversion Hq as [|? ? Hid Ht]; subst. simpl in Hf.
    rewrite more_elements_S.
    change (tail_sql (id :: t) ++ String "]" r)%string
      with (String "," (String quote ((id ++ String quote "") ++ tail_sql t) ++ String "]" r))%string.
    change (skip_blanks (String "," ?x)) with (String "," x).
    change (is_close ",") with false. change (is_comma ",") with true. cbv iota.
    change (String quote ((id ++ String quote "") ++ tail_sql t) ++ String "]" r)%string
      with (String quote (((id ++ String quote "") ++ tail_sql t) ++ String "]" r))%string.
    rewrite !append_assoc.
    change (String quote "" ++ tail_sql t ++ String "]" r)%string
      with (String quote (tail_sql t ++ String "]" r)).
    rewrite string_constant_plain by (auto using ends_constant_tail).
    rewrite IH by (auto; lia). reflexivity.
Qed.

Lemma read_plain (ids : list string) :
  Forall quote_free ids -> read_text_array (manual_array_sql ids) = Some ids.
Proof.
  intros Hq. destruct ids as [|id t]; [reflexivity|].
  inversion Hq as [|? ? Hid Ht]; subst.
  rewrite manual_array_sql_cons. unfold read_text_array.
  change (strip_prefix "ARRAY[" ("ARRAY[" ++ ?x)%string) with (Some x).
  cbv iota. unfold elements.
  change (skip_blanks (String quote ?x)) with (String quote x).
  change (is_close quote) with false. cbv iota.
  rewrite string_constant_plain by (auto using ends_constant_tail).
  rewrite more_elements_plain.
  - reflexivity.
  - assumption.
  - rewrite length_append. pose proof (tail_sql_length t). lia.
Qed.

Lemma string_constant_from_length (s : string) :
  forall st v r,
    string_constant_from st s = Some (v, r) ->
    String.length v + count_quotes v
    + (match st with in_constant => 1 | _ => 0 end) + String.length r
    <= String.length s.
Proof.
  induction s as [|c t IH]; intros st v r H.
  - destruct st; simpl in H; [discriminate| |]; inversion H; subst; simpl; lia.
  - destruct st as [| |nl]; cbn [string_constant_from] in H.
    + destruct (is_quote c) eqn:Q.
      * apply IH in H. simpl in *. lia.
      * destruct (string_constant_from in_constant t) as [[v' r']|] eqn:E; simpl in H;
          [|discriminate].
        inversion H; subst. apply IH in E. simpl in *. rewrite Q. lia.
    + destruct (is_quote c) eqn:Q.
      * destruct (string_constant_from in_constant t) as [[v' r']|] eqn:E; simpl in H;
          [|discriminate].
        inversion H; subst. apply IH in E. simpl in *.
        change (is_quote quote) with true. cbv iota. lia.
      * destruct (is_blank c).
        -- apply IH in H. simpl in *. lia.
        -- inversion H; subst. simpl. lia.
    + destruct (is_quote c) eqn:Q.
      * destruct nl.
        -- apply IH in H. simpl in *. lia.
        -- inversion H; subst. simpl. lia.
      * destruct (is_blank c).
        -- apply IH in H. simpl in *. lia.
        -- inversion H; subst. simpl. lia.
Qed.

Lemma skip_blanks_length (s : string) :
  String.length (skip_blanks s) <= String.length s.
Proof.
  induction s as [|c t IH]; simpl; [lia|]. destruct (is_blank c); simpl; lia.
Qed.

Lemma string_constant_length (s v r : string) :
  string_constant s = Some (v, r) -> cost v + String.length r <= String.length s.
Proof.
  unfold string_constant, cost. intros H. pose proof (skip_blanks_length s) as L.
  destruct (skip_blanks s) as [|c t]; [discriminate|].
  destruct (is_quote c); [|discriminate].
  apply string_constant_from_length in H.
  simpl in L. lia.
Qed.

Lemma more_elements_length (fuel : nat) :
  forall s l r, more_elements fuel s = Some (l, r) ->
    tail_cost l + 1 + String.length r <= String.length s.
Proof.
  induction fuel as [|fuel IH]; intros s l r H; [discriminate|].
  rewrite more_elements_S in H. pose proof (skip_blanks_length s) as L.
  destruct (skip_blanks s) as [|c t]; [discriminate|]. simpl in L.
  destruct (is_close c).
  - inversion H; subst. simpl. lia.
  - destruct (is_comma c); [|discriminate].
    destruct (string_constant t) as [[v r2]|] eqn:E; [|discriminate].
    destruct (more_elements fuel r2) as [[l' r']|] eqn:M; simpl in H; [|discriminate].
    inversion H; subst. apply IH in M. apply string_constant_length in E.
    simpl. lia.
Qed.

Lemma elements_length (s : string) (l : list string) (r : string) :
  elements s = Some (l, r) ->
  tail_cost l + String.length r <= String.length s.
Proof.
  unfold elements. intros H. pose proof (skip_blanks_length s) as L.
  destruct (skip_blanks s) as [|c t]; [discriminate|]. simpl in L.
  destruct (is_close c).
  - inversion H; subst. simpl. lia.
  - destruct (string_constant s) as [[v r2]|] eqn:E; [|discriminate].
    destruct (more_elements _ r2) as [[l' r']|] eqn:M; simpl in H; [|discriminate].
    inversion H; subst. apply more_elements_length in M.
    apply string_constant_length in E. simpl. lia.
Qed.

Lemma tail_sql_cost (ids : list string) :
  String.length (tail_sql ids) + total_quotes ids = tail_cost ids.
Proof.
  induction ids as [|id t IH]; simpl; [reflexivity|].
  unfold quoted, cost. simpl. rewrite !length_append. simpl. lia.
Qed.

Lemma total_quotes_zero (ids : list string) :
  total_quotes ids = 0 -> Forall quote_free ids.
Proof.
  induction ids as [|id t IH]; simpl; intros H; constructor.
  - unfold quote_free. lia.
  - apply IH. lia.
Qed.

Lemma read_only_plain (ids : list string) :
  read_text_array (manual_array_sql ids) = Some ids -> Forall quote_free ids.
Proof.
  destruct ids as [|id t]; [constructor|].
  rewrite manual_array_sql_cons. unfold read_text_array.
  change (strip_prefix "ARRAY[" ("ARRAY[" ++ ?x)%string) with (Some x).
  cbv iota. intros H.
  destruct (elements _) as [[l r]|] eqn:E; [|discriminate].
  destruct (String.eqb_spec r "::text[]") as [-> | N]; [|discriminate].
  inversion H; subst. apply elements_length in E.
  apply total_quotes_zero.
  pose proof (tail_sql_cost t) as C.
  simpl in E. rewrite !length_append in E. simpl in E. rewrite !length_append in E.
  simpl in E. unfold cost in E. simpl total_quotes. lia.
Qed.

(** *** The [params] row read back from the statement *)

Local Open Scope string_scope.

Lemma strip_prefix_append (a b : string) : strip_prefix a (a ++ b) = Some b.
Proof.
  induction a as [|c a IH]; simpl; [reflexivity|]. now rewrite Ascii.eqb_refl.
Qed.

Lemma expect_append (a b : string) : expect a (a ++ b) = Sql.Ok b.
Proof. unfold expect. now rewrite strip_prefix_append. Qed.

Lemma until_colon_plain (a b : string) :
  has_colon a = false ->
  until_colon (a ++ String ":" b) = (a, String ":" b).
Proof.
  induction a as [|c a IH]; simpl; intros H; [reflexivity|].
  apply orb_false_iff in H. destruct H as [Hc Ha]. rewrite Hc, (IH Ha). reflexivity.
Qed.

Lemma uint_no_colon (d : Decimal.uint) : has_colon (NilEmpty.string_of_uint d) = false.
Proof. induction d; simpl; auto. Qed.

Lemma str_uint_no_colon (d : Decimal.uint) : has_colon (NilZero.string_of_uint d) = false.
Proof. destruct d; try reflexivity; apply (uint_no_colon (_ _)). Qed.

Lemma str_int_no_colon (z : Z) : has_colon (str_int z) = false.
Proof.
  unfold str_int. destruct (Z.to_int z) as [d|d]; simpl; apply str_uint_no_colon.
Qed.

Lemma role_sql_no_colon (role : option Z) : has_colon (role_sql role) = false.
Proof. destruct role; [apply str_int_no_colon | reflexivity]. Qed.

Lemma cast_int_written (z : Z) :
  cast_int (str_int z) = if fits_int z then Sql.Ok z else Sql.IntegerOutOfRange.
Proof.
  unfold cast_int, str_int, fits_int. rewrite NilZero.isi.
  - now rewrite DecimalZ.of_to.
  - destruct z; simpl; try discriminate.
    intros E. inversion E. now apply Unsigned.to_uint_nonnil in H0.
  - destruct z; simpl; try discriminate.
    intros E. inversion E. now apply Unsigned.to_uint_nonnil in H0.
Qed.

Lemma str_uint_not_null (d : Decimal.uint) (s : string) :
  String.eqb (NilZero.string_of_uint d) s = true -> s <> "NULL".
Proof. destruct d; simpl; destruct s as [|c s]; try discriminate; intros H E; inversion E; subst; discriminate H. Qed.

Lemma str_int_not_null (z : Z) : String.eqb (str_int z) "NULL" = false.
Proof.
  unfold str_int. destruct (Z.to_int z) as [d|d]; [|reflexivity]. simpl.
  destruct (String.eqb _ _) eqn:E; [|reflexivity].
  exfalso. exact (@str_uint_not_null _ _ E eq_refl).
Qed.

Lemma manual_array_sql_body (ids : list string) :
  manual_array_sql ids = "ARRAY[" ++ array_body ids ++ "]::text[]".
Proof.
  destruct ids as [|id t]; [reflexivity|].
  unfold manual_array_sql. now rewrite concat_quoted.
Qed.

Lemma elements_plain (ids : list string) (r : string) :
  Forall quote_free ids ->
  elements (array_body ids ++ String "]" r) = Some (ids, r).
Proof.
  intros Hq. destruct ids as [|id t]; [reflexivity|].
  inversion Hq as [|? ? Hid Ht]; subst.
  unfold array_body, quoted.
  change (String quote (id ++ String quote "") ++ tail_sql t)%string
    with (String quote ((id ++ String quote "") ++ tail_sql t))%string.
  change (String quote ((id ++ String quote "") ++ tail_sql t) ++ String "]" r)%string
    with (String quote (((id ++ String quote "") ++ tail_sql t) ++ String "]" r))%string.
  rewrite !append_assoc.
  change (String quote "" ++ tail_sql t ++ String "]" r)%string
    with (String quote (tail_sql t ++ String "]" r)).
  unfold elements.
  change (skip_blanks (String quote ?x)) with (String quote x).
  change (is_close quote) with false. cbv iota.
  rewrite string_constant_plain by (auto using ends_constant_tail).
  rewrite more_elements_plain.
  - reflexivity.
  - assumption.
  - rewrite length_append. pose proof (tail_sql_length t). lia.
Qed.

Lemma build_match_sql_parts (body : string) (ids : list string) (role : option Z) (m : Z) :
  build_match_sql body ids role m
  = (newline ++ "WITH params AS (" ++ newline ++ "    SELECT" ++ newline
     ++ "        " ++ "ARRAY[")
    ++ (array_body ids
        ++ String "]"
             (("::text[] AS manual_hp," ++ newline ++ "        ")
              ++ (role_sql role
                  ++ String ":"
                       ((":int AS role_position_id," ++ newline ++ "        ")
                        ++ (str_int m
                            ++ String ":"
                                 ((":int AS min_hp_rating" ++ newline ++ ")," ++ newline)
                                  ++ body)))))).
Proof.
  unfold build_match_sql. rewrite manual_array_sql_body.
  rewrite !append_assoc. reflexivity.
Qed.

Lemma read_params_written (body : string) (ids : list string) (role : option Z) (m : Z) :
  Forall quote_free ids ->
  read_params body (build_match_sql body ids role m)
  = match cast_arguments role m with
    | Sql.Ok x =>
        Sql.Ok {| manual_hp := ids; role_position_id := fst x; min_hp_rating := snd x |}
    | Sql.Failed e => Sql.Failed e
    end.
Proof.
  intros Hq. rewrite build_match_sql_parts. unfold read_params.
  rewrite expect_append. cbn [Sql.bind].
  rewrite (@elements_plain ids _ Hq).
  rewrite expect_append. cbn [Sql.bind].
  rewrite (@until_colon_plain _ _ (role_sql_no_colon role)). cbn [fst snd].
  change (String ":" ((":int AS role_position_id," ++ newline ++ "        ") ++ ?x))
    with (("::int AS role_position_id," ++ newline ++ "        ") ++ x).
  rewrite expect_append. cbn [Sql.bind].
  rewrite (@until_colon_plain _ _ (str_int_no_colon m)). cbn [fst snd].
  change (String ":" ((":int AS min_hp_rating" ++ newline ++ ")," ++ newline) ++ ?x))
    with (("::int AS min_hp_rating" ++ newline ++ ")," ++ newline) ++ x).
  rewrite expect_append. cbn [Sql.bind].
  rewrite String.eqb_refl.
  unfold cast_nullable_int, cast_arguments.
  destruct role as [r|]; cbn [role_sql].
  - rewrite str_int_not_null, !cast_int_written.
    destruct (fits_int r); [|reflexivity]. cbn [Sql.bind].
    destruct (fits_int m); reflexivity.
  - change (String.eqb "NULL" "NULL") with true. cbv iota. rewrite cast_int_written.
    destruct (fits_int m); reflexivity.
Qed.

End TextFacts.

(** C10.  [build_match_sql] writes each manual id between two single
    quotes, unchanged, into the array constructor of the [params] row.
    Read back as SQL, that constructor denotes the given list of ids
    exactly when no id holds a single quote.  An id with a quote is not
    kept as one string constant: ["x','y"] reads back as the two ids [x]
    and [y], and for ["a'b"] the text is not an array of constants at
    all. *)
Theorem manual_ids_spliced_without_escaping (ids : list string) :
  (forall body role min_rating,
     exists before after,
       Text.build_match_sql body ids role min_rating
       = (before ++ Text.manual_array_sql ids ++ after)%string)
  /\ (Text.read_text_array (Text.manual_array_sql ids) = Some ids
      <-> Forall Text.quote_free ids)
  /\ (~ Text.quote_free "x','y"
      /\ Text.read_text_array (Text.manual_array_sql ["x','y"]) = Some ["x"; "y"])
  /\ (~ Text.quote_free "a'b"
      /\ Text.read_text_array (Text.manual_array_sql ["a'b"]) = None).
Proof.
  repeat apply conj.
  - intros body role min_rating.
    exists (Text.newline ++ "WITH params AS (" ++ Text.newline
            ++ "    SELECT" ++ Text.newline ++ "        ")%string.
    exists (" AS manual_hp," ++ Text.newline
            ++ "        " ++ Text.role_sql role ++ "::int AS role_position_id,"
            ++ Text.newline
            ++ "        " ++ Text.str_int min_rating ++ "::int AS min_hp_rating"
            ++ Text.newline
            ++ ")," ++ Text.newline
            ++ body)%string.
    unfold Text.build_match_sql.
    rewrite !TextFacts.append_assoc. reflexivity.
  - apply TextFacts.read_only_plain.
  - apply TextFacts.read_plain.
  - intros H. vm_compute in H. discriminate.
  - reflexivity.
  - intros H. vm_compute in H. discriminate.
  - reflexivity.
Qed.

(* ================================================================== *)
(** * Further properties of the code *)

(* ------------------------------------------------------------------ *)
(** ** The text order *)

Lemma ascii_compare_refl (a : ascii) : Ascii.compare a a = Eq.
Proof. unfold Ascii.compare. apply N.compare_refl. Qed.

Lemma ascii_compare_lt_trans (a b c : ascii) :
  Ascii.compare a b = Lt -> Ascii.compare b c = Lt -> Ascii.compare a c = Lt.
Proof.
  unfold Ascii.compare. rewrite !N.compare_lt_iff. apply N.lt_trans.
Qed.

Lemma string_leb_refl (a : string) : String.leb a a = true.
Proof. destruct (String.leb_total a a); assumption. Qed.

Lemma string_compare_trans (a : string) :
  forall b c, String.compare a b <> Gt -> String.compare b c <> Gt ->
              String.compare a c <> Gt.
Proof.
  induction a as [|x a IH]; intros b c H1 H2.
  - destruct c; simpl; discriminate.
  - destruct b as [|y b]; [simpl in H1; congruence|].
    destruct c as [|z c]; [simpl in H2; congruence|].
    simpl in *.
    destruct (Ascii.compare x y) eqn:Exy; [| |congruence].
    + apply Ascii.compare_eq_iff in Exy. subst y.
      destruct (Ascii.compare x z) eqn:Exz; [|discriminate|congruence].
      eapply IH; eassumption.
    + destruct (Ascii.compare y z) eqn:Eyz; [| |congruence].
      * apply Ascii.compare_eq_iff in Eyz. subst z. rewrite Exy. discriminate.
      * rewrite (ascii_compare_lt_trans _ _ _ Exy Eyz). discriminate.
Qed.

Lemma string_leb_trans (a b c : string) :
  String.leb a b = true -> String.leb b c = true -> String.leb a c = true.
Proof.
  unfold String.leb. intros H1 H2.
  assert (N := @string_compare_trans a b c).
  destruct (String.compare a b); try discriminate;
    destruct (String.compare b c); try discriminate;
    destruct (String.compare a c); try reflexivity;
    exfalso; apply N; congruence.
Qed.

(* ------------------------------------------------------------------ *)
(** ** The sidebar: who can be picked, and what a pick becomes *)

Lemma plain_char_not_special (c : ascii) :
  plain_char c = true -> Text.is_quote c = false /\ Agg.is_space c = false.
Proof.
  destruct c as [[] [] [] [] [] [] [] []]; intros H;
    try discriminate H; split; reflexivity.
Qed.

Lemma plain_id_quote_free (s : string) : plain_id s = true -> Text.quote_free s.
Proof.
  unfold Text.quote_free. induction s as [|c s IH]; simpl; [reflexivity|].
  intros H. apply andb_true_iff in H. destruct H as [Hc Hs].
  rewrite (proj1 (plain_char_not_special c Hc)). now apply IH.
Qed.

Lemma plain_id_no_space (s : string) : plain_id s = true -> has_space s = false.
Proof.
  induction s as [|c s IH]; simpl; [reflexivity|].
  intros H. apply andb_true_iff in H. destruct H as [Hc Hs].
  rewrite (proj2 (plain_char_not_special c Hc)). now apply IH.
Qed.

Lemma plain_ids_quote_free (ids : list string) :
  plain_ids ids -> Forall Text.quote_free ids.
Proof.
  intros H. apply Forall_forall. intros id Hid. apply plain_id_quote_free, H, Hid.
Qed.

Module AppFacts.
Import App.

Lemma hp_eqb_eq (a b : hp_row) : hp_eqb a b = true <-> a = b.
Proof.
  destruct a as [i n], b as [j m]. unfold hp_eqb. simpl.
  rewrite andb_true_iff, !String.eqb_eq. split.
  - intros [-> ->]. reflexivity.
  - intros E. inversion E. auto.
Qed.

Lemma nodup_distinct_by {A : Type} (eqb : A -> A -> bool) (l : list A) :
  (forall a b, eqb a b = true <-> a = b) -> NoDup (Sql.distinct_by eqb l).
Proof.
  intros Heqb. induction l as [|a t IH]; simpl; constructor.
  - rewrite filter_In. intros [_ H].
    assert (E : eqb a a = true) by now apply Heqb.
    now rewrite E in H.
  - now apply NoDup_filter.
Qed.

Lemma in_load_high_performers db m (id name : string) :
  In {| hp_employee_id := id; hp_fullname := name |} (load_high_performers db m)
  <-> (exists e, In e (employees db) /\ e_employee_id e = id /\ e_fullname e = name)
      /\ rated_at_least db m id.
Proof.
  unfold load_high_performers, rated_at_least. split.
  - intros H. apply (Permutation_in _ (sort_perm _ _)) in H.
    apply (proj1 (in_distinct_by hp_eqb _ _ hp_eqb_eq)) in H.
    apply in_flat_map in H. destruct H as (e & He & H).
    apply in_flat_map in H. destruct H as (py & Hpy & H).
    destruct (String.eqb_spec (e_employee_id e) (py_employee_id py)) as [E|N];
      simpl in H; [|tauto].
    destruct (Sql.is_true _) eqn:C; simpl in H; [|tauto].
    destruct H as [H | []]. inversion H; subst.
    apply ge_int_true in C. split; [exists e; auto|]. exists py. auto.
  - intros [(e & He & <- & <-) (py & Hpy & E & Hr)].
    apply (Permutation_in _ (Permutation_sym (sort_perm _ _))).
    apply (proj2 (in_distinct_by hp_eqb _ _ hp_eqb_eq)).
    apply in_flat_map. exists e. split; [exact He|].
    apply in_flat_map. exists py. split; [exact Hpy|].
    rewrite E, String.eqb_refl. apply ge_int_true in Hr. rewrite Hr. now left.
Qed.

(** X1.  [load_high_performers] lists exactly the (id, name) pairs of the
    employees that have some [performance_yearly] row rated at least
    [min_rating], each pair once, in ascending order of the name. *)
Theorem load_high_performers_lists_rated_employees (db : database) (m : Z) :
  (forall r, In r (load_high_performers db m)
             <-> (exists e, In e (employees db)
                            /\ e_employee_id e = hp_employee_id r
                            /\ e_fullname e = hp_fullname r)
                 /\ rated_at_least db m (hp_employee_id r))
  /\ NoDup (load_high_performers db m)
  /\ StronglySorted (fun a b => String.leb (hp_fullname a) (hp_fullname b) = true)
                    (load_high_performers db m).
Proof.
  repeat apply conj.
  - intros [id name]. apply in_load_high_performers.
  - unfold load_high_performers.
    eapply Permutation_NoDup; [apply Permutation_sym, sort_perm|].
    apply nodup_distinct_by, hp_eqb_eq.
  - unfold load_high_performers. apply sort_strongly_sorted.
    + intros a b. apply String.leb_total.
    + intros a b c. apply string_leb_trans.
Qed.

Lemma prefix_cons (a b : ascii) (s t : string) :
  String.prefix (String a s) (String b t)
  = if ascii_dec a b then String.prefix s t else false.
Proof. reflexivity. Qed.

Lemma prefix_append (s t : string) : String.prefix s (s ++ t)%string = true.
Proof.
  induction s as [|c s IH]; [now destruct t|].
  change (String c s ++ t)%string with (String c (s ++ t))%string.
  rewrite prefix_cons. destruct (ascii_dec c c); [exact IH | congruence].
Qed.

Lemma prefix_label_sep_no_space (c : ascii) (t : string) :
  Agg.is_space c = false -> String.prefix label_sep (String c t) = false.
Proof.
  intros H. unfold label_sep. rewrite prefix_cons.
  destruct (ascii_dec " " c) as [E|N]; [|reflexivity].
  subst c. discriminate H.
Qed.

Lemma split_first_no_space (a rest : string) :
  has_space a = false ->
  split_first label_sep (a ++ label_sep ++ rest)%string = a.
Proof.
  induction a as [|c a IH]; intros H.
  - change ("" ++ label_sep ++ rest)%string with (label_sep ++ rest)%string.
    assert (P := prefix_append label_sep rest).
    destruct (label_sep ++ rest)%string eqn:E; [reflexivity|].
    cbn [split_first]. now rewrite P.
  - simpl in H. apply orb_false_iff in H. destruct H as [Hc Ha].
    change (String c a ++ label_sep ++ rest)%string
      with (String c (a ++ label_sep ++ rest))%string.
    cbn [split_first]. rewrite (prefix_label_sep_no_space _ _ Hc).
    now rewrite (IH Ha).
Qed.

(** X2.  For an employee id [a] without a space, the id the sidebar
    recovers from a label, [label.split(" – ")[0]], is [a] itself; and an
    id that continues after [a] with the separator is cut down to [a]. *)
Theorem split_label_recovers_id (a : string) (H : has_space a = false) :
  (forall name,
     split_first label_sep (label {| hp_employee_id := a; hp_fullname := name |}) = a)
  /\ (forall b name,
        split_first label_sep
          (label {| hp_employee_id := (a ++ label_sep ++ b)%string;
                    hp_fullname := name |}) = a).
Proof.
  split.
  - intros name. unfold label. simpl. now apply split_first_no_space.
  - intros b name. unfold label. simpl.
    rewrite !TextFacts.append_assoc. now apply split_first_no_space.
Qed.

Lemma split_label_recovers_id_witness :
  split_first label_sep (label {| hp_employee_id := "EMP1"; hp_fullname := "Ann Lee" |})
  = "EMP1".
Proof. exact (proj1 (split_label_recovers_id "EMP1" eq_refl) "Ann Lee"). Defined.

Lemma dict_get_set_same (k : string) (v : Z) (d : list (string * Z)) :
  dict_get k (dict_set k v d) = Some v.
Proof.
  induction d as [|[k' v'] t IH]; simpl.
  - now rewrite String.eqb_refl.
  - destruct (String.eqb_spec k k') as [E|N]; simpl.
    + now rewrite String.eqb_refl.
    + destruct (String.eqb_spec k k'); [contradiction | exact IH].
Qed.

Lemma dict_get_set_other (k k' : string) (v : Z) (d : list (string * Z)) :
  k <> k' -> dict_get k (dict_set k' v d) = dict_get k d.
Proof.
  intros N. induction d as [|[k0 v0] t IH]; simpl.
  - destruct (String.eqb_spec k k'); [contradiction | reflexivity].
  - destruct (String.eqb_spec k' k0) as [E|N0]; simpl.
    + subst k0. destruct (String.eqb_spec k k'); [contradiction | reflexivity].
    + destruct (String.eqb_spec k k0); [reflexivity | exact IH].
Qed.

Lemma dict_keys_set (k k' : string) (v : Z) (d : list (string * Z)) :
  In k (map fst (dict_set k' v d)) <-> k = k' \/ In k (map fst d).
Proof.
  induction d as [|[k0 v0] t IH]; simpl.
  - intuition.
  - destruct (String.eqb_spec k' k0) as [E|N0]; simpl.
    + subst k0. intuition.
    + rewrite IH. intuition.
Qed.

Lemma position_options_snoc (rows : list position) (row : position) :
  position_options (rows ++ [row])
  = dict_set (pos_name row) (pos_position_id row) (position_options rows).
Proof. unfold position_options. now rewrite fold_left_app. Qed.

Lemma position_options_get (rows : list position) (k : string) :
  dict_get k (position_options rows) = last_named k rows.
Proof.
  unfold last_named. induction rows as [|row rows IH] using rev_ind; [reflexivity|].
  rewrite position_options_snoc, rev_app_distr. simpl.
  destruct (String.eqb_spec (pos_name row) k) as [E|N].
  - subst k. apply dict_get_set_same.
  - rewrite dict_get_set_other by congruence. exact IH.
Qed.

Lemma position_options_keys (rows : list position) (k : string) :
  In k (map fst (position_options rows))
  <-> exists row, In row rows /\ pos_name row = k.
Proof.
  induction rows as [|row rows IH] using rev_ind.
  - simpl. split; [tauto | intros (r & [] & _)].
  - rewrite position_options_snoc, dict_keys_set, IH. split.
    + intros [-> | (r & Hr & E)].
      * exists row. split; [apply in_or_app; right; now left | reflexivity].
      * exists r. split; [apply in_or_app; now left | exact E].
    + intros (r & Hr & E). apply in_app_or in Hr. destruct Hr as [Hr | [<- | []]].
      * right. eauto.
      * left. now symmetry.
Qed.

Lemma last_named_some (rows : list position) (k : string) :
  (exists row, In row rows /\ pos_name row = k) ->
  exists row, In row rows /\ pos_name row = k
              /\ last_named k rows = Some (pos_position_id row).
Proof.
  intros (r & Hr & E). unfold last_named.
  destruct (find _ (rev rows)) as [row|] eqn:F.
  - apply find_some in F. destruct F as [Hin Hn].
    apply String.eqb_eq in Hn. apply in_rev in Hin. exists row. auto.
  - exfalso. assert (X := find_none _ _ F r (proj1 (in_rev rows r) Hr)).
    simpl in X. rewrite E, String.eqb_refl in X. discriminate.
Qed.

(** X3.  For every label the position selectbox offers, the lookup raises
    no [KeyError].  The label ["(None)"] always selects no position, also
    when a position bears that name; any other label selects the
    [position_id] of the last row with that name, so a later row shadows
    an earlier one of the same name. *)
Theorem selected_position_of_label (rows : list position) (lbl : string)
    (H : In lbl (position_labels rows)) :
  selected_position_id rows lbl
  = Some (if String.eqb lbl none_label then None else last_named lbl rows)
  /\ (lbl <> none_label ->
      exists row, In row rows /\ pos_name row = lbl
                  /\ last_named lbl rows = Some (pos_position_id row)).
Proof.
  unfold selected_position_id. split.
  - destruct (String.eqb_spec lbl none_label) as [E|N]; [reflexivity|].
    rewrite position_options_get.
    destruct H as [E | Hk]; [congruence|].
    apply position_options_keys, last_named_some in Hk.
    destruct Hk as (row & _ & _ & ->). reflexivity.
  - intros N. destruct H as [E | Hk]; [congruence|].
    now apply last_named_some, position_options_keys.
Qed.

Lemma selected_position_of_label_witness :
  selected_position_id
    [ {| pos_position_id := 1; pos_name := "Analyst" |};
      {| pos_position_id := 2; pos_name := "(None)" |};
      {| pos_position_id := 3; pos_name := "Analyst" |} ] "Analyst"
  = Some (Some 3%Z).
Proof.
  exact (proj1 (selected_position_of_label
                  (rows := [ {| pos_position_id := 1; pos_name := "Analyst" |};
                             {| pos_position_id := 2; pos_name := "(None)" |};
                             {| pos_position_id := 3; pos_name := "Analyst" |} ])
                  (lbl := "Analyst") (or_intror (or_introl eq_refl)))).
Defined.

Lemma in_final_bench_cases db p id :
  In id (final_bench db p) ->
  explicit_union db p id \/ rated_at_least db (min_hp_rating p) id.
Proof.
  unfold final_bench. rewrite in_union, !in_distinct, filter_In.
  rewrite in_benchmark_set, in_fallback_benchmark. tauto.
Qed.

Lemma manual_id_of_option db m (lbl : string) :
  (forall e, In e (employees db) -> has_space (e_employee_id e) = false) ->
  In lbl (manual_options db m) ->
  (exists e, In e (employees db) /\ e_employee_id e = split_first label_sep lbl)
  /\ rated_at_least db m (split_first label_sep lbl).
Proof.
  intros Hids H. unfold manual_options in H. apply in_map_iff in H.
  destruct H as ([id name] & <- & Hr).
  apply in_load_high_performers in Hr. destruct Hr as [(e & He & <- & <-) Hrated].
  unfold label. cbn [hp_employee_id hp_fullname].
  rewrite (@split_first_no_space _ _ (Hids e He)). eauto.
Qed.

Lemma cast_arguments_ok (role : option Z) (m : Z) (x : option Z * Z) :
  TextLayout.cast_arguments role m = Sql.Ok x -> x = (role, m).
Proof.
  unfold TextLayout.cast_arguments. intros H.
  destruct role as [r|];
    repeat match type of H with
           | context [if ?b then _ else _] => destruct b
           end; congruence.
Qed.

Lemma cast_arguments_fit (role : option Z) (m : Z) :
  TextLayout.fits_int m = true ->
  (forall r, role = Some r -> TextLayout.fits_int r = true) ->
  TextLayout.cast_arguments role m = Sql.Ok (role, m).
Proof.
  intros Hm Hr. unfold TextLayout.cast_arguments.
  destruct role as [r|]; [rewrite (Hr r eq_refl)|]; now rewrite Hm.
Qed.

Lemma run_match_query_written db (ids : list string) (role : option Z) (m : Z) :
  Forall Text.quote_free ids ->
  run_match_query db ids role m
  = match TextLayout.cast_arguments role m with
    | Sql.Ok _ =>
        talent_match db {| manual_hp := ids; role_position_id := role; min_hp_rating := m |}
    | Sql.Failed e => Sql.Failed e
    end.
Proof.
  intros Hq. unfold run_match_query, match_sql.
  rewrite (TextFacts.read_params_written _ role m Hq).
  destruct (TextLayout.cast_arguments role m) as [x|e] eqn:E; [|reflexivity].
  apply cast_arguments_ok in E. subst x. reflexivity.
Qed.

Lemma run_cohort_written db (ids : list string) (role : option Z) (m : Z) :
  Forall Text.quote_free ids ->
  run_cohort db ids role m
  = match TextLayout.cast_arguments role m with
    | Sql.Ok _ =>
        Sql.Ok (final_bench db {| manual_hp := ids; role_position_id := role;
                                  min_hp_rating := m |})
    | Sql.Failed e => Sql.Failed e
    end.
Proof.
  intros Hq. unfold run_cohort, match_sql.
  rewrite (TextFacts.read_params_written _ role m Hq).
  destruct (TextLayout.cast_arguments role m) as [x|e] eqn:E; [|reflexivity].
  apply cast_arguments_ok in E. subst x. reflexivity.
Qed.

(** X4.  When every employee id is written with letters, digits, [-]
    and [_] only, and the manual picks are options of the multiselect,
    every manual id handed to [run_match_query] is the id of an employee
    rated at least [min_rating]; the statement is read with these ids,
    the selected position and [min_rating] when the two integers fit an
    [int], and is refused otherwise; and every member of the cohort the
    statement resolves is rated at least [min_rating], whatever position
    was selected. *)
Theorem sidebar_cohort_is_rated (db : database) (m : Z)
    (manual_selected : list string) (role : option Z)
    (Hids : forall e, In e (employees db) -> plain_id (e_employee_id e) = true)
    (Hsel : incl manual_selected (manual_options db m)) :
  (forall id, In id (manual_ids manual_selected) ->
     (exists e, In e (employees db) /\ e_employee_id e = id)
     /\ rated_at_least db m id)
  /\ run_cohort db (manual_ids manual_selected) role m
     = match TextLayout.cast_arguments role m with
       | Sql.Ok _ =>
           Sql.Ok (final_bench db {| manual_hp := manual_ids manual_selected;
                                     role_position_id := role;
                                     min_hp_rating := m |})
       | Sql.Failed e => Sql.Failed e
       end
  /\ (forall cohort id,
        run_cohort db (manual_ids manual_selected) role m = Sql.Ok cohort ->
        In id cohort -> rated_at_least db m id).
Proof.
  assert (M : forall id, In id (manual_ids manual_selected) ->
              (exists e, In e (employees db) /\ e_employee_id e = id)
              /\ rated_at_least db m id).
  { intros id Hid. unfold manual_ids in Hid. apply in_map_iff in Hid.
    destruct Hid as (lbl & <- & Hl). apply manual_id_of_option; auto.
    intros e He. apply plain_id_no_space, Hids, He. }
  assert (Q : Forall Text.quote_free (manual_ids manual_selected)).
  { apply Forall_forall. intros id Hid.
    destruct (M id Hid) as [(e & He & <-) _]. apply plain_id_quote_free, Hids, He. }
  split; [exact M|]. split; [exact (@run_cohort_written db _ role m Q)|].
  intros cohort id Hrun Hid. rewrite (@run_cohort_written db _ role m Q) in Hrun.
  destruct (TextLayout.cast_arguments role m); [|discriminate].
  inversion Hrun; subst cohort. clear Hrun.
  apply in_final_bench_cases in Hid. cbn [min_hp_rating manual_hp] in Hid.
  destruct Hid as [[Hm | Hr] | Hf]; [| |exact Hf].
  - exact (proj2 (M id Hm)).
  - destruct Hr as (e & r & _ & _ & _ & _ & Hrated). exact Hrated.
Qed.

Lemma sidebar_cohort_is_rated_witness :
  run_cohort zero_baseline_db (manual_ids ["A – Ann"]) None 5 = Sql.Ok ["A"]
  /\ rated_at_least zero_baseline_db 5 "A".
Proof.
  assert (R : run_cohort zero_baseline_db (manual_ids ["A – Ann"]) None 5 = Sql.Ok ["A"])
    by (vm_compute; reflexivity).
  split; [exact R|].
  refine (proj2 (proj2 (@sidebar_cohort_is_rated zero_baseline_db 5 ["A – Ann"] None _ _))
                ["A"] "A" R (or_introl eq_refl)).
  - intros e [<- | [<- | []]]; reflexivity.
  - intros l [<- | []]. vm_compute. left. reflexivity.
Defined.

End AppFacts.

(* ------------------------------------------------------------------ *)
(** ** When the statement aborts *)

Lemma mapM_fail_inv {A B : Type} (f : A -> Sql.result B) (l : list A) (e : Sql.failure) :
  Sql.mapM f l = Sql.Failed e ->
  exists x, In x l /\ f x = Sql.Failed e.
Proof.
  induction l as [|a t IH]; simpl; intros H; [discriminate|].
  destruct (f a) as [y|e'] eqn:E; simpl in H.
  - destruct (Sql.mapM f t) as [ys|e'']; simpl in H; [discriminate|].
    inversion H; subst e''.
    destruct (IH eq_refl) as (x & Hx & Hf). exists x. auto.
  - inversion H; subst e'. exists a. auto.
Qed.

Lemma div_failure (a b : Sql.num) (e : Sql.failure) :
  Sql.div a b = Sql.Failed e -> e = Sql.division_by_zero.
Proof.
  unfold Sql.div. destruct a, b; try discriminate.
  destruct (Sql.Qc_eqb _ _); [|discriminate]. congruence.
Qed.

Lemma tgv_division_fails (g : list (tv_row * tv_mapping)) :
  Sql.div (tgv_numerator g) (tgv_denominator g) = Sql.DivisionByZero
  <-> rollup_terms g <> [] /\ Sql.total (rollup_weights g) = 0%Qc.
Proof.
  rewrite tgv_numerator_terms, tgv_denominator_weights.
  assert (W := @rollup_terms_weights_nonempty g).
  destruct (rollup_terms g) as [|t0 ts]; simpl.
  - split; [discriminate | intros [H _]; congruence].
  - destruct (rollup_weights g) as [|w0 ws]; [exfalso; apply W; [discriminate | reflexivity]|].
    simpl. unfold Sql.Qc_eqb. destruct (Qc_eq_dec _ 0%Qc) as [E|N].
    + split; [intros _; split; [discriminate | exact E] | reflexivity].
    + split; [discriminate | intros [_ E]; contradiction].
Qed.

Lemma tgv_match_failure (rows : list tv_row) (m : list tv_mapping) (e : Sql.failure) :
  tgv_match rows m = Sql.Failed e -> e = Sql.division_by_zero.
Proof.
  unfold tgv_match. intros H. apply mapM_fail_inv in H. destruct H as (k & _ & Hf).
  destruct (Sql.div _ _) as [q|e'] eqn:D; [discriminate|].
  apply div_failure in D. cbn [Sql.bind] in Hf. congruence.
Qed.

Lemma tgv_match_fails (rows : list tv_row) (m : list tv_mapping) :
  tgv_match rows m = Sql.DivisionByZero
  <-> exists k, In k (map tgv_key (tgv_join rows m))
                /\ rollup_terms (tgv_group (tgv_join rows m) k) <> []
                /\ Sql.total (rollup_weights (tgv_group (tgv_join rows m) k)) = 0%Qc.
Proof.
  unfold tgv_match. split.
  - intros H. apply mapM_fail_inv in H. destruct H as (k & Hk & Hf).
    exists k. split; [now apply (proj1 (in_distinct_by pair_eqb _ _ pair_eqb_eq))|].
    apply tgv_division_fails.
    destruct (Sql.div _ _) as [q|e'] eqn:D; [discriminate|].
    apply div_failure in D. now subst e'.
  - intros (k & Hk & Hg). apply (@mapM_fails _ _ _ _ k).
    + intros y e' Hy. destruct (Sql.div _ _) as [q|e''] eqn:D; [discriminate|].
      apply div_failure in D. cbn [Sql.bind] in Hy. congruence.
    + now apply (proj2 (in_distinct_by pair_eqb _ _ pair_eqb_eq)).
    + apply tgv_division_fails in Hg. now rewrite Hg.
Qed.

Lemma talent_match_limit_fails (n : nat) db p :
  talent_match_limit n db p = Sql.DivisionByZero
  <-> exists rows, all_tv db p = Sql.Ok rows
                   /\ tgv_match rows (tv_map db) = Sql.DivisionByZero.
Proof.
  unfold talent_match_limit. destruct (all_tv_ok db p) as [rows ->]. simpl. split.
  - intros H. exists rows. split; [reflexivity|].
    destruct (tgv_match rows (tv_map db)) as [ts|e] eqn:T; [discriminate|].
    apply tgv_match_failure in T. now subst e.
  - intros (rows' & E & H). inversion E; subst. now rewrite H.
Qed.

Lemma talent_match_fails (db : database) (p : params) :
  talent_match db p = Sql.DivisionByZero
  <-> exists rows,
        all_tv db p = Sql.Ok rows
        /\ exists k,
             In k (map tgv_key (tgv_join rows (tv_map db)))
             /\ rollup_terms (tgv_group (tgv_join rows (tv_map db)) k) <> []
             /\ Sql.total (rollup_weights (tgv_group (tgv_join rows (tv_map db)) k))
                = 0%Qc.
Proof.
  unfold talent_match. rewrite talent_match_limit_fails. split.
  - intros (rows & E & H). exists rows. split; [exact E|]. now apply tgv_match_fails.
  - intros (rows & E & H). exists rows. split; [exact E|]. now apply tgv_match_fails.
Qed.

Lemma talent_match_failure (db : database) (p : params) (e : Sql.failure) :
  talent_match db p = Sql.Failed e -> e = Sql.division_by_zero.
Proof.
  unfold talent_match, talent_match_limit. destruct (all_tv_ok db p) as [rows ->].
  cbn [Sql.bind]. destruct (tgv_match rows (tv_map db)) as [ts|e'] eqn:T.
  - discriminate.
  - apply tgv_match_failure in T. cbn [Sql.bind]. congruence.
Qed.

Lemma cast_int_no_division (text : string) : Text.cast_int text <> Sql.DivisionByZero.
Proof.
  unfold Text.cast_int. destruct (DecimalString.NilZero.int_of_string text); [|discriminate].
  destruct (_ <=? _)%Z; discriminate.
Qed.

Lemma bind_no_division {A B : Type} (r : Sql.result A) (k : A -> Sql.result B) :
  r <> Sql.DivisionByZero -> (forall a, k a <> Sql.DivisionByZero) ->
  Sql.bind r k <> Sql.DivisionByZero.
Proof.
  intros Hr Hk. destruct r as [a|e]; cbn [Sql.bind]; [apply Hk|].
  intros E. apply Hr. inversion E. reflexivity.
Qed.

Lemma expect_no_division (pre s : string) : Text.expect pre s <> Sql.DivisionByZero.
Proof. unfold Text.expect. destruct (Text.strip_prefix pre s); discriminate. Qed.

Lemma read_params_no_division (engine sql : string) :
  Text.read_params engine sql <> Sql.DivisionByZero.
Proof.
  unfold Text.read_params.
  apply bind_no_division; [apply expect_no_division|]. intros s.
  destruct (Text.elements s) as [[ids s1]|]; [|discriminate].
  apply bind_no_division; [apply expect_no_division|]. intros s2.
  apply bind_no_division; [apply expect_no_division|]. intros s3.
  apply bind_no_division; [apply expect_no_division|]. intros s4.
  destruct (String.eqb s4 engine); [|discriminate].
  apply bind_no_division.
  - unfold Text.cast_nullable_int. destruct (String.eqb _ "NULL"); [discriminate|].
    apply bind_no_division; [apply cast_int_no_division | discriminate].
  - intros role. apply bind_no_division; [apply cast_int_no_division | discriminate].
Qed.

(** X5.  For manual ids written with letters, digits, [-] and [_] only,
    [run_match_query] aborts with a division by zero exactly when the
    position id and the minimum rating fit an [int] and some
    (employee, group) pair has at least one defined product
    [rate * weight] while [SUM(m.tv_weight)] over its rows is zero. *)
Theorem run_match_query_division_by_zero_iff (db : database)
    (ids : list string) (role : option Z) (m : Z)
    (Hids : plain_ids ids) :
  App.run_match_query db ids role m = Sql.DivisionByZero
  <-> TextLayout.cast_arguments role m = Sql.Ok (role, m)
      /\ exists rows,
           all_tv db {| manual_hp := ids; role_position_id := role;
                        min_hp_rating := m |} = Sql.Ok rows
           /\ exists k,
                In k (map tgv_key (tgv_join rows (tv_map db)))
                /\ rollup_terms (tgv_group (tgv_join rows (tv_map db)) k) <> []
                /\ Sql.total (rollup_weights (tgv_group (tgv_join rows (tv_map db)) k))
                   = 0%Qc.
Proof.
  rewrite (@AppFacts.run_match_query_written db ids role m (plain_ids_quote_free Hids)).
  destruct (TextLayout.cast_arguments role m) as [x|e] eqn:C.
  - apply AppFacts.cast_arguments_ok in C. subst x.
    rewrite talent_match_fails. split; [intros H; split; [reflexivity | exact H]|].
    intros [_ H]. exact H.
  - split.
    + intros E. exfalso. unfold TextLayout.cast_arguments in C.
      destruct role as [r|];
        repeat match type of C with
               | context [if ?b then _ else _] => destruct b
               end; try discriminate C; inversion C; subst e; discriminate E.
    + intros [E _]. discriminate E.
Qed.

(** In [zero_weight_db] the only group has the weight 0. *)
Lemma run_match_query_division_by_zero_iff_witness :
  App.run_match_query zero_weight_db [] None 5 = Sql.DivisionByZero
  /\ TextLayout.cast_arguments None 5 = Sql.Ok (None, 5%Z).
Proof.
  assert (R : App.run_match_query zero_weight_db [] None 5 = Sql.DivisionByZero)
    by (vm_compute; reflexivity).
  split; [exact R|].
  refine (proj1 (proj1 (@run_match_query_division_by_zero_iff zero_weight_db [] None 5%Z _)
                       R)).
  intros id [].
Defined.

Lemma Qcplus_pos_nonneg (a b : Qc) : (0 < a)%Qc -> (0 <= b)%Qc -> (0 < a + b)%Qc.
Proof.
  unfold Qclt, Qcle, Qcplus, Q2Qc. cbn [this]. rewrite !Qred_correct.
  intros Ha Hb. change (0 < a + b)%Q.
  apply (Qlt_le_trans _ (a + 0)).
  - now rewrite Qplus_0_r.
  - apply Qplus_le_compat; [apply Qle_refl | exact Hb].
Qed.

Lemma Qcplus_nonneg (a b : Qc) : (0 <= a)%Qc -> (0 <= b)%Qc -> (0 <= a + b)%Qc.
Proof.
  intros Ha Hb. rewrite <- (Qcplus_0_l 0%Qc). now apply Qcplus_le_compat.
Qed.

Lemma total_nonneg (ws : list Qc) :
  (forall w, In w ws -> (0 <= w)%Qc) -> (0 <= Sql.total ws)%Qc.
Proof.
  induction ws as [|w t IH]; simpl; intros H.
  - apply Qcle_refl.
  - apply Qcplus_nonneg; [apply H; now left | apply IH; intros; apply H; now right].
Qed.

Lemma total_positive (ws : list Qc) :
  ws <> [] -> (forall w, In w ws -> (0 < w)%Qc) -> (0 < Sql.total ws)%Qc.
Proof.
  destruct ws as [|w t]; [congruence|]. intros _ H. simpl.
  apply Qcplus_pos_nonneg; [apply H; now left|].
  apply total_nonneg. intros x Hx. apply Qclt_le_weak, H. now right.
Qed.

Lemma in_tgv_join (rows : list tv_row) (m : list tv_mapping) am :
  In am (tgv_join rows m)
  <-> In (fst am) rows /\ In (snd am) m /\ tv_name (fst am) = m_tv_name (snd am).
Proof.
  destruct am as [a mm]. unfold tgv_join. rewrite in_flat_map. simpl. split.
  - intros (a' & Ha' & Hin). apply in_map_iff in Hin.
    destruct Hin as (m' & E & Hm). inversion E; subst.
    apply filter_In in Hm. destruct Hm as [Hm Hn]. apply String.eqb_eq in Hn. auto.
  - intros (Ha & Hm & Hn). exists a. split; [exact Ha|].
    apply in_map_iff. exists mm. split; [reflexivity|].
    apply filter_In. split; [exact Hm | now apply String.eqb_eq].
Qed.

Lemma in_rollup_weights (g : list (tv_row * tv_mapping)) (w : Qc) :
  In w (rollup_weights g) <-> exists am, In am g /\ m_tv_weight (snd am) = Some w.
Proof.
  unfold rollup_weights. rewrite in_flat_map. split.
  - intros (am & Ham & Hw). exists am. split; [exact Ham|].
    destruct (m_tv_weight (snd am)); simpl in Hw; [|tauto].
    destruct Hw as [-> | []]. reflexivity.
  - intros (am & Ham & E). exists am. split; [exact Ham|]. rewrite E. now left.
Qed.

Lemma group_weights_from_mapping rows m k w :
  In w (rollup_weights (tgv_group (tgv_join rows m) k)) ->
  exists mm, In mm m /\ m_tv_weight mm = Some w.
Proof.
  intros H. apply in_rollup_weights in H. destruct H as (am & Ham & E).
  unfold tgv_group in Ham. apply filter_In in Ham. destruct Ham as [Ham _].
  apply in_tgv_join in Ham. exists (snd am). tauto.
Qed.

Lemma positive_weights_talent_match (db : database) (p : params) :
  (forall mm w, In mm (talent_variables_mapping db) ->
                m_tv_weight mm = Some w -> (0 < w)%Qc) ->
  exists out, talent_match db p = Sql.Ok out.
Proof.
  intros Hpos. destruct (talent_match db p) as [out|e] eqn:E; [eauto|].
  exfalso. assert (D := talent_match_failure _ _ E). subst e.
  apply talent_match_fails in E.
  destruct E as (rows & _ & k & _ & Hterms & Hzero).
  assert (P : (0 < Sql.total (rollup_weights (tgv_group (tgv_join rows (tv_map db)) k)))%Qc).
  { apply total_positive.
    - now apply rollup_terms_weights_nonempty.
    - intros w Hw. apply group_weights_from_mapping in Hw.
      destruct Hw as (mm & Hmm & Ew). exact (Hpos mm w Hmm Ew). }
  rewrite Hzero in P. exact (Qclt_not_eq _ _ P eq_refl).
Qed.

(** X6.  When every weight of [talent_variables_mapping] that is not NULL
    is strictly positive and the manual ids are written with letters,
    digits, [-] and [_] only, [run_match_query] never aborts with a
    division by zero, whatever the database holds; and it returns a
    ranked list whenever the position id and the minimum rating fit an
    [int]. *)
Theorem positive_weights_never_abort (db : database)
    (ids : list string) (role : option Z) (m : Z)
    (Hpos : forall mm w, In mm (talent_variables_mapping db) ->
                         m_tv_weight mm = Some w -> (0 < w)%Qc)
    (Hids : plain_ids ids) :
  App.run_match_query db ids role m <> Sql.DivisionByZero
  /\ (TextLayout.fits_int m = true ->
      (forall r, role = Some r -> TextLayout.fits_int r = true) ->
      exists out, App.run_match_query db ids role m = Sql.Ok out).
Proof.
  split.
  - unfold App.run_match_query.
    apply bind_no_division; [apply read_params_no_division|].
    intros p E. destruct (@positive_weights_talent_match db p Hpos) as [out Hout].
    rewrite Hout in E. discriminate E.
  - intros Hm Hr.
    rewrite (@AppFacts.run_match_query_written db ids role m (plain_ids_quote_free Hids)).
    rewrite (@AppFacts.cast_arguments_fit role m Hm Hr).
    now apply positive_weights_talent_match.
Qed.

Lemma positive_weights_never_abort_witness :
  exists out, App.run_match_query zero_baseline_db ["A"; "B"] (Some 7%Z) 5 = Sql.Ok out.
Proof.
  refine (proj2 (@positive_weights_never_abort zero_baseline_db ["A"; "B"] (Some 7%Z) 5%Z
                   _ _) eq_refl _).
  - intros mm w [<- | [<- | []]] E; inversion E; reflexivity.
  - intros id [<- | [<- | []]]; reflexivity.
  - intros r E. inversion E. reflexivity.
Defined.

(* ------------------------------------------------------------------ *)
(** ** An empty cohort *)

Lemma final_bench_empty_iff db p :
  final_bench db p = []
  <-> manual_hp p = [] /\ nobody_rated db (min_hp_rating p).
Proof.
  split.
  - intros H. assert (N : forall id, ~ In id (final_bench db p)) by (rewrite H; auto).
    assert (B : benchmark_set db p = []).
    { destruct (benchmark_set db p) as [|b t] eqn:E; [reflexivity|].
      exfalso. apply (N b). unfold final_bench.
      rewrite in_union, !in_distinct, E. left. now left. }
    split.
    + destruct (manual_hp p) as [|x t] eqn:E; [reflexivity|].
      exfalso. assert (I : In x (benchmark_set db p)).
      { unfold benchmark_set, manual_set. rewrite in_union, E. left. now left. }
      now rewrite B in I.
    + intros id Hr. apply (N id). unfold final_bench.
      rewrite in_union, !in_distinct, filter_In, B. right.
      split; [now apply in_fallback_benchmark | reflexivity].
  - intros [Hm Hn].
    destruct (final_bench db p) as [|x t] eqn:E; [reflexivity|].
    exfalso. assert (I : In x (final_bench db p)) by (rewrite E; now left).
    unfold final_bench in I.
    rewrite in_union, !in_distinct, filter_In, in_benchmark_set, in_fallback_benchmark in I.
    destruct I as [[I | I] | [I _]].
    + now rewrite Hm in I.
    + destruct I as (e & r & _ & _ & _ & _ & Hr). exact (Hn _ Hr).
    + exact (Hn _ I).
Qed.

Lemma numeric_tv_empty_cohort db p :
  final_bench db p = [] -> numeric_tv db p = Sql.Ok [].
Proof.
  intros H. unfold numeric_tv.
  assert (B : baseline_numeric db p = []).
  { unfold baseline_numeric. rewrite baseline_numeric_input_cohort, H.
    rewrite (filter_none _ (all_numeric_scores db)) by reflexivity. reflexivity. }
  rewrite B. rewrite flat_map_nil by reflexivity. reflexivity.
Qed.

Lemma papi_tv_empty_cohort db p :
  final_bench db p = [] -> papi_tv db p = Sql.Ok [].
Proof.
  intros H. unfold papi_tv.
  assert (B : baseline_papi db p = []).
  { unfold baseline_papi, baseline_papi_input. rewrite H.
    rewrite flat_map_nil by reflexivity. reflexivity. }
  rewrite B. rewrite flat_map_nil by reflexivity. reflexivity.
Qed.

Lemma eq_text_null (x : option string) : Sql.eq_text x None = None.
Proof. now destruct x. Qed.

Lemma categorical_tv_empty_cohort db p r :
  final_bench db p = [] -> In r (categorical_tv db p) -> tv_match_rate r = Some 0%Qc.
Proof.
  intros H Hr. unfold categorical_tv in Hr. apply in_flat_map in Hr.
  destruct Hr as (q & _ & Hr). apply in_map_iff in Hr. destruct Hr as (bc & <- & Hbc).
  assert (N : bc_baseline_value bc = None).
  { unfold baseline_cat, baseline_cat_input in Hbc. rewrite H in Hbc.
    rewrite flat_map_nil in Hbc by reflexivity.
    destruct Hbc as [<- | [<- | []]]; reflexivity. }
  simpl. rewrite N, !eq_text_null.
  destruct (String.eqb (bc_tv_name bc) "mbti"), (String.eqb (bc_tv_name bc) "disc");
    reflexivity.
Qed.

Lemma weighted_sum_zero (l : list (Qc * Qc)) :
  (forall rw, In rw l -> fst rw = 0%Qc) -> weighted_sum l = 0%Qc.
Proof.
  induction l as [|rw t IH]; simpl; intros H; [reflexivity|].
  rewrite (H rw (or_introl eq_refl)), IH by (intros; apply H; now right).
  now rewrite Qcmult_0_l, Qcplus_0_l.
Qed.

Lemma in_rollup_terms (g : list (tv_row * tv_mapping)) (rw : Qc * Qc) :
  In rw (rollup_terms g) ->
  exists am, In am g /\ tv_match_rate (fst am) = Some (fst rw)
             /\ m_tv_weight (snd am) = Some (snd rw).
Proof.
  unfold rollup_terms. rewrite in_flat_map. intros (am & Ham & H). exists am.
  destruct (tv_match_rate (fst am)), (m_tv_weight (snd am)); simpl in H; try tauto.
  destruct H as [<- | []]. auto.
Qed.

Lemma in_final_terms (j : list (tgv_row * group_weight)) (rw : Qc * Qc) :
  In rw (final_terms j) ->
  exists tg, In tg j /\ tgv_match_rate (fst tg) = Some (fst rw)
             /\ g_tgv_weight (snd tg) = Some (snd rw).
Proof.
  unfold final_terms. rewrite in_flat_map. intros (tg & Htg & H). exists tg.
  destruct (tgv_match_rate (fst tg)), (g_tgv_weight (snd tg)); simpl in H; try tauto.
  destruct H as [<- | []]. auto.
Qed.

(** When every match rate is zero or undefined, so is every group match
    and every final score. *)
Lemma zero_rates_zero_scores rows m ts gw :
  (forall a, In a rows -> zero_or_null (tv_match_rate a)) ->
  tgv_match rows m = Sql.Ok ts ->
  forall f, In f (final_match ts gw) -> zero_or_null (fm_final_match_rate f).
Proof.
  intros Hz Hts.
  assert (T : forall t, In t ts -> zero_or_null (tgv_match_rate t)).
  { intros t Ht. destruct (tgv_match_rows _ _ Hts t Ht) as [_ D].
    apply tgv_division in D.
    destruct (rollup_terms _) as [|t0 tl] eqn:E; [now right|].
    destruct D as [_ ->]. left. f_equal.
    rewrite weighted_sum_zero; [unfold Qcdiv; apply Qcmult_0_l|].
    intros rw Hrw. rewrite <- E in Hrw. apply in_rollup_terms in Hrw.
    destruct Hrw as (am & Ham & Er & _).
    unfold tgv_group in Ham. apply filter_In in Ham. destruct Ham as [Ham _].
    apply in_tgv_join in Ham. destruct Ham as (Ha & _).
    destruct (Hz _ Ha) as [Z | Z]; congruence. }
  intros f Hf. rewrite (final_match_rows _ _ _ Hf), final_sum_terms.
  destruct (final_terms _) as [|t0 tl] eqn:E; [now right|].
  left. f_equal. apply weighted_sum_zero.
  intros rw Hrw. rewrite <- E in Hrw. apply in_final_terms in Hrw.
  destruct Hrw as ([t g] & Htg & Er & _).
  unfold final_group in Htg. apply filter_In in Htg. destruct Htg as [Htg _].
  apply in_final_join in Htg. destruct Htg as (Ht & _).
  destruct (T _ Ht) as [Z | Z]; simpl in Er; congruence.
Qed.

(** X7.  When no manual id is given and nobody is rated at least
    [min_hp_rating], the cohort is empty.  The statement then does not
    return an empty list: no numeric or behavioural variable is scored,
    every categorical row gets the rate 0, and every listed employee has a
    final score of 0 or NULL. *)
Theorem empty_cohort_scores_zero (db : database) (p : params)
    (Hm : manual_hp p = []) (Hn : nobody_rated db (min_hp_rating p)) :
  final_bench db p = []
  /\ all_tv db p = Sql.Ok (categorical_tv db p)
  /\ (forall r, In r (categorical_tv db p) -> tv_match_rate r = Some 0%Qc)
  /\ (forall out r, talent_match db p = Sql.Ok out -> In r out ->
        zero_or_null (out_final_match_rate r)).
Proof.
  assert (E : final_bench db p = []) by (apply final_bench_empty_iff; auto).
  assert (A : all_tv db p = Sql.Ok (categorical_tv db p)).
  { unfold all_tv. now rewrite numeric_tv_empty_cohort, papi_tv_empty_cohort. }
  repeat apply conj; auto.
  - intros r Hr. exact (@categorical_tv_empty_cohort db p r E Hr).
  - intros out r H Hr.
    destruct (talent_match_limit_inv _ _ _ H) as (rows & ts & Hrows & Hts & ->).
    rewrite A in Hrows. inversion Hrows; subst rows.
    unfold ranked_select, limit in Hr. apply in_firstn in Hr.
    apply (Permutation_in _ (order_by_perm _)) in Hr.
    apply in_ranked_join in Hr. destruct Hr as (f & e & Hf & _ & _ & ->). simpl.
    refine (@zero_rates_zero_scores (categorical_tv db p) (tv_map db) ts
              (talent_group_weights db) _ Hts f Hf).
    intros a Ha. left. exact (@categorical_tv_empty_cohort db p a E Ha).
Qed.

Lemma empty_cohort_scores_zero_witness :
  final_bench unrated_db fallback_params = []
  /\ talent_match unrated_db fallback_params = Sql.Ok [ranked "A" "Ann" (Some 0%Qc)].
Proof.
  split.
  - refine (proj1 (@empty_cohort_scores_zero unrated_db fallback_params eq_refl _)).
    intros id (py & [] & _).
  - sql_eval.
Defined.

(* ------------------------------------------------------------------ *)
(** ** The categorical baseline *)

Lemma count_text_perm (x : string) (l l' : list string) :
  Permutation l l' -> Agg.count_text x l = Agg.count_text x l'.
Proof.
  unfold Agg.count_text. induction 1; simpl; auto.
  - destruct (String.eqb x x0); simpl; auto.
  - destruct (String.eqb x x0), (String.eqb x y); reflexivity.
  - congruence.
Qed.

Lemma count_text_pos (x : string) (l : list string) :
  In x l <-> 1 <= Agg.count_text x l.
Proof.
  unfold Agg.count_text. induction l as [|y t IH]; simpl.
  - split; [tauto | lia].
  - destruct (String.eqb_spec x y) as [E|N]; simpl.
    + split; [lia | auto].
    + rewrite <- IH. split; [intros [E | H]; [congruence | exact H] | auto].
Qed.

Lemma most_frequent_spec (cands xs : list string) (m : string) (k : nat) :
  Agg.most_frequent cands xs = Some (m, k) ->
  In m cands /\ k = Agg.count_text m xs
  /\ forall c, In c cands -> Agg.count_text c xs <= k.
Proof.
  revert m k. induction cands as [|c t IH]; simpl; intros m k H; [discriminate|].
  destruct (Agg.most_frequent t xs) as [[c' n']|] eqn:E.
  - destruct (IH _ _ eq_refl) as (Hin & Hk & Hmax).
    destruct (Nat.leb_spec n' (Agg.count_text c xs)) as [L|L]; inversion H; subst.
    + repeat split; auto. intros x [<- | Hx]; [lia|]. specialize (Hmax x Hx). lia.
    + repeat split; auto. intros x [<- | Hx]; [lia | auto].
  - inversion H; subst. destruct t; [|simpl in E; destruct (Agg.most_frequent t xs) as [[? ?]|];
      [destruct (Nat.leb _ _)|]; discriminate].
    repeat split; auto. intros x [<- | []]. lia.
Qed.

Lemma most_frequent_first (cands xs : list string) (m : string) (k : nat) :
  StronglySorted (fun a b => String.leb a b = true) cands ->
  Agg.most_frequent cands xs = Some (m, k) ->
  forall c, In c cands -> Agg.count_text c xs = k -> String.leb m c = true.
Proof.
  intros S. revert m k. induction S as [|c t St IH Hc]; simpl; intros m k H x Hx Hk;
    [discriminate|].
  rewrite Forall_forall in Hc.
  destruct (Agg.most_frequent t xs) as [[c' n']|] eqn:E.
  - destruct (most_frequent_spec _ _ E) as (_ & _ & Hmax).
    destruct (Nat.leb_spec n' (Agg.count_text c xs)) as [L|L]; inversion H; subst.
    + destruct Hx as [<- | Hx]; [apply string_leb_refl | now apply Hc].
    + destruct Hx as [<- | Hx]; [lia|]. now apply (IH _ _ eq_refl).
  - inversion H; subst.
    destruct Hx as [<- | Hx]; [apply string_leb_refl | now apply Hc].
Qed.

Lemma most_frequent_none (cands xs : list string) :
  Agg.most_frequent cands xs = None -> cands = [].
Proof.
  destruct cands as [|c t]; [reflexivity|]. simpl.
  destruct (Agg.most_frequent t xs) as [[c' n']|]; [destruct (Nat.leb _ _)|]; discriminate.
Qed.

Lemma strongly_sorted_filter {A : Type} (R : A -> A -> Prop) (f : A -> bool) (l : list A) :
  StronglySorted R l -> StronglySorted R (filter f l).
Proof.
  induction 1 as [|x t Ht IH Hx]; simpl; [constructor|].
  destruct (f x); [|exact IH]. constructor; [exact IH|].
  rewrite Forall_forall in *. intros y Hy. apply filter_In in Hy. now apply Hx.
Qed.

Lemma strongly_sorted_distinct (l : list string) :
  StronglySorted (fun a b => String.leb a b = true) l ->
  StronglySorted (fun a b => String.leb a b = true) (Sql.distinct l).
Proof.
  induction 1 as [|x t Ht IH Hx]; [constructor|].
  change (Sql.distinct (x :: t))
    with (x :: filter (fun y => negb (String.eqb x y)) (Sql.distinct t)).
  constructor.
  - now apply strongly_sorted_filter.
  - rewrite Forall_forall in *. intros y Hy. apply filter_In in Hy.
    destruct Hy as [Hy _]. apply (proj1 (in_distinct y t)) in Hy. now apply Hx.
Qed.

Lemma mode_is_mode (l : list (option string)) :
  is_mode (Agg.defined_text l) (Agg.mode l).
Proof.
  unfold Agg.mode.
  set (xs := Agg.defined_text l).
  set (s := Agg.sort String.leb xs).
  assert (P : Permutation s xs) by apply sort_perm.
  assert (S : StronglySorted (fun a b => String.leb a b = true) (Sql.distinct s)).
  { apply strongly_sorted_distinct, sort_strongly_sorted.
    - apply String.leb_total.
    - apply string_leb_trans. }
  destruct (Agg.most_frequent (Sql.distinct s) s) as [[m k]|] eqn:E; simpl.
  - destruct (most_frequent_spec _ _ E) as (Hin & Hk & Hmax).
    apply (proj1 (in_distinct m s)) in Hin.
    split; [exact (Permutation_in _ P Hin)|].
    intros x. rewrite <- !(count_text_perm _ P), <- Hk.
    destruct (in_dec string_dec x s) as [I | I].
    + apply (proj2 (in_distinct x s)) in I.
      split; [now apply Hmax|].
      intros Hc. exact (@most_frequent_first _ _ _ _ S E x I Hc).
    + assert (Z : Agg.count_text x s = 0).
      { destruct (Agg.count_text x s) eqn:C; [reflexivity|].
        exfalso. apply I, count_text_pos. lia. }
      apply count_text_pos in Hin. rewrite Z. split; [lia|]. intros Hc. lia.
  - apply most_frequent_none in E.
    destruct s as [|y t] eqn:Es; [|discriminate E].
    apply Permutation_nil in P. exact P.
Qed.

Lemma baseline_cat_input_cohort db p :
  baseline_cat_input db p
  = filter (fun q => Sql.mem (p_employee_id q) (final_bench db p)) (profiles_psych db).
Proof. apply (join_final_bench p_employee_id). Qed.


Lemma is_true_eq_text (v b : option string) :
  Sql.is_true (Sql.eq_text v b) = categorical_match v b.
Proof. destruct v, b; simpl; try reflexivity. now destruct (String.eqb _ _). Qed.

Lemma categorical_rows_of_profile db p (q : profile) :
  map (fun bc =>
         {| tv_employee_id := p_employee_id q;
            tv_name := bc_tv_name bc;
            tv_baseline_score := Some 1%Qc;
            tv_user_score := Some 1%Qc;
            tv_match_rate :=
              if Sql.is_true
                   (Sql.or3
                      (Sql.and3 (Some (String.eqb (bc_tv_name bc) "mbti"))
                                (Sql.eq_text (Agg.upper_trim (p_mbti q)) (bc_baseline_value bc)))
                      (Sql.and3 (Some (String.eqb (bc_tv_name bc) "disc"))
                                (Sql.eq_text (Agg.upper_trim (p_disc q)) (bc_baseline_value bc))))
              then Some hundred else Some 0%Qc |})
      (baseline_cat db p)
  = [cat_row db p q "mbti" (p_mbti q); cat_row db p q "disc" (p_disc q)].
Proof.
  unfold cat_row, cat_baseline_of, baseline_cat. simpl.
  rewrite <- !is_true_eq_text.
  repeat f_equal.
  - now destruct (Sql.eq_text _ _) as [[]|].
  - now destruct (Sql.eq_text _ _) as [[]|].
Qed.

Lemma categorical_tv_rows db p :
  categorical_tv db p
  = flat_map (fun q => [cat_row db p q "mbti" (p_mbti q); cat_row db p q "disc" (p_disc q)])
             (profiles_psych db).
Proof.
  unfold categorical_tv. apply flat_map_ext. intros q.
  apply categorical_rows_of_profile.
Qed.

(** X9.  Categorical scoring is binary and total.  Every row of
    [profiles_psych] yields exactly two rows of [categorical_tv], one for
    [mbti] and one for [disc]; the rate is 100 when the employee's
    normalised value and the baseline value are both present and equal,
    and 0 in every other case, a missing value or a missing baseline
    included; it is never NULL. *)
Theorem categorical_scoring_is_binary (db : database) (p : params) :
  (forall r, In r (categorical_tv db p)
             <-> exists q, In q (profiles_psych db)
                           /\ (r = cat_row db p q "mbti" (p_mbti q)
                               \/ r = cat_row db p q "disc" (p_disc q)))
  /\ List.length (categorical_tv db p) = 2 * List.length (profiles_psych db)
  /\ (forall r, In r (categorical_tv db p) ->
        tv_match_rate r = Some hundred \/ tv_match_rate r = Some 0%Qc).
Proof.
  rewrite categorical_tv_rows.
  assert (M : forall r,
            In r (flat_map (fun q => [cat_row db p q "mbti" (p_mbti q);
                                      cat_row db p q "disc" (p_disc q)])
                           (profiles_psych db))
            <-> exists q, In q (profiles_psych db)
                          /\ (r = cat_row db p q "mbti" (p_mbti q)
                              \/ r = cat_row db p q "disc" (p_disc q))).
  { intros r. rewrite in_flat_map. split.
    - intros (q & Hq & [<- | [<- | []]]); eauto.
    - intros (q & Hq & [-> | ->]); exists q; simpl; auto. }
  repeat apply conj.
  - exact M.
  - clear M. induction (profiles_psych db) as [|q t IH]; [reflexivity|].
    cbn [flat_map app List.length]. rewrite IH. cbn [List.length]. lia.
  - intros r Hr. apply M in Hr. destruct Hr as (q & _ & [-> | ->]); unfold cat_row; simpl;
      destruct (categorical_match _ _); auto.
Qed.

(* ------------------------------------------------------------------ *)
(** ** Normalising a categorical value *)

Lemma ltrim_spaces (n : nat) (s : string) : Agg.ltrim (spaces n ++ s)%string = Agg.ltrim s.
Proof. induction n as [|n IH]; simpl; [reflexivity | exact IH]. Qed.

Lemma ltrim_spaces_only (n : nat) : Agg.ltrim (spaces n) = EmptyString.
Proof. induction n as [|n IH]; simpl; [reflexivity | exact IH]. Qed.

Lemma rtrim_spaces_only (n : nat) : Agg.rtrim (spaces n) = EmptyString.
Proof. induction n as [|n IH]; simpl; [reflexivity | now rewrite IH]. Qed.

Lemma rtrim_spaces (s : string) (n : nat) : Agg.rtrim (s ++ spaces n)%string = Agg.rtrim s.
Proof.
  induction s as [|c s IH]; simpl.
  - apply rtrim_spaces_only.
  - now rewrite IH.
Qed.

Lemma trim_append_spaces (s : string) (n : nat) :
  Agg.trim (s ++ spaces n)%string = Agg.trim s.
Proof.
  unfold Agg.trim. induction s as [|c s IH].
  - change ("" ++ spaces n)%string with (spaces n).
    now rewrite ltrim_spaces_only.
  - change (String c s ++ spaces n)%string with (String c (s ++ spaces n))%string.
    cbn [Agg.ltrim]. destruct (Agg.is_space c); [exact IH|].
    change (String c (s ++ spaces n))%string with (String c s ++ spaces n)%string.
    apply rtrim_spaces.
Qed.

Lemma upper_char_idempotent (c : ascii) :
  Agg.upper_char (Agg.upper_char c) = Agg.upper_char c.
Proof. destruct c as [[] [] [] [] [] [] [] []]; reflexivity. Qed.

Lemma upper_char_space (c : ascii) : Agg.is_space (Agg.upper_char c) = Agg.is_space c.
Proof. destruct c as [[] [] [] [] [] [] [] []]; reflexivity. Qed.

Lemma upper_idempotent (s : string) : Agg.upper (Agg.upper s) = Agg.upper s.
Proof.
  induction s as [|c s IH]; simpl; [reflexivity|].
  now rewrite upper_char_idempotent, IH.
Qed.

Lemma upper_ltrim (s : string) : Agg.upper (Agg.ltrim s) = Agg.ltrim (Agg.upper s).
Proof.
  induction s as [|c s IH]; simpl; [reflexivity|].
  rewrite upper_char_space. destruct (Agg.is_space c); [exact IH | reflexivity].
Qed.

Lemma upper_rtrim (s : string) : Agg.upper (Agg.rtrim s) = Agg.rtrim (Agg.upper s).
Proof.
  induction s as [|c s IH]; simpl; [reflexivity|].
  rewrite <- IH, upper_char_space.
  destruct (Agg.rtrim s); simpl; [destruct (Agg.is_space c)|]; reflexivity.
Qed.


(* ------------------------------------------------------------------ *)
(** ** One row per employee *)

Lemma nodup_firstn {A : Type} (n : nat) (l : list A) : NoDup l -> NoDup (firstn n l).
Proof.
  intros H. revert n. induction H as [|x t Hx Ht IH]; intros [|n]; simpl; try constructor.
  - intros I. apply Hx. eapply in_firstn, I.
  - apply IH.
Qed.

Lemma nodup_map_filter {A B : Type} (g : A -> B) (f : A -> bool) (l : list A) :
  NoDup (map g l) -> NoDup (map g (filter f l)).
Proof.
  induction l as [|x t IH]; simpl; intros H; [constructor|].
  inversion H as [|? ? Hx Ht]; subst.
  destruct (f x); simpl; [|now apply IH].
  constructor; [|now apply IH].
  intros I. apply Hx. apply in_map_iff in I. destruct I as (y & E & Hy).
  apply filter_In in Hy. apply in_map_iff. exists y. tauto.
Qed.

Lemma final_match_ids (ts : list tgv_row) (gw : list group_weight) :
  NoDup (map fm_employee_id (final_match ts gw)).
Proof.
  unfold final_match. rewrite map_map. simpl. rewrite map_id. apply nodup_distinct.
Qed.

Lemma ranked_join_ids (fm : list final_row) (es : list employee) :
  NoDup (map fm_employee_id fm) -> NoDup (map e_employee_id es) ->
  NoDup (map out_employee_id (ranked_join fm es)).
Proof.
  intros Hfm Hes. unfold ranked_join.
  induction es as [|e t IH]; simpl; [constructor|].
  inversion Hes as [|? ? He Ht]; subst.
  rewrite map_app, map_map. simpl. apply NoDup_app.
  - rewrite (map_ext_in _ fm_employee_id).
    + now apply nodup_map_filter.
    + intros f Hf. apply filter_In in Hf. destruct Hf as [_ En].
      apply String.eqb_eq in En. now symmetry.
  - now apply IH.
  - intros id I1 I2.
    apply in_map_iff in I1. destruct I1 as (f & <- & _).
    apply in_map_iff in I2. destruct I2 as (r & Er & Hr).
    apply (proj1 (in_ranked_join fm t r)) in Hr.
    destruct Hr as (f' & e' & _ & He' & _ & ->). simpl in Er.
    apply He. rewrite <- Er. now apply in_map.
Qed.

(** X11.  When the employee ids of [employees] are unique, no employee is
    listed twice: the ranked output holds at most one row per employee
    id. *)
Theorem ranked_output_one_row_per_employee (db : database) (p : params)
    (out : list ranked_row)
    (Hkey : NoDup (map e_employee_id (employees db)))
    (H : talent_match db p = Sql.Ok out) :
  NoDup (map out_employee_id out).
Proof.
  destruct (talent_match_limit_inv _ _ _ H) as (rows & ts & _ & _ & ->).
  unfold ranked_select, limit. rewrite <- firstn_map. apply nodup_firstn.
  eapply Permutation_NoDup.
  - apply Permutation_map, Permutation_sym, order_by_perm.
  - apply ranked_join_ids; [apply final_match_ids | exact Hkey].
Qed.

Lemma ranked_output_one_row_per_employee_witness :
  NoDup (map out_employee_id [ranked "A" "Ann" (int 100); ranked "B" "Bob" (int 100)]).
Proof.
  apply (@ranked_output_one_row_per_employee tie_db fallback_params _).
  - repeat constructor; simpl; intuition discriminate.
  - exact tie_run.
Defined.

(* ------------------------------------------------------------------ *)
(** ** The direction of the two formulas *)

(** X12.  For a positive baseline the plain formula rises with the
    reading and the reverse formula falls with it, and both give exactly
    100 for a reading equal to the baseline. *)
Theorem match_rate_direction (b u1 u2 : Qc) (Hb : (0 < b)%Qc) (Hu : (u1 <= u2)%Qc) :
  exists r1 r2 s1 s2,
    papi_match_rate false (Some b) (Some u1) = Sql.Ok (Some r1)
    /\ papi_match_rate false (Some b) (Some u2) = Sql.Ok (Some r2)
    /\ (r1 <= r2)%Qc
    /\ papi_match_rate true (Some b) (Some u1) = Sql.Ok (Some s1)
    /\ papi_match_rate true (Some b) (Some u2) = Sql.Ok (Some s2)
    /\ (s2 <= s1)%Qc
    /\ papi_match_rate false (Some b) (Some b) = Sql.Ok (Some hundred)
    /\ papi_match_rate true (Some b) (Some b) = Sql.Ok (Some hundred).
Proof.
  assert (N : b <> 0%Qc) by (intros E; subst; exact (Qclt_not_eq _ _ Hb eq_refl)).
  unfold papi_match_rate.
  rewrite !numeric_match_rate_defined, !reverse_match_rate_defined by exact N.
  do 4 eexists. repeat apply conj; try reflexivity.
  - now apply scale_le.
  - apply scale_le; [exact Hb|].
    apply Qcplus_le_compat; [apply Qcle_refl | now apply Qcopp_le_compat].
  - do 2 f_equal. field. exact N.
  - do 2 f_equal. rewrite two_eq. field. exact N.
Qed.

Lemma match_rate_direction_witness :
  exists r1 r2 s1 s2,
    papi_match_rate false (int 10) (int 5) = Sql.Ok (Some r1)
    /\ papi_match_rate false (int 10) (int 15) = Sql.Ok (Some r2)
    /\ (r1 <= r2)%Qc
    /\ papi_match_rate true (int 10) (int 5) = Sql.Ok (Some s1)
    /\ papi_match_rate true (int 10) (int 15) = Sql.Ok (Some s2)
    /\ (s2 <= s1)%Qc.
Proof.
  assert (Hb : (0 < Sql.qz 10)%Qc) by reflexivity.
  assert (Hu : (Sql.qz 5 <= Sql.qz 15)%Qc) by (unfold Qcle; vm_compute; discriminate).
  destruct (match_rate_direction Hb Hu)
    as (r1 & r2 & s1 & s2 & A & B & C & D & E & F & _).
  exists r1, r2, s1, s2. repeat split; assumption.
Defined.

(* ------------------------------------------------------------------ *)
(** ** Bounds *)

Lemma is_median_bounds (lo hi : Qc) (xs : list Qc) (b : Qc) :
  (forall x, In x xs -> (lo <= x)%Qc /\ (x <= hi)%Qc) ->
  is_median xs (Some b) -> (lo <= b)%Qc /\ (b <= hi)%Qc.
Proof.
  intros Hxs (l & h & (s & Hperm & _ & Hl & Hh) & L & U).
  apply nth_error_In, (Permutation_in _ Hperm), Hxs in Hl.
  apply nth_error_In, (Permutation_in _ Hperm), Hxs in Hh.
  split.
  - apply (Qcle_trans _ l); tauto.
  - apply (Qcle_trans _ h); tauto.
Qed.

(** X14.  A baseline never leaves the range of the cohort's readings:
    when every reading of cohort members for a variable lies within
    [lo, hi], so does the baseline of that variable, for the numeric
    variables and for the behavioural scales alike. *)
Theorem baseline_within_cohort_range (db : database) (p : params) (v : string)
    (lo hi : Qc)
    (Hr : forall x, In x (cohort_numeric_readings db (final_bench db p) v
                          ++ cohort_papi_readings db (final_bench db p) v) ->
                    (lo <= x)%Qc /\ (x <= hi)%Qc) :
  (forall b, numeric_baseline_of db p v = Some b -> (lo <= b)%Qc /\ (b <= hi)%Qc)
  /\ (forall b, papi_baseline_of db p v = Some b -> (lo <= b)%Qc /\ (b <= hi)%Qc).
Proof.
  split; intros b Hb.
  - apply (@is_median_bounds lo hi (cohort_numeric_readings db (final_bench db p) v)).
    + intros x Hx. apply Hr, in_or_app. now left.
    + rewrite <- Hb, numeric_baseline_readings. apply is_median_of_readings.
  - apply (@is_median_bounds lo hi (cohort_papi_readings db (final_bench db p) v)).
    + intros x Hx. apply Hr, in_or_app. now right.
    + rewrite <- Hb, papi_baseline_readings. apply is_median_of_readings.
Qed.

Lemma baseline_within_cohort_range_witness :
  numeric_baseline_of median_db fallback_params "iq" = int 25
  /\ (Sql.qz 10 <= Sql.qz 25)%Qc /\ (Sql.qz 25 <= Sql.qz 40)%Qc.
Proof.
  assert (B : numeric_baseline_of median_db fallback_params "iq" = int 25) by sql_eval.
  split; [exact B|].
  refine (proj1 (@baseline_within_cohort_range median_db fallback_params "iq"
                   (Sql.qz 10) (Sql.qz 40) _) (Sql.qz 25) B).
  intros x Hx. vm_compute in Hx.
  destruct Hx as [<- | [<- | [<- | [<- | []]]]];
    split; unfold Qcle; vm_compute; discriminate.
Defined.

(* ------------------------------------------------------------------ *)
(** ** The order of stored rows *)

Section PermFacts.
Context {A B : Type}.

Lemma perm_filter (f : A -> bool) (l l' : list A) :
  Permutation l l' -> Permutation (filter f l) (filter f l').
Proof.
  induction 1 as [|x l l' _ IH|x y l|l l' l'' _ IH1 _ IH2]; simpl.
  - constructor.
  - destruct (f x); [now constructor | exact IH].
  - destruct (f x), (f y); try reflexivity. apply perm_swap.
  - now transitivity (filter f l').
Qed.

Lemma perm_flat_map_ext (f g : A -> list B) (l : list A) :
  (forall a, In a l -> Permutation (f a) (g a)) ->
  Permutation (flat_map f l) (flat_map g l).
Proof.
  induction l as [|x t IH]; simpl; intros H; [constructor|].
  apply Permutation_app; [apply H; now left | apply IH; intros; apply H; now right].
Qed.

Lemma perm_flat_map (f g : A -> list B) (l l' : list A) :
  Permutation l l' -> (forall a, Permutation (f a) (g a)) ->
  Permutation (flat_map f l) (flat_map g l').
Proof.
  intros Hl Hf. transitivity (flat_map f l').
  - now apply Permutation_flat_map.
  - apply perm_flat_map_ext. auto.
Qed.

Lemma perm_map_ext (f g : A -> B) (l l' : list A) :
  Permutation l l' -> (forall a, In a l -> f a = g a) ->
  Permutation (map f l) (map g l').
Proof.
  intros Hl Hf. rewrite (map_ext_in f g l Hf). now apply Permutation_map.
Qed.

End PermFacts.

(** A join of two tables, in the shape every JOIN of the statement has. *)
Lemma perm_join {A B C : Type} (c : A -> B -> bool) (h : A -> B -> C)
      (l1 l1' : list A) (l2 l2' : list B) :
  Permutation l1 l1' -> Permutation l2 l2' ->
  Permutation (flat_map (fun a => map (h a) (filter (c a) l2)) l1)
              (flat_map (fun a => map (h a) (filter (c a) l2')) l1').
Proof.
  intros H1 H2. apply perm_flat_map; [exact H1|].
  intros a. now apply Permutation_map, perm_filter.
Qed.

Lemma perm_distinct (l l' : list string) :
  Permutation l l' -> Permutation (Sql.distinct l) (Sql.distinct l').
Proof.
  intros H. apply NoDup_Permutation; try apply nodup_distinct.
  intros x. rewrite !in_distinct. split; apply Permutation_in; [|symmetry]; exact H.
Qed.

Lemma perm_distinct_by {A : Type} (eqb : A -> A -> bool) (l l' : list A) :
  (forall a b, eqb a b = true <-> a = b) ->
  Permutation l l' -> Permutation (Sql.distinct_by eqb l) (Sql.distinct_by eqb l').
Proof.
  intros He H. apply NoDup_Permutation; try (apply AppFacts.nodup_distinct_by; exact He).
  intros x. rewrite !(in_distinct_by eqb _ _ He).
  split; apply Permutation_in; [|symmetry]; exact H.
Qed.

Lemma perm_defined (l l' : list Sql.num) :
  Permutation l l' -> Permutation (Sql.defined l) (Sql.defined l').
Proof. intros H. unfold Sql.defined. now apply Permutation_flat_map. Qed.

Lemma perm_defined_text (l l' : list (option string)) :
  Permutation l l' -> Permutation (Agg.defined_text l) (Agg.defined_text l').
Proof. intros H. unfold Agg.defined_text. now apply Permutation_flat_map. Qed.

Lemma perm_total (l l' : list Qc) : Permutation l l' -> Sql.total l = Sql.total l'.
Proof.
  induction 1 as [|x l l' _ IH|x y l|l l' l'' _ IH1 _ IH2]; simpl.
  - reflexivity.
  - now rewrite IH.
  - ring.
  - congruence.
Qed.

Lemma perm_sum (l l' : list Sql.num) : Permutation l l' -> Sql.sum l = Sql.sum l'.
Proof.
  intros H. apply perm_defined in H. unfold Sql.sum.
  destruct (Sql.defined l) as [|x t] eqn:E, (Sql.defined l') as [|y u] eqn:E'.
  - reflexivity.
  - apply Permutation_nil in H. discriminate.
  - apply Permutation_sym, Permutation_nil in H. discriminate.
  - f_equal. now apply perm_total.
Qed.

Lemma perm_sort {A : Type} (leb : A -> A -> bool) (l l' : list A) :
  (forall a b, leb a b = true \/ leb b a = true) ->
  (forall a b c, leb a b = true -> leb b c = true -> leb a c = true) ->
  (forall a b, leb a b = true -> leb b a = true -> a = b) ->
  Permutation l l' -> Agg.sort leb l = Agg.sort leb l'.
Proof.
  intros Ht Htr Ha H.
  apply (sorted_perm_unique (R := fun a b => leb a b = true)).
  - exact Ha.
  - rewrite (sort_perm leb l), (sort_perm leb l'). exact H.
  - now apply sort_strongly_sorted.
  - now apply sort_strongly_sorted.
Qed.

Lemma Qc_leb_antisym (x y : Qc) :
  Agg.Qc_leb x y = true -> Agg.Qc_leb y x = true -> x = y.
Proof. rewrite !Qc_leb_le. apply Qcle_antisym. Qed.

Lemma perm_percentile_cont (f : Qc) (l l' : list Sql.num) :
  Permutation l l' -> Agg.percentile_cont f l = Agg.percentile_cont f l'.
Proof.
  intros H. unfold Agg.percentile_cont.
  rewrite (perm_sort Agg.Qc_leb Qc_leb_total Qc_leb_trans Qc_leb_antisym
                     (perm_defined H)).
  reflexivity.
Qed.

Lemma perm_mode (l l' : list (option string)) :
  Permutation l l' -> Agg.mode l = Agg.mode l'.
Proof.
  intros H. unfold Agg.mode.
  rewrite (perm_sort String.leb String.leb_total string_leb_trans String.leb_antisym
                     (perm_defined_text H)).
  reflexivity.
Qed.

Lemma perm_mapM {A B : Type} (f g : A -> Sql.result B) (l l' : list A) :
  Permutation l l' -> (forall a, f a = g a) ->
  same_outcome (Sql.mapM f l) (Sql.mapM g l').
Proof.
  intros H Hfg. assert (E : forall k, Sql.mapM f k = Sql.mapM g k).
  { induction k as [|a k IH]; simpl; [reflexivity | now rewrite Hfg, IH]. }
  rewrite <- E. clear E Hfg g. unfold same_outcome.
  induction H as [|x l l' _ IH|x y l|l l' l'' _ IH1 _ IH2]; simpl.
  - constructor.
  - destruct (f x); simpl; [|exact I].
    destruct (Sql.mapM f l), (Sql.mapM f l'); simpl; try tauto. now constructor.
  - destruct (f x), (f y); simpl; try exact I;
      destruct (Sql.mapM f l); simpl; try exact I. apply perm_swap.
  - destruct (Sql.mapM f l), (Sql.mapM f l'), (Sql.mapM f l''); try tauto.
    now transitivity a0.
Qed.

Section RowOrder.
Variables db db' : database.
Variable p : params.
Hypothesis Hsame : same_rows db db'.

Let He : Permutation (employees db) (employees db') := proj1 Hsame.
Let Hpy : Permutation (performance_yearly db) (performance_yearly db') :=
  proj1 (proj2 Hsame).
Let Hc : Permutation (competencies_yearly db) (competencies_yearly db') :=
  proj1 (proj2 (proj2 Hsame)).
Let Hq : Permutation (profiles_psych db) (profiles_psych db') :=
  proj1 (proj2 (proj2 (proj2 Hsame))).
Let Hps : Permutation (papi_scores db) (papi_scores db') :=
  proj1 (proj2 (proj2 (proj2 (proj2 Hsame)))).
Let Hm : Permutation (talent_variables_mapping db) (talent_variables_mapping db') :=
  proj1 (proj2 (proj2 (proj2 (proj2 (proj2 Hsame))))).
Let Hg : Permutation (talent_group_weights db) (talent_group_weights db') :=
  proj2 (proj2 (proj2 (proj2 (proj2 (proj2 Hsame))))).

Lemma rated_same m id : rated_at_least db m id <-> rated_at_least db' m id.
Proof.
  unfold rated_at_least. split; intros (py & Hin & H); exists py; split; auto.
  - exact (Permutation_in _ Hpy Hin).
  - exact (Permutation_in _ (Permutation_sym Hpy) Hin).
Qed.

Lemma explicit_union_same id : explicit_union db p id <-> explicit_union db' p id.
Proof.
  unfold explicit_union, role_qualifies.
  split; (intros [H | (e & r & Hin & H1 & H2 & H3 & H4)]; [now left | right]);
    exists e, r; repeat split; auto.
  - exact (Permutation_in _ He Hin).
  - now apply rated_same.
  - exact (Permutation_in _ (Permutation_sym He) Hin).
  - now apply rated_same.
Qed.

End RowOrder.

Lemma in_final_bench_iff db p id :
  In id (final_bench db p)
  <-> explicit_union db p id
      \/ ((forall x, ~ explicit_union db p x)
          /\ rated_at_least db (min_hp_rating p) id).
Proof.
  unfold final_bench. rewrite in_union, !in_distinct, filter_In.
  rewrite in_benchmark_set, in_fallback_benchmark.
  destruct (benchmark_set db p) as [|b t] eqn:B; simpl.
  - assert (N : forall x, ~ explicit_union db p x).
    { intros x Hx. apply in_benchmark_set in Hx. now rewrite B in Hx. }
    split; [intros [H | [H _]]; auto | intros [H | [_ H]]; auto].
  - assert (Y : explicit_union db p b) by (apply in_benchmark_set; rewrite B; now left).
    split; [intros [H | [_ H]]; [auto | discriminate]
           | intros [H | [H _]]; [auto | exfalso; exact (H b Y)]].
Qed.

Lemma mem_final_bench_same db db' p id :
  same_rows db db' ->
  Sql.mem id (final_bench db p) = Sql.mem id (final_bench db' p).
Proof.
  intros H.
  assert (E : In id (final_bench db p) <-> In id (final_bench db' p)).
  { rewrite !in_final_bench_iff, (explicit_union_same p H id), (rated_same H).
    assert (X : (forall x, ~ explicit_union db p x) <-> (forall x, ~ explicit_union db' p x)).
    { split; intros N x Hx; apply (N x); now apply (explicit_union_same p H x). }
    rewrite X. reflexivity. }
  destruct (Sql.mem id (final_bench db p)) eqn:M1, (Sql.mem id (final_bench db' p)) eqn:M2;
    try reflexivity.
  - apply mem_true_iff, E, mem_true_iff in M1. congruence.
  - apply mem_true_iff, E, mem_true_iff in M2. congruence.
Qed.

Lemma latest_same db db' : same_rows db db' -> latest db = latest db'.
Proof.
  intros H. assert (P : Permutation (map c_year (competencies_yearly db))
                                    (map c_year (competencies_yearly db')))
    by (apply Permutation_map, H).
  unfold latest.
  destruct (map c_year (competencies_yearly db)) as [|y ys] eqn:E,
           (map c_year (competencies_yearly db')) as [|y' ys'] eqn:E'.
  - reflexivity.
  - apply Permutation_nil in P. discriminate.
  - apply Permutation_sym, Permutation_nil in P. discriminate.
  - destruct (fold_max_upper y ys) as [U I], (fold_max_upper y' ys') as [U' I'].
    f_equal. apply Z.le_antisymm.
    + apply U'. exact (Permutation_in _ P I).
    + apply U. exact (Permutation_in _ (Permutation_sym P) I').
Qed.

Lemma all_numeric_scores_same db db' :
  same_rows db db' -> Permutation (all_numeric_scores db) (all_numeric_scores db').
Proof.
  intros H. unfold all_numeric_scores, psych_columns, in_latest.
  rewrite (latest_same H). simpl.
  destruct H as (_ & _ & Hc & Hq & _).
  repeat apply Permutation_app; try (apply Permutation_map; exact Hq).
  - apply Permutation_map, perm_filter, Hc.
  - constructor.
Qed.

Lemma cohort_filter_same {R : Type} (key : R -> string) (f : R -> bool)
      (rows rows' : list R) db db' p :
  same_rows db db' -> Permutation rows rows' ->
  Permutation (filter (fun r => f r && Sql.mem (key r) (final_bench db p)) rows)
              (filter (fun r => f r && Sql.mem (key r) (final_bench db' p)) rows').
Proof.
  intros H Hr.
  rewrite (filter_ext (fun r => f r && Sql.mem (key r) (final_bench db p))
                      (fun r => f r && Sql.mem (key r) (final_bench db' p)))
    by (intros r; now rewrite (mem_final_bench_same p (key r) H)).
  now apply perm_filter.
Qed.

Lemma cohort_rows_same {R : Type} (key : R -> string) (rows rows' : list R) db db' p :
  same_rows db db' -> Permutation rows rows' ->
  Permutation (filter (fun r => Sql.mem (key r) (final_bench db p)) rows)
              (filter (fun r => Sql.mem (key r) (final_bench db' p)) rows').
Proof.
  intros H Hr.
  rewrite (filter_ext (fun r => Sql.mem (key r) (final_bench db p))
                      (fun r => Sql.mem (key r) (final_bench db' p)))
    by (intros r; now rewrite (mem_final_bench_same p (key r) H)).
  now apply perm_filter.
Qed.

Lemma numeric_baseline_of_same db db' p k :
  same_rows db db' -> numeric_baseline_of db p k = numeric_baseline_of db' p k.
Proof.
  intros H. rewrite !numeric_baseline_of_percentile.
  apply perm_percentile_cont, Permutation_map.
  apply (cohort_filter_same sc_employee_id (fun sc => String.eqb (sc_tv_name sc) k) p H).
  now apply all_numeric_scores_same.
Qed.

Lemma papi_baseline_of_same db db' p k :
  same_rows db db' -> papi_baseline_of db p k = papi_baseline_of db' p k.
Proof.
  intros H. rewrite !papi_baseline_of_percentile.
  apply perm_percentile_cont, Permutation_map.
  apply (cohort_filter_same ps_employee_id (fun ps => String.eqb (ps_scale_code ps) k) p H).
  apply H.
Qed.

Lemma baseline_numeric_rows db p :
  baseline_numeric db p
  = map (fun k => {| bn_tv_name := k; bn_baseline_score := numeric_baseline_of db p k |})
        (Sql.distinct
           (map sc_tv_name
                (filter (fun sc => Sql.mem (sc_employee_id sc) (final_bench db p))
                        (all_numeric_scores db)))).
Proof.
  unfold baseline_numeric. rewrite baseline_numeric_input_cohort, map_map. simpl.
  apply map_ext. intros k. f_equal.
  rewrite numeric_baseline_of_percentile, filter_map_swap, map_map, filter_filter.
  reflexivity.
Qed.

Lemma baseline_papi_rows db p :
  baseline_papi db p
  = map (fun k => {| bp_tv_name := k;
                     bp_baseline_score := papi_baseline_of db p k;
                     bp_is_reverse := Sql.mem k reverse_list |})
        (Sql.distinct
           (map ps_scale_code
                (filter (fun ps => Sql.mem (ps_employee_id ps) (final_bench db p))
                        (papi_scores db)))).
Proof.
  unfold baseline_papi.
  assert (I : baseline_papi_input db p
              = filter (fun ps => Sql.mem (ps_employee_id ps) (final_bench db p))
                       (papi_scores db))
    by apply (join_final_bench ps_employee_id).
  rewrite I. apply map_ext. intros k. f_equal.
  rewrite papi_baseline_of_percentile, filter_filter. reflexivity.
Qed.

Lemma baseline_numeric_same db db' p :
  same_rows db db' -> Permutation (baseline_numeric db p) (baseline_numeric db' p).
Proof.
  intros H. rewrite !baseline_numeric_rows. apply perm_map_ext.
  - apply perm_distinct, Permutation_map.
    apply (cohort_rows_same sc_employee_id p H). now apply all_numeric_scores_same.
  - intros k _. f_equal. now apply numeric_baseline_of_same.
Qed.

Lemma baseline_papi_same db db' p :
  same_rows db db' -> Permutation (baseline_papi db p) (baseline_papi db' p).
Proof.
  intros H. rewrite !baseline_papi_rows. apply perm_map_ext.
  - apply perm_distinct, Permutation_map.
    apply (cohort_rows_same ps_employee_id p H). apply H.
  - intros k _. f_equal. now apply papi_baseline_of_same.
Qed.

Lemma numeric_tv_same db db' p :
  same_rows db db' -> same_outcome (numeric_tv db p) (numeric_tv db' p).
Proof.
  intros H. unfold numeric_tv. apply perm_mapM; [|reflexivity].
  apply (perm_join (fun sc bn => String.eqb (sc_tv_name sc) (bn_tv_name bn))
                   (fun sc bn => (sc, bn))).
  - now apply all_numeric_scores_same.
  - now apply baseline_numeric_same.
Qed.

Lemma papi_tv_same db db' p :
  same_rows db db' -> same_outcome (papi_tv db p) (papi_tv db' p).
Proof.
  intros H. unfold papi_tv. apply perm_mapM; [|reflexivity].
  apply (perm_join (fun ps bp => String.eqb (ps_scale_code ps) (bp_tv_name bp))
                   (fun ps bp => (ps, bp))).
  - apply H.
  - now apply baseline_papi_same.
Qed.

Lemma baseline_cat_same db db' p :
  same_rows db db' -> baseline_cat db p = baseline_cat db' p.
Proof.
  intros H. unfold baseline_cat. rewrite !baseline_cat_input_cohort.
  assert (P : Permutation
                (filter (fun q => Sql.mem (p_employee_id q) (final_bench db p))
                        (profiles_psych db))
                (filter (fun q => Sql.mem (p_employee_id q) (final_bench db' p))
                        (profiles_psych db')))
    by (apply (cohort_rows_same p_employee_id p H); apply H).
  rewrite (perm_mode (Permutation_map (fun q => Agg.upper_trim (p_mbti q)) P)).
  rewrite (perm_mode (Permutation_map (fun q => Agg.upper_trim (p_disc q)) P)).
  reflexivity.
Qed.

Lemma categorical_tv_same db db' p :
  same_rows db db' -> Permutation (categorical_tv db p) (categorical_tv db' p).
Proof.
  intros H. unfold categorical_tv. rewrite (baseline_cat_same p H).
  apply Permutation_flat_map, H.
Qed.

Lemma all_tv_same db db' p :
  same_rows db db' -> same_outcome (all_tv db p) (all_tv db' p).
Proof.
  intros H. unfold all_tv.
  pose proof (numeric_tv_same p H) as N. pose proof (papi_tv_same p H) as P.
  destruct (numeric_tv db p), (numeric_tv db' p); simpl in *; try tauto.
  destruct (papi_tv db p), (papi_tv db' p); simpl in *; try tauto.
  repeat apply Permutation_app; auto. now apply categorical_tv_same.
Qed.

Lemma tgv_join_same rows rows' (m m' : list tv_mapping) :
  Permutation rows rows' -> Permutation m m' ->
  Permutation (tgv_join rows m) (tgv_join rows' m').
Proof.
  intros Hr Hm. unfold tgv_join.
  now apply (perm_join (fun a mm => String.eqb (tv_name a) (m_tv_name mm))
                       (fun a mm => (a, mm))).
Qed.

Lemma tgv_match_same rows rows' (m m' : list tv_mapping) :
  Permutation rows rows' -> Permutation m m' ->
  same_outcome (tgv_match rows m) (tgv_match rows' m').
Proof.
  intros Hr Hm. pose proof (tgv_join_same Hr Hm) as J. unfold tgv_match.
  apply perm_mapM.
  - apply (perm_distinct_by pair_eqb pair_eqb_eq). now apply Permutation_map.
  - intros k.
    assert (G : Permutation (tgv_group (tgv_join rows m) k) (tgv_group (tgv_join rows' m') k))
      by (unfold tgv_group; now apply perm_filter).
    unfold tgv_numerator, tgv_denominator.
    rewrite (perm_sum (Permutation_map
                         (fun am => Sql.mul (tv_match_rate (fst am)) (m_tv_weight (snd am))) G)).
    rewrite (perm_sum (Permutation_map (fun am => m_tv_weight (snd am)) G)).
    reflexivity.
Qed.

Lemma final_match_same ts ts' (gw gw' : list group_weight) :
  Permutation ts ts' -> Permutation gw gw' ->
  Permutation (final_match ts gw) (final_match ts' gw').
Proof.
  intros Ht Hg.
  assert (J : Permutation (final_join ts gw) (final_join ts' gw')).
  { unfold final_join.
    now apply (perm_join (fun t g => String.eqb (tgv_name t) (g_tgv_name g))
                         (fun t g => (t, g))). }
  unfold final_match. apply perm_map_ext.
  - apply perm_distinct. now apply Permutation_map.
  - intros k _. f_equal. unfold final_sum, final_group.
    apply perm_sum, Permutation_map. now apply perm_filter.
Qed.

Lemma ranked_join_same fm fm' (es es' : list employee) :
  Permutation fm fm' -> Permutation es es' ->
  Permutation (ranked_join fm es) (ranked_join fm' es').
Proof.
  intros Hf He. unfold ranked_join.
  now apply (perm_join (fun e f => String.eqb (fm_employee_id f) (e_employee_id e))
                       (fun e f => {| out_employee_id := e_employee_id e;
                                      out_fullname := e_fullname e;
                                      out_final_match_rate := fm_final_match_rate f |})).
Qed.

Lemma talent_match_limit_same (n : nat) db db' p out out' :
  same_rows db db' ->
  talent_match_limit n db p = Sql.Ok out -> talent_match_limit n db' p = Sql.Ok out' ->
  List.length out < n -> Permutation out out'.
Proof.
  intros H. unfold talent_match_limit, tv_map.
  pose proof (all_tv_same p H) as A.
  destruct (all_tv db p) as [rows|], (all_tv db' p) as [rows'|]; simpl in *;
    try discriminate; try tauto.
  assert (Hm : Permutation (talent_variables_mapping db) (talent_variables_mapping db'))
    by apply H.
  pose proof (tgv_match_same A Hm) as T.
  destruct (tgv_match rows _) as [ts|], (tgv_match rows' _) as [ts'|]; simpl in *;
    try discriminate; try tauto.
  assert (J : Permutation
                (ranked_join (final_match ts (talent_group_weights db)) (employees db))
                (ranked_join (final_match ts' (talent_group_weights db')) (employees db'))).
  { apply ranked_join_same; [apply final_match_same; [exact T | apply H] | apply H]. }
  unfold ranked_select, limit.
  set (j := ranked_join (final_match ts _) _) in *.
  set (j' := ranked_join (final_match ts' _) _) in *.
  assert (S : Permutation (order_by_final_match_rate_desc j)
                          (order_by_final_match_rate_desc j')).
  { rewrite (order_by_perm j), (order_by_perm j'). exact J. }
  intros E E' L. inversion E; subst out. inversion E'; subst out'. clear E E'.
  rewrite length_firstn in L.
  assert (L1 : List.length (order_by_final_match_rate_desc j) <= n) by lia.
  assert (L2 : List.length (order_by_final_match_rate_desc j') <= n)
    by (rewrite <- (Permutation_length S); exact L1).
  rewrite !firstn_all2 by assumption. exact S.
Qed.



(* ------------------------------------------------------------------ *)
(** ** Which readings are scored *)

Lemma numeric_match_rate_eq (b u : Sql.num) :
  numeric_match_rate b u = Sql.Ok (plain_rate b u).
Proof.
  unfold numeric_match_rate, plain_rate, Sql.nullif, Sql.div, Sql.Qc_eqb.
  destruct b as [b|], u as [u|]; simpl; try reflexivity;
    destruct (Qc_eq_dec b 0%Qc) as [E|N]; simpl; try reflexivity.
  destruct (Qc_eq_dec b 0%Qc); [contradiction | reflexivity].
Qed.

Lemma reverse_match_rate_eq (b u : Sql.num) :
  reverse_match_rate b u = Sql.Ok (reverse_rate b u).
Proof.
  unfold reverse_match_rate, reverse_rate, Sql.nullif, Sql.div, Sql.Qc_eqb.
  destruct b as [b|], u as [u|]; simpl; try reflexivity;
    destruct (Qc_eq_dec b 0%Qc) as [E|N]; simpl; try reflexivity.
  destruct (Qc_eq_dec b 0%Qc); [contradiction | reflexivity].
Qed.

Lemma in_join {A B C : Type} (c : A -> B -> bool) (h : A -> B -> C)
      (l1 : list A) (l2 : list B) (x : C) :
  In x (flat_map (fun a => map (h a) (filter (c a) l2)) l1)
  <-> exists a b, In a l1 /\ In b l2 /\ c a b = true /\ x = h a b.
Proof.
  rewrite in_flat_map. split.
  - intros (a & Ha & Hx). apply in_map_iff in Hx. destruct Hx as (b & <- & Hb).
    apply filter_In in Hb. exists a, b. tauto.
  - intros (a & b & Ha & Hb & Hc & ->). exists a. split; [exact Ha|].
    apply in_map_iff. exists b. split; [reflexivity|]. apply filter_In. auto.
Qed.

Lemma mapM_ok_iff {A B : Type} (f : A -> Sql.result B) (l : list A) (ys : list B) :
  Sql.mapM f l = Sql.Ok ys ->
  forall y, In y ys <-> exists x, In x l /\ f x = Sql.Ok y.
Proof.
  intros H y. split; [apply (mapM_ok_in _ _ H)|].
  intros (x & Hx & Hf). destruct (mapM_in_ok _ _ H x Hx) as (y' & Hy' & Hf').
  congruence.
Qed.

Lemma in_baseline_numeric db p bn :
  In bn (baseline_numeric db p)
  <-> cohort_has_numeric db p (bn_tv_name bn)
      /\ bn_baseline_score bn = numeric_baseline_of db p (bn_tv_name bn).
Proof.
  rewrite baseline_numeric_rows, in_map_iff. unfold cohort_has_numeric. split.
  - intros (k & <- & Hk). simpl. split; [|reflexivity].
    apply (proj1 (in_distinct _ _)), in_map_iff in Hk. destruct Hk as (c & <- & Hc).
    apply filter_In in Hc. destruct Hc as [Hc Hm]. apply mem_true_iff in Hm. eauto.
  - intros [(c & Hc & En & Hm) Eb]. exists (bn_tv_name bn). split.
    + destruct bn; simpl in *. now rewrite Eb.
    + apply (proj2 (in_distinct _ _)), in_map_iff. exists c. split; [exact En|].
      apply filter_In. split; [exact Hc | now apply mem_true_iff].
Qed.

Lemma in_baseline_papi db p bp :
  In bp (baseline_papi db p)
  <-> cohort_has_papi db p (bp_tv_name bp)
      /\ bp_baseline_score bp = papi_baseline_of db p (bp_tv_name bp)
      /\ bp_is_reverse bp = Sql.mem (bp_tv_name bp) reverse_list.
Proof.
  rewrite baseline_papi_rows, in_map_iff. unfold cohort_has_papi. split.
  - intros (k & <- & Hk). simpl. split; [|split; reflexivity].
    apply (proj1 (in_distinct _ _)), in_map_iff in Hk. destruct Hk as (c & <- & Hc).
    apply filter_In in Hc. destruct Hc as [Hc Hm]. apply mem_true_iff in Hm. eauto.
  - intros [(c & Hc & En & Hm) [Eb Er]]. exists (bp_tv_name bp). split.
    + destruct bp; simpl in *. now rewrite Eb, Er.
    + apply (proj2 (in_distinct _ _)), in_map_iff. exists c. split; [exact En|].
      apply filter_In. split; [exact Hc | now apply mem_true_iff].
Qed.

(** X16.  A reading is scored exactly when some cohort member has a row
    for the same variable.  [numeric_tv] holds one row for each row of
    [all_numeric_scores] whose variable has a cohort row, and no other;
    [papi_tv] does the same for [papi_scores], with the reverse formula
    for the four scales of [reverse_list] and the plain one otherwise.
    The row's rate is undefined when the baseline or the reading is
    missing or the baseline is 0; a reading of a variable without any
    cohort row yields no row at all. *)
Theorem scored_rows (db : database) (p : params) :
  exists n_rows b_rows,
    numeric_tv db p = Sql.Ok n_rows
    /\ papi_tv db p = Sql.Ok b_rows
    /\ (forall r, In r n_rows
                  <-> exists sc, In sc (all_numeric_scores db)
                                 /\ cohort_has_numeric db p (sc_tv_name sc)
                                 /\ r = numeric_row db p sc)
    /\ (forall r, In r b_rows
                  <-> exists ps, In ps (papi_scores db)
                                 /\ cohort_has_papi db p (ps_scale_code ps)
                                 /\ r = papi_row db p ps).
Proof.
  destruct (numeric_tv_ok db p) as [n_rows Hn], (papi_tv_ok db p) as [b_rows Hb].
  exists n_rows, b_rows. repeat apply conj; auto.
  - intros r. unfold numeric_tv in Hn. rewrite (mapM_ok_iff _ _ Hn r). split.
    + intros ([sc bn] & Hj & Hf).
      apply (in_join (fun sc bn => String.eqb (sc_tv_name sc) (bn_tv_name bn))
                     (fun sc bn => (sc, bn))) in Hj.
      destruct Hj as (sc' & bn' & Hsc & Hbn & En & E). inversion E; subst sc' bn'.
      apply String.eqb_eq in En. apply in_baseline_numeric in Hbn.
      destruct Hbn as [Hc Eb]. rewrite numeric_match_rate_eq in Hf. simpl in Hf.
      inversion Hf; subst r. exists sc. rewrite En. repeat split; auto.
      unfold numeric_row. now rewrite En, Eb.
    + intros (sc & Hsc & Hc & ->).
      exists (sc, {| bn_tv_name := sc_tv_name sc;
                     bn_baseline_score := numeric_baseline_of db p (sc_tv_name sc) |}).
      split.
      * apply (in_join (fun sc bn => String.eqb (sc_tv_name sc) (bn_tv_name bn))
                       (fun sc bn => (sc, bn))).
        eexists. eexists. repeat split; [exact Hsc | | apply String.eqb_refl].
        apply in_baseline_numeric. simpl. auto.
      * rewrite numeric_match_rate_eq. reflexivity.
  - intros r. unfold papi_tv in Hb. rewrite (mapM_ok_iff _ _ Hb r). split.
    + intros ([ps bp] & Hj & Hf).
      apply (in_join (fun ps bp => String.eqb (ps_scale_code ps) (bp_tv_name bp))
                     (fun ps bp => (ps, bp))) in Hj.
      destruct Hj as (ps' & bp' & Hps & Hbp & En & E). inversion E; subst ps' bp'.
      apply String.eqb_eq in En. apply in_baseline_papi in Hbp.
      destruct Hbp as (Hc & Eb & Er). exists ps. rewrite En. repeat split; auto.
      unfold papi_row. rewrite En, <- Eb, <- Er.
      unfold papi_match_rate in Hf.
      destruct (bp_is_reverse bp);
        [rewrite reverse_match_rate_eq in Hf | rewrite numeric_match_rate_eq in Hf];
        simpl in Hf; inversion Hf; rewrite Eb; reflexivity.
    + intros (ps & Hps & Hc & ->).
      exists (ps, {| bp_tv_name := ps_scale_code ps;
                     bp_baseline_score := papi_baseline_of db p (ps_scale_code ps);
                     bp_is_reverse := Sql.mem (ps_scale_code ps) reverse_list |}).
      split.
      * apply (in_join (fun ps bp => String.eqb (ps_scale_code ps) (bp_tv_name bp))
                       (fun ps bp => (ps, bp))).
        eexists. eexists. repeat split; [exact Hps | | apply String.eqb_refl].
        apply in_baseline_papi. simpl. auto.
      * unfold papi_match_rate, papi_row.
        cbn [bp_is_reverse bp_baseline_score bp_tv_name].
        destruct (Sql.mem (ps_scale_code ps) reverse_list);
          [rewrite reverse_match_rate_eq | rewrite numeric_match_rate_eq]; reflexivity.
Qed.

(* ------------------------------------------------------------------ *)
(** ** The top match *)

Lemma ranked_before_refl (r : ranked_row) : ranked_before r r.
Proof.
  unfold ranked_before, rank_leb.
  destruct (desc_leb_total (out_final_match_rate r) (out_final_match_rate r)); assumption.
Qed.

Lemma firstn_head {A : Type} (n : nat) (l : list A) (x : A) (t : list A) :
  firstn n l = x :: t -> exists t', l = x :: t'.
Proof.
  destruct n, l as [|y l']; simpl; try discriminate.
  intros E. inversion E. eauto.
Qed.

Lemma run_match_query_inv db (ids : list string) (pos : option Z) (rating : Z)
      (out : list ranked_row) :
  App.run_match_query db ids pos rating = Sql.Ok out ->
  exists p, Text.read_params Text.engine_ctes (App.match_sql ids pos rating) = Sql.Ok p
            /\ talent_match db p = Sql.Ok out.
Proof.
  unfold App.run_match_query.
  destruct (Text.read_params _ _) as [p|e]; cbn [Sql.bind]; [eauto | discriminate].
Qed.

Lemma read_params_plain (ids : list string) (pos : option Z) (rating : Z) (p : params) :
  Forall Text.quote_free ids ->
  Text.read_params Text.engine_ctes (App.match_sql ids pos rating) = Sql.Ok p ->
  p = {| manual_hp := ids; role_position_id := pos; min_hp_rating := rating |}.
Proof.
  intros Hq. unfold App.match_sql.
  rewrite (@TextFacts.read_params_written _ ids pos rating Hq).
  destruct (TextLayout.cast_arguments pos rating) as [x|e] eqn:E; [|discriminate].
  apply AppFacts.cast_arguments_ok in E. subst x. intros R. now inversion R.
Qed.

(** X17.  The employee shown as "Top Match" is first under
    [ORDER BY final_match_rate DESC] among all joined rows, not only among
    the 200 listed: no row of the result under any other row bound stands
    strictly before it, for the [params] row the statement is read with,
    which holds the given ids, position and rating when the ids are
    written with letters, digits, [-] and [_] only.  As NULL sorts first,
    the top match has an undefined score as soon as any listed employee
    has one; when its score is defined, every listed score is defined and
    at most as large. *)
Theorem top_match_leads_the_order (db : database)
    (ids : list string) (pos : option Z) (rating : Z)
    (out : list ranked_row) (top : ranked_row)
    (H : App.run_match_query db ids pos rating = Sql.Ok out)
    (T : App.top_row out = Some top) :
  (forall p n full r,
      Text.read_params Text.engine_ctes (App.match_sql ids pos rating) = Sql.Ok p ->
      talent_match_limit n db p = Sql.Ok full ->
      In r full -> ranked_before top r)
  /\ (plain_ids ids ->
      forall n full r,
        talent_match_limit n db {| manual_hp := ids; role_position_id := pos;
                                   min_hp_rating := rating |} = Sql.Ok full ->
        In r full -> ranked_before top r)
  /\ (forall r, In r out -> out_final_match_rate r = None ->
                out_final_match_rate top = None)
  /\ (forall x, out_final_match_rate top = Some x ->
        forall r, In r out ->
          exists y, out_final_match_rate r = Some y /\ (y <= x)%Qc).
Proof.
  destruct (run_match_query_inv _ _ _ _ H) as (p & R & H'). unfold talent_match in H'.
  assert (A : forall n full r,
             talent_match_limit n db p = Sql.Ok full -> In r full -> ranked_before top r).
  { intros n full r F Hr.
    destruct (talent_match_limit_inv _ _ _ H') as (rows & ts & Hrows & Hts & E).
    destruct (talent_match_limit_inv _ _ _ F) as (rows' & ts' & Hrows' & Hts' & E').
    assert (rows' = rows) by congruence. subst rows'.
    assert (ts' = ts) by congruence. subst ts'.
    unfold ranked_select, limit in E, E'.
    set (j := ranked_join (final_match ts (talent_group_weights db)) (employees db)) in *.
    destruct out as [|top' rest]; [discriminate|]. simpl in T. inversion T; subst top'.
    symmetry in E. destruct (firstn_head _ _ E) as (t' & Es).
    pose proof (order_by_sorted j) as S. rewrite Es in S.
    subst full. apply in_firstn in Hr. rewrite Es in Hr.
    destruct Hr as [<- | Hr]; [apply ranked_before_refl|].
    inversion S as [|? ? _ F']. rewrite Forall_forall in F'. auto. }
  repeat apply conj.
  - intros p' n full r R' F Hr. assert (p' = p) by congruence. subst p'. eauto.
  - intros Hq n full r F Hr.
    rewrite <- (@read_params_plain ids pos rating p (plain_ids_quote_free Hq) R) in F. eauto.
  - intros r Hr N. specialize (A _ _ _ H' Hr).
    unfold ranked_before, rank_leb, desc_leb in A. rewrite N in A.
    destruct (out_final_match_rate top); [discriminate | reflexivity].
  - intros x Ex r Hr. specialize (A _ _ _ H' Hr).
    unfold ranked_before, rank_leb, desc_leb in A. rewrite Ex in A.
    destruct (out_final_match_rate r) as [y|]; [|discriminate].
    exists y. split; [reflexivity|]. now apply Qc_leb_le.
Qed.

Lemma top_match_leads_the_order_witness :
  App.top_row [ranked "B" "Bob" None; ranked "A" "Ann" (int 100)]
  = Some (ranked "B" "Bob" None)
  /\ ranked_before (ranked "B" "Bob" None) (ranked "A" "Ann" (int 100)).
Proof.
  split; [reflexivity|].
  assert (R : App.run_match_query null_score_db [] None 5
              = Sql.Ok [ranked "B" "Bob" None; ranked "A" "Ann" (int 100)]) by sql_eval.
  refine (proj1 (proj2 (@top_match_leads_the_order null_score_db [] None 5%Z
                          [ranked "B" "Bob" None; ranked "A" "Ann" (int 100)]
                          (ranked "B" "Bob" None) R eq_refl))
                (fun id (H : In id []) => match H with end) 200%nat _ _ null_score_run _).
  right. left. reflexivity.
Defined.
